(** * Heavy-flavour filter helpers and Dalitz selection: embedding and properties

    The first part of this file embeds the selection helpers of
    [HFFilterHelpers.h] (namespace [o2::aod::hffilters]), the photon
    cluster skimmer of [GammaTableProducer.cxx] and the Dalitz pairing
    task of [DalitzSelection.cxx] as Rocq functions.  The second part
    states and proves their properties.

    Conventions of the embedding:
    - a C++ [float] or [double] is a binary64 value of [PrimFloat]; every
      binary32 value is one, comparisons between a [float] and a [double]
      are done in binary64 by the usual arithmetic conversions, and each
      place where the source narrows a value to [float] is written out
      with [narrow];
    - [int], [Int_t] and [int64_t] values are integers of [Z]; [int8_t]
      and [uint8_t] assignments wrap with [int8_t] and [uint8_t];
    - [LOG(fatal)] and a failed [assert] end the run: fallible helpers
      return a [result];
    - histograms filled for QA live in a registry threaded through the
      helpers that take histogram pointers;
    - [std::map<int, uint8_t>] is a [gmap Z Z], with [operator[]] inserting
      the default value on a missing key. *)

From Stdlib Require Import ZArith List Bool String Lia.
From Stdlib Require Import Floats.
From Stdlib Require Import Reals Lra RNsatz.
From stdpp Require Import gmap.
Import ListNotations.

#[local] Set Warnings "-inexact-float".
#[local] Open Scope Z_scope.

(* ================================================================== *)
(** * Part I: the embedding *)
(* ================================================================== *)

(** ** ROOT's bit macros and fixed-width integers *)

Module Bits.

(** [#define BIT(n) (1ULL << (n))] *)
Definition BIT (n : Z) : Z := Z.shiftl 1 n.

(** [#define TESTBIT(n,i) ((Bool_t)(((n) & BIT(i)) != 0))] *)
Definition TESTBIT (n i : Z) : bool := negb (Z.land n (BIT i) =? 0).

(** Conversion of an integer to [int8_t] (two's complement wrap-around). *)
Definition int8_t (z : Z) : Z := (z + 128) mod 256 - 128.

(** Conversion of an integer to [uint8_t]. *)
Definition uint8_t (z : Z) : Z := z mod 256.

End Bits.

(** ** Floating-point values *)

Module Fp.

(** Conversion of a [double] to [float]: rounding to nearest, ties to even,
    into the binary32 format (24 bits of precision, infinities at exponent
    128), the result carried as the binary64 value it denotes. *)
Definition narrow (x : float) : float :=
  match Prim2SF x with
  | S754_finite s m e => SF2Prim (binary_round 24 128 s m e)
  | _ => x
  end.

(** Conversion of an integer to [double]. *)
Definition of_int (z : Z) : float :=
  if z <? 0 then (- of_uint63 (Uint63.of_Z (- z)))%float
  else of_uint63 (Uint63.of_Z z).

(** [x > y] and [x >= y] on floating-point values: false on NaN. *)
Definition gtb (x y : float) : bool := (y <? x)%float.
Definition geb (x y : float) : bool := (y <=? x)%float.

(** [std::pow(x, 2)] *)
Definition pow2 (x : float) : float := (x * x)%float.

End Fp.

Notation "x >? y" := (Fp.gtb x y) (at level 70, no associativity) : float_scope.
Notation "x >=? y" := (Fp.geb x y) (at level 70, no associativity) : float_scope.

(** ** Fatal errors *)

Inductive result (A : Type) : Type :=
| Ok (a : A)
| Fatal (msg : string).
Arguments Ok {A} a.
Arguments Fatal {A} msg.

Definition bind {A B : Type} (r : result A) (k : A -> result B) : result B :=
  match r with
  | Ok a => k a
  | Fatal msg => Fatal msg
  end.

Notation "x <-- r ;; k" := (bind r (fun x => k))
  (at level 100, r at next level, right associativity).

Definition value_of {A B : Type} (f : A -> B) (r : result A) : result B :=
  match r with
  | Ok a => Ok (f a)
  | Fatal msg => Fatal msg
  end.

(** ** Histograms filled for QA *)

Module QA.

(** A histogram records the entries it was filled with, latest first. *)
Definition Hist : Type := list (list float).

(** Histogram pointers are keys of the registry that owns the histograms;
    two pointers may name the same histogram. *)
Definition HistPtr : Type := positive.
Definition Registry : Type := gmap positive Hist.

(** [h->Fill(...)] *)
Definition Fill (h : HistPtr) (entry : list float) (reg : Registry) : Registry :=
  <[h := entry :: default [] (reg !! h)]> reg.

End QA.

(** ** Collaborators of the helpers: tracks, calibration tables, RecoDecay *)

(** The accessors of a track that the helpers call. *)
Module Track.
Record t : Type := mk {
  pt : float;
  eta : float;
  p : float;
  isGlobalTrack : Z;
  hasTOF : bool;
  tpcNSigmaPi : float;
  tofNSigmaPi : float;
  tpcNSigmaKa : float;
  tofNSigmaKa : float;
  tpcNSigmaPr : float;
  tofNSigmaPr : float;
  tpcNClsFound : Z;
  tpcInnerParam : float
}.
End Track.

(** The accessors of a photon-conversion candidate. *)
Module Gamma.
Record t : Type := mk {
  eta : float;
  alpha : float;
  qtarm : float;
  v0radius : float;
  psipair : float
}.
End Gamma.

(** An axis of a ROOT histogram, through the two member functions the
    helpers call.  ROOT's [TAxis::FindBin] answers 0 below the first bin
    (underflow), [GetNbins() + 1] at or above the upper edge (overflow) and
    the number of the bin otherwise. *)
Module TAxis.
Record t : Type := mk {
  GetNbins : Z;
  FindBin : float -> Z
}.

(** What the clamping of [getTPCPostCalib] relies on: the axis has a bin
    and [FindBin] never answers a negative number. *)
Definition well_formed (axis : t) : Prop :=
  1 <= GetNbins axis /\ forall x, 0 <= FindBin axis x.

(** An axis with variable bin widths: the lower edge, the inner edges in
    increasing order and the upper edge ([TAxis::FindBin] over [fXbins];
    the binary search counts the edges not above [x]). *)
Definition of_edges (lower : float) (inner : list float) (upper : float) : t :=
  {| GetNbins := Z.of_nat (List.length inner) + 1;
     FindBin := fun x =>
       if (x <? lower)%float then 0
       else if negb (x <? upper)%float then Z.of_nat (List.length inner) + 2
       else 1 + Z.of_nat (List.length (List.filter (fun e => (e <=? x)%float) inner)) |}.
End TAxis.

(** A three-dimensional histogram of calibration values. *)
Module TH3F.
Record t : Type := mk {
  GetXaxis : TAxis.t;
  GetYaxis : TAxis.t;
  GetZaxis : TAxis.t;
  GetBinContent : Z -> Z -> Z -> float
}.
End TH3F.

(** A three-momentum [std::array<float, 3>]. *)
Definition Momentum : Type := (float * float * float)%type.

(** What the helpers use of [Common/Core/RecoDecay.h], which is not part of
    the sources at hand: the invariant mass [m] of a list of momenta under
    a list of mass hypotheses, the table of PDG masses, and the bit
    positions [OriginType::Prompt] and [OriginType::NonPrompt]. *)
Module RecoDecay.
Record t : Type := mk {
  m : list Momentum -> list float -> float;
  getMassPDG : Z -> float;
  Prompt : Z;
  NonPrompt : Z
}.
End RecoDecay.

(** [LabeledArray::get(row, label)] *)
Definition LabeledArray : Type := Z -> string -> float.

(** ** The selection helpers of [HFFilterHelpers.h] *)

Module hffilters.
Import Bits.

(** [enum PIDSpecies] *)
Definition kEl : Z := 0.
Definition kKa : Z := 1.
Definition kPi : Z := 2.
Definition kPr : Z := 3.

(** compute TPC postcalibrated nsigma based on calibration histograms from CCDB *)
Definition getTPCPostCalib (hCalibMean hCalibSigma : TH3F.t) (track : Track.t)
    (pidSpecies : Z) : result float :=
  let tpcNCls := Track.tpcNClsFound track in
  let tpcPin := Track.tpcInnerParam track in
  let eta := Track.eta track in
  tpcNSigma <--
    (if pidSpecies =? kKa then Ok (Track.tpcNSigmaKa track)
     else if pidSpecies =? kPi then Ok (Track.tpcNSigmaPi track)
     else if pidSpecies =? kPr then Ok (Track.tpcNSigmaPr track)
     else Fatal "Wrong PID Species be selected, please check!") ;;
  let binTPCNCls := TAxis.FindBin (TH3F.GetXaxis hCalibMean) (Fp.of_int tpcNCls) in
  let binTPCNCls := if binTPCNCls =? 0 then 1 else binTPCNCls in
  let binTPCNCls := Z.min (TAxis.GetNbins (TH3F.GetXaxis hCalibMean)) binTPCNCls in
  let binPin := TAxis.FindBin (TH3F.GetYaxis hCalibMean) tpcPin in
  let binPin := if binPin =? 0 then 1 else binPin in
  let binPin := Z.min (TAxis.GetNbins (TH3F.GetYaxis hCalibMean)) binPin in
  let binEta := TAxis.FindBin (TH3F.GetZaxis hCalibMean) eta in
  let binEta := if binEta =? 0 then 1 else binEta in
  let binEta := Z.min (TAxis.GetNbins (TH3F.GetZaxis hCalibMean)) binEta in
  let mean := TH3F.GetBinContent hCalibMean binTPCNCls binPin binEta in
  let width := TH3F.GetBinContent hCalibSigma binTPCNCls binPin binEta in
  Ok (Fp.narrow ((tpcNSigma - mean) / width)%float).

(** Basic selection of proton candidates.  The registry of QA histograms
    is threaded through: the helper answers its verdict and the registry
    after its fills.  The unqualified [abs] and [sqrt] of the source are
    taken in their floating-point overloads; the sum of squares is
    computed in [float]. *)
Definition isSelectedProton4Femto (track : Track.t)
    (femtoMinProtonPt femtoMaxNsigmaProton : float)
    (femtoProtonOnlyTOF computeTPCPostCalib : bool)
    (hMapProtonMean hMapProtonSigma : TH3F.t) (activateQA : Z)
    (hProtonTPCPID hProtonTOFPID : QA.HistPtr) (reg : QA.Registry)
    : result (bool * QA.Registry) :=
  if (Track.pt track <? femtoMinProtonPt)%float then Ok (false, reg)
  else if (abs (Track.eta track) >? 0.8)%float then Ok (false, reg)
  else if negb (Track.isGlobalTrack track =? 1) then Ok (false, reg)
  else
    let NSigmaTPC := Track.tpcNSigmaPr track in
    let NSigmaTOF := Track.tofNSigmaPr track in
    NSigmaTPC <--
      (if computeTPCPostCalib
       then getTPCPostCalib hMapProtonMean hMapProtonSigma track kPr
       else Ok NSigmaTPC) ;;
    let NSigma :=
      if femtoProtonOnlyTOF then abs NSigmaTOF
      else Fp.narrow (PrimFloat.sqrt
             (Fp.narrow (Fp.narrow (NSigmaTPC * NSigmaTPC)
                         + Fp.narrow (NSigmaTOF * NSigmaTOF))%float)) in
    if (NSigma >? femtoMaxNsigmaProton)%float then Ok (false, reg)
    else
      let reg :=
        if activateQA >? 1
        then QA.Fill hProtonTOFPID [Track.p track; NSigmaTOF]
               (QA.Fill hProtonTPCPID [Track.p track; NSigmaTPC] reg)
        else reg in
      Ok (true, reg).

(** Basic selection of proton candidates for Lc *)
Definition isSelectedProton4CharmBaryons (track : Track.t)
    (nsigmaTPCProtonLc nsigmaTOFProtonLc : float) (computeTPCPostCalib : bool)
    (hMapProtonMean hMapProtonSigma : TH3F.t) : result bool :=
  let NSigmaTPC := Track.tpcNSigmaPr track in
  let NSigmaTOF := Track.tofNSigmaPr track in
  NSigmaTPC <--
    (if computeTPCPostCalib
     then getTPCPostCalib hMapProtonMean hMapProtonSigma track kPr
     else Ok NSigmaTPC) ;;
  if (abs NSigmaTPC >? nsigmaTPCProtonLc)%float then Ok false
  else if Track.hasTOF track && (abs NSigmaTOF >? nsigmaTOFProtonLc)%float then Ok false
  else Ok true.

(** Basic selection of kaon candidates for charm candidates.  The source
    notes at the call of [getTPCPostCalib]: "use pion correction map for
    kaon for the moment". *)
Definition isSelectedKaon4Charm3Prong (track : Track.t)
    (nsigmaTPCKaon3Prong nsigmaTOFKaon3Prong : float) (computeTPCPostCalib : bool)
    (hMapPionMean hMapPionSigma : TH3F.t) : result bool :=
  let NSigmaTPC := Track.tpcNSigmaKa track in
  let NSigmaTOF := Track.tofNSigmaKa track in
  NSigmaTPC <--
    (if computeTPCPostCalib
     then getTPCPostCalib hMapPionMean hMapPionSigma track kKa
     else Ok NSigmaTPC) ;;
  if (abs NSigmaTPC >? nsigmaTPCKaon3Prong)%float then Ok false
  else if Track.hasTOF track && (abs NSigmaTOF >? nsigmaTOFKaon3Prong)%float then Ok false
  else Ok true.

Section WithRecoDecay.
Variable RD : RecoDecay.t.

(** [static const float massX = RecoDecay::getMassPDG(code)] *)
Definition massPi : float := Fp.narrow (RecoDecay.getMassPDG RD 211).
Definition massK : float := Fp.narrow (RecoDecay.getMassPDG RD 321).
Definition massProton : float := Fp.narrow (RecoDecay.getMassPDG RD 2212).
Definition massD0 : float := Fp.narrow (RecoDecay.getMassPDG RD 421).
Definition massDPlus : float := Fp.narrow (RecoDecay.getMassPDG RD 411).
Definition massDs : float := Fp.narrow (RecoDecay.getMassPDG RD 431).
Definition massLc : float := Fp.narrow (RecoDecay.getMassPDG RD 4122).
Definition massXic : float := Fp.narrow (RecoDecay.getMassPDG RD 4232).

(** Mass selection of D0 candidates to build Bplus candidates.
    \return 1 for D0, 2 for D0bar, 3 for both *)
Definition isSelectedD0InMassRange (pTrackPos pTrackNeg : Momentum) (ptD : float)
    (isSelected : Z) (deltaMassCharmHadronForBeauty : float) (activateQA : Z)
    (hMassVsPt : QA.HistPtr) (reg : QA.Registry) : Z * QA.Registry :=
  let retValue := 0 in
  let '(retValue, reg) :=
    if TESTBIT isSelected 0 then
      let invMassD0 := RecoDecay.m RD [pTrackPos; pTrackNeg] [massPi; massK] in
      let reg :=
        if negb (activateQA =? 0) then QA.Fill hMassVsPt [ptD; invMassD0] reg else reg in
      let retValue :=
        if (abs (invMassD0 - massD0) <? deltaMassCharmHadronForBeauty)%float
        then int8_t (Z.lor retValue (BIT 0))
        else retValue in
      (retValue, reg)
    else (retValue, reg) in
  let '(retValue, reg) :=
    if TESTBIT isSelected 1 then
      let invMassD0bar := RecoDecay.m RD [pTrackPos; pTrackNeg] [massK; massPi] in
      let reg :=
        if negb (activateQA =? 0) then QA.Fill hMassVsPt [ptD; invMassD0bar] reg else reg in
      let retValue :=
        if (abs (invMassD0bar - massD0) <? deltaMassCharmHadronForBeauty)%float
        then int8_t (Z.lor retValue (BIT 1))
        else retValue in
      (retValue, reg)
    else (retValue, reg) in
  (retValue, reg).

(** Mass selection of D+ candidates to build B0 candidates.
    \return BIT(0) (==1) for D+, 0 otherwise *)
Definition isSelectedDplusInMassRange
    (pTrackSameChargeFirst pTrackSameChargeSecond pTrackOppositeCharge : Momentum)
    (ptD deltaMassCharmHadronForBeauty : float) (activateQA : Z)
    (hMassVsPt : QA.HistPtr) (reg : QA.Registry) : Z * QA.Registry :=
  let invMassDplus :=
    RecoDecay.m RD [pTrackSameChargeFirst; pTrackSameChargeSecond; pTrackOppositeCharge]
      [massPi; massPi; massK] in
  let reg :=
    if negb (activateQA =? 0) then QA.Fill hMassVsPt [ptD; invMassDplus] reg else reg in
  if (abs (invMassDplus - massDPlus) >? deltaMassCharmHadronForBeauty)%float
  then (0, reg)
  else (int8_t (BIT 0), reg).

(** Mass selection of of Ds candidates to build Bs candidates.
    \return BIT(0) for KKpi, BIT(1) for piKK *)
Definition isSelectedDsInMassRange
    (pTrackSameChargeFirst pTrackSameChargeSecond pTrackOppositeCharge : Momentum)
    (ptD : float) (isSelected : Z) (deltaMassCharmHadronForBeauty : float)
    (activateQA : Z) (hMassVsPt : QA.HistPtr) (reg : QA.Registry)
    : Z * QA.Registry :=
  let retValue := 0 in
  let '(retValue, reg) :=
    if TESTBIT isSelected 0 then
      let invMassDsToKKPi := RecoDecay.m RD [pTrackSameChargeFirst; pTrackOppositeCharge; pTrackSameChargeSecond] [massK; massK; massPi] in
      let reg :=
        if negb (activateQA =? 0) then QA.Fill hMassVsPt [ptD; invMassDsToKKPi] reg else reg in
      let retValue :=
        if (abs (invMassDsToKKPi - massDs) <? deltaMassCharmHadronForBeauty)%float
        then int8_t (Z.lor retValue (BIT 0))
        else retValue in
      (retValue, reg)
    else (retValue, reg) in
  let '(retValue, reg) :=
    if TESTBIT isSelected 1 then
      let invMassDsToPiKK := RecoDecay.m RD [pTrackSameChargeFirst; pTrackOppositeCharge; pTrackSameChargeSecond] [massPi; massK; massK] in
      let reg :=
        if negb (activateQA =? 0) then QA.Fill hMassVsPt [ptD; invMassDsToPiKK] reg else reg in
      let retValue :=
        if (abs (invMassDsToPiKK - massDs) <? deltaMassCharmHadronForBeauty)%float
        then int8_t (Z.lor retValue (BIT 1))
        else retValue in
      (retValue, reg)
    else (retValue, reg) in
  (retValue, reg).

(** Mass selection of Lc candidates to build Lb candidates.
    \return BIT(0) for pKpi with mass cut, BIT(1) for piKp with mass cut *)
Definition isSelectedLcInMassRange
    (pTrackSameChargeFirst pTrackSameChargeSecond pTrackOppositeCharge : Momentum)
    (ptLc : float) (isSelected : Z) (deltaMassCharmHadronForBeauty : float)
    (activateQA : Z) (hMassVsPt : QA.HistPtr) (reg : QA.Registry)
    : Z * QA.Registry :=
  let retValue := 0 in
  let '(retValue, reg) :=
    if TESTBIT isSelected 0 then
      let invMassLcToPKPi := RecoDecay.m RD [pTrackSameChargeFirst; pTrackOppositeCharge; pTrackSameChargeSecond] [massProton; massK; massPi] in
      let reg :=
        if negb (activateQA =? 0) then QA.Fill hMassVsPt [ptLc; invMassLcToPKPi] reg else reg in
      let retValue :=
        if (abs (invMassLcToPKPi - massLc) <? deltaMassCharmHadronForBeauty)%float
        then int8_t (Z.lor retValue (BIT 0))
        else retValue in
      (retValue, reg)
    else (retValue, reg) in
  let '(retValue, reg) :=
    if TESTBIT isSelected 1 then
      let invMassLcToPiKP := RecoDecay.m RD [pTrackSameChargeFirst; pTrackOppositeCharge; pTrackSameChargeSecond] [massPi; massK; massProton] in
      let reg :=
        if negb (activateQA =? 0) then QA.Fill hMassVsPt [ptLc; invMassLcToPiKP] reg else reg in
      let retValue :=
        if (abs (invMassLcToPiKP - massLc) <? deltaMassCharmHadronForBeauty)%float
        then int8_t (Z.lor retValue (BIT 1))
        else retValue in
      (retValue, reg)
    else (retValue, reg) in
  (retValue, reg).

(** Mass selection of Xic candidates to build Lb candidates.
    \return BIT(0) for pKpi with mass cut, BIT(1) for piKp with mass cut *)
Definition isSelectedXicInMassRange
    (pTrackSameChargeFirst pTrackSameChargeSecond pTrackOppositeCharge : Momentum)
    (ptXic : float) (isSelected : Z) (deltaMassCharmHadronForBeauty : float)
    (activateQA : Z) (hMassVsPt : QA.HistPtr) (reg : QA.Registry)
    : Z * QA.Registry :=
  let retValue := 0 in
  let '(retValue, reg) :=
    if TESTBIT isSelected 0 then
      let invMassXicToPKPi := RecoDecay.m RD [pTrackSameChargeFirst; pTrackOppositeCharge; pTrackSameChargeSecond] [massProton; massK; massPi] in
      let reg :=
        if negb (activateQA =? 0) then QA.Fill hMassVsPt [ptXic; invMassXicToPKPi] reg else reg in
      let retValue :=
        if (abs (invMassXicToPKPi - massXic) <? deltaMassCharmHadronForBeauty)%float
        then int8_t (Z.lor retValue (BIT 0))
        else retValue in
      (retValue, reg)
    else (retValue, reg) in
  let '(retValue, reg) :=
    if TESTBIT isSelected 1 then
      let invMassXicToPiKP := RecoDecay.m RD [pTrackSameChargeFirst; pTrackOppositeCharge; pTrackSameChargeSecond] [massPi; massK; massProton] in
      let reg :=
        if negb (activateQA =? 0) then QA.Fill hMassVsPt [ptXic; invMassXicToPiKP] reg else reg in
      let retValue :=
        if (abs (invMassXicToPiKP - massXic) <? deltaMassCharmHadronForBeauty)%float
        then int8_t (Z.lor retValue (BIT 1))
        else retValue in
      (retValue, reg)
    else (retValue, reg) in
  (retValue, reg).

(** Selection on the three BDT output scores.
    \return 0 if rejected, otherwise bitmap with BIT(RecoDecay::OriginType::Prompt)
    and/or BIT(RecoDecay::OriginType::NonPrompt) on *)
Definition isBDTSelected (scores : list float) (thresholdBDTScores : LabeledArray) : Z :=
  let retValue := 0 in
  if (Z.of_nat (List.length scores) <? 3) then retValue
  else if (nth 0 scores nan >? thresholdBDTScores 0%Z "BDTbkg"%string)%float then retValue
  else
    let retValue :=
      if (nth 1 scores nan >? thresholdBDTScores 0%Z "BDTprompt"%string)%float
      then int8_t (Z.lor retValue (BIT (RecoDecay.Prompt RD)))
      else retValue in
    let retValue :=
      if (nth 2 scores nan >? thresholdBDTScores 0%Z "BDTnonprompt"%string)%float
      then int8_t (Z.lor retValue (BIT (RecoDecay.NonPrompt RD)))
      else retValue in
    retValue.

End WithRecoDecay.

(** Basic selection of gamma candidates *)
Definition isSelectedGamma (gamma : Gamma.t) (gammaCosinePA : float) (activateQA : Z)
    (hGammaSelected hGammaEtaBefore hGammaEtaAfter : QA.HistPtr)
    (hGammaArmPodBefore hGammaArmPodAfter : QA.HistPtr) (reg : QA.Registry)
    : bool * QA.Registry :=
  let reg :=
    if (activateQA >? 1)%Z
    then QA.Fill hGammaArmPodBefore [Gamma.alpha gamma; Gamma.qtarm gamma]
           (QA.Fill hGammaEtaBefore [Gamma.eta gamma]
              (QA.Fill hGammaSelected [0%float] reg))
    else reg in
  if (abs (Gamma.eta gamma) >? 0.8)%float then
    (false, if (activateQA >? 1)%Z then QA.Fill hGammaSelected [1%float] reg else reg)
  else if ((Gamma.v0radius gamma <? 0) || (Gamma.v0radius gamma >? 180))%float then
    (false, if (activateQA >? 1)%Z then QA.Fill hGammaSelected [2%float] reg else reg)
  else if (Fp.pow2 (Gamma.alpha gamma / 0.95) + Fp.pow2 (Gamma.qtarm gamma / 0.05) >=? 1)%float then
    (false, if (activateQA >? 1)%Z then QA.Fill hGammaSelected [3%float] reg else reg)
  else if (abs (Gamma.psipair gamma) >? 0.1)%float then
    (false, if (activateQA >? 1)%Z then QA.Fill hGammaSelected [4%float] reg else reg)
  else if (gammaCosinePA <? 0.85)%float then
    (false, if (activateQA >? 1)%Z then QA.Fill hGammaSelected [5%float] reg else reg)
  else
    let reg :=
      if (activateQA >? 1)%Z
      then QA.Fill hGammaArmPodAfter [Gamma.alpha gamma; Gamma.qtarm gamma]
             (QA.Fill hGammaEtaAfter [Gamma.eta gamma]
                (QA.Fill hGammaSelected [6%float] reg))
      else reg in
    (true, reg).

(** An ONNX session, through [Run]: the data of the output tensor of index
    1, or [None] when the inference runtime throws an [Ort::Exception]. *)
Definition Session : Type := list float -> option (list float).

(** Prediction of the three output scores.  The scores start from
    [{-1., 2., 2.}]; an exception of the runtime is caught and logged, and
    the scores are returned as they are.  The assertion on the number of
    elements of the output tensor ends the run when it fails. *)
Definition PredictONNX (inputFeatures : list float) (session : Session)
    : result (list float) :=
  let scores := [(-1)%float; 2%float; 2%float] in
  match session inputFeatures with
  | Some data =>
      if negb (Z.of_nat (List.length data) =? 3)
      then Fatal "Assertion `typeInfo.GetElementCount() == 3' failed."
      else Ok [nth 0 data nan; nth 1 data nan; nth 2 data nan]
  | None => Ok scores
  end.

(** The loops of [computeNumberOfCandidates], innermost first.  The inner
    loop over the second candidate's daughters stops at the first match
    ([break]); the loop over the first candidate's daughters goes on. *)
Fixpoint scanSecond (first : Z) (second : list Z) (hasOverlap : bool) : bool :=
  match second with
  | [] => hasOverlap
  | idx :: rest => if first =? idx then true else scanSecond first rest hasOverlap
  end.

Definition scanFirst (first second : list Z) : bool :=
  fold_left (fun hasOverlap idx => scanSecond idx second hasOverlap) first false.

Definition countIndependent (indices : list (list Z)) (iCand : nat) : Z :=
  fold_left
    (fun nIndependent iCandSecond =>
       if (iCand =? iCandSecond)%nat then nIndependent
       else
         let hasOverlap := scanFirst (nth iCand indices []) (nth iCandSecond indices []) in
         if negb hasOverlap then nIndependent + 1 else nIndependent)
    (seq 0 (List.length indices)) 0.

(** [std::sort] on a vector of [int] *)
Fixpoint insert_sorted (x : Z) (l : list Z) : list Z :=
  match l with
  | [] => [x]
  | y :: rest => if x <=? y then x :: l else y :: insert_sorted x rest
  end.

Definition sort (l : list Z) : list Z := fold_right insert_sorted [] l.

(** Computation of the number of candidates in an event that do not share daughter tracks.
    \return 0 or 1 in case of less than 2 independent candidates in a single event, 2 otherwise *)
Definition computeNumberOfCandidates (indices : list (list Z)) : Z :=
  if (List.length indices <? 2)%nat then Z.of_nat (List.length indices)
  else
    let numIndependentCand :=
      fold_left
        (fun numIndependentCand iCand =>
           numIndependentCand ++ [countIndependent indices iCand])
        (seq 0 (List.length indices)) [] in
    let numIndependentCand := sort numIndependentCand in
    if List.last numIndependentCand 0 =? 0 then List.last numIndependentCand 0
    else 2.

End hffilters.

(** ** Femtoscopy kinematics

    [computeRelativeMomentum] is arithmetic on four-vectors; the property
    it is meant to have (independence of the orientation of the frame) is
    one of exact arithmetic, so this helper is embedded over the real
    numbers.  [ROOTMath] gives the operations of ROOT's GenVector package
    that it calls, as ROOT defines them.  A division by zero, which ROOT
    reports as an error and which no physical input leads to, has the
    value that the division of the real numbers gives it here. *)

Module ROOTMath.
#[local] Open Scope R_scope.

(** [ROOT::Math::PxPyPzMVector]: a four-vector stored as momentum and mass. *)
Record PxPyPzMVector : Type := mkPxPyPzM { fX : R; fY : R; fZ : R; fM : R }.

Definition P2 (v : PxPyPzMVector) : R := fX v * fX v + fY v * fY v + fZ v * fZ v.
Definition P (v : PxPyPzMVector) : R := sqrt (P2 v).

(** [M2()]: the squared mass, negative for a negative stored mass. *)
Definition M2 (v : PxPyPzMVector) : R :=
  if Rle_dec 0 (fM v) then fM v * fM v else - (fM v * fM v).

(** [E2()] and [E()]: the energy from E^2 = p^2 + m^2, never below zero. *)
Definition E2 (v : PxPyPzMVector) : R :=
  let e2 := P2 v + M2 v in if Rlt_dec 0 e2 then e2 else 0.
Definition E (v : PxPyPzMVector) : R := sqrt (E2 v).

(** The constructor from (px, py, pz, m): a negative mass whose square
    exceeds p^2 is replaced by the closest physical value. *)
Definition PxPyPzMVector_new (px py pz m : R) : PxPyPzMVector :=
  let v := mkPxPyPzM px py pz m in
  if Rle_dec 0 m then v
  else if Rlt_dec (P2 v - m * m) 0 then mkPxPyPzM px py pz (- P v)
  else v.

(** [SetXYZT]: the mass is recomputed from the energy, negative when the
    vector is space-like. *)
Definition SetXYZT (x y z t : R) : PxPyPzMVector :=
  let mm := t * t - x * x - y * y - z * z in
  mkPxPyPzM x y z (if Rle_dec 0 mm then sqrt mm else - sqrt (- mm)).

(** [operator+] and [operator-] *)
Definition add (a b : PxPyPzMVector) : PxPyPzMVector :=
  SetXYZT (fX a + fX b) (fY a + fY b) (fZ a + fZ b) (E a + E b).
Definition sub (a b : PxPyPzMVector) : PxPyPzMVector :=
  SetXYZT (fX a - fX b) (fY a - fY b) (fZ a - fZ b) (E a - E b).

(** [BoostToCM()]: the velocity of the boost into the rest frame, [-p/E];
    the null vector for the null four-vector. *)
Definition BoostToCM (v : PxPyPzMVector) : R * R * R :=
  if Req_dec_T (E v) 0 then
    if Req_dec_T (P2 v) 0 then (0, 0, 0)
    else (- fX v / E v, - fY v / E v, - fZ v / E v)
  else (- fX v / E v, - fY v / E v, - fZ v / E v).

(** [ROOT::Math::Boost]: the symmetric 4x4 matrix of a boost. *)
Record Boost : Type := mkBoost {
  kXX : R; kXY : R; kXZ : R; kXT : R;
  kYY : R; kYZ : R; kYT : R;
  kZZ : R; kZT : R;
  kTT : R
}.

(** [Boost::SetComponents]: no boost is set for a speed of c or more. *)
Definition Boost_new (beta : R * R * R) : option Boost :=
  let '(betaX, betaY, betaZ) := beta in
  let bp2 := betaX * betaX + betaY * betaY + betaZ * betaZ in
  if Rle_dec 1 bp2 then None
  else
    let gamma := 1 / sqrt (1 - bp2) in
    let bgamma := gamma * gamma / (1 + gamma) in
    Some {| kXX := 1 + bgamma * betaX * betaX;
            kYY := 1 + bgamma * betaY * betaY;
            kZZ := 1 + bgamma * betaZ * betaZ;
            kXY := bgamma * betaX * betaY;
            kXZ := bgamma * betaX * betaZ;
            kYZ := bgamma * betaY * betaZ;
            kXT := gamma * betaX;
            kYT := gamma * betaY;
            kZT := gamma * betaZ;
            kTT := gamma |}.

(** [Boost::operator()]: the matrix applied to (px, py, pz, E). *)
Definition Boost_apply (b : Boost) (v : PxPyPzMVector) : PxPyPzMVector :=
  let x := fX v in
  let y := fY v in
  let z := fZ v in
  let t := E v in
  SetXYZT (kXX b * x + kXY b * y + kXZ b * z + kXT b * t)
          (kXY b * x + kYY b * y + kYZ b * z + kYT b * t)
          (kXZ b * x + kYZ b * y + kZZ b * z + kZT b * t)
          (kXT b * x + kYT b * y + kZT b * z + kTT b * t).

End ROOTMath.

Module femto.
Import ROOTMath.
#[local] Open Scope R_scope.

(** A three-momentum over the reals. *)
Definition Vec3 : Type := (R * R * R)%type.

(** Computation of the relative momentum between particle pairs.
    [track] gives (px, py, pz) of the track, [massProton] is the constant
    of the helpers' header.  \return relative momentum of pair; [None]
    where ROOT sets no boost. *)
Definition computeRelativeMomentum (massProton : R) (track : Vec3)
    (CharmCandMomentum : Vec3) (CharmMass : R) : option R :=
  let '(px, py, pz) := track in
  let '(c0, c1, c2) := CharmCandMomentum in
  let part1 := PxPyPzMVector_new px py pz massProton in
  let part2 := PxPyPzMVector_new c0 c1 c2 CharmMass in
  let trackSum := add part1 part2 in
  match Boost_new (BoostToCM trackSum) with
  | None => None
  | Some boostv12 =>
      let part1CM := Boost_apply boostv12 part1 in
      let part2CM := Boost_apply boostv12 part2 in
      let trackRelK := sub part1CM part2CM in
      let kStar := 0.5 * P trackRelK in
      Some kStar
  end.

(** A linear map of three-space, as its matrix, and what makes it a
    rotation: orthogonal with determinant one. *)
Record Matrix3 : Type := mkMatrix3 {
  r11 : R; r12 : R; r13 : R;
  r21 : R; r22 : R; r23 : R;
  r31 : R; r32 : R; r33 : R
}.

Definition apply (A : Matrix3) (v : Vec3) : Vec3 :=
  let '(x, y, z) := v in
  (r11 A * x + r12 A * y + r13 A * z,
   r21 A * x + r22 A * y + r23 A * z,
   r31 A * x + r32 A * y + r33 A * z).

Definition det (A : Matrix3) : R :=
  r11 A * (r22 A * r33 A - r23 A * r32 A)
  - r12 A * (r21 A * r33 A - r23 A * r31 A)
  + r13 A * (r21 A * r32 A - r22 A * r31 A).

Definition is_rotation (A : Matrix3) : Prop :=
  r11 A * r11 A + r21 A * r21 A + r31 A * r31 A = 1 /\
  r12 A * r12 A + r22 A * r22 A + r32 A * r32 A = 1 /\
  r13 A * r13 A + r23 A * r23 A + r33 A * r33 A = 1 /\
  r11 A * r12 A + r21 A * r22 A + r31 A * r32 A = 0 /\
  r11 A * r13 A + r21 A * r23 A + r31 A * r33 A = 0 /\
  r12 A * r13 A + r22 A * r23 A + r32 A * r33 A = 0 /\
  det A = 1.

End femto.

(** ** The Dalitz pairing task of [DalitzSelection.cxx] *)

(** A row of the event table: its index and its other columns. *)
Module MyEvent.
Record t : Type := mk {
  globalIndex : Z;
  columns : list float
}.
End MyEvent.

(** A row of the barrel-track table: its index, the index of its collision,
    the sign of its charge and its other columns. *)
Module MyBarrelTrack.
Record t : Type := mk {
  globalIndex : Z;
  collisionId : Z;
  sign : Z;
  columns : list float
}.
End MyBarrelTrack.

(** What the task uses of [PWGDQ/Core/VarManager.h] and
    [PWGDQ/Core/AnalysisCompositeCut.h], which are not part of the sources
    at hand: the array [fgValues] of computed variables, the functions that
    fill it, and cuts that decide on its contents. *)
Module VarManager.
Record t (Values : Type) : Type := mk {
  ResetValues : Values -> Values;
  FillEvent : MyEvent.t -> Values -> Values;
  FillTrack : MyBarrelTrack.t -> Values -> Values;
  FillPair : MyBarrelTrack.t -> MyBarrelTrack.t -> Values -> Values
}.
Arguments ResetValues {Values} _ _.
Arguments FillEvent {Values} _ _ _.
Arguments FillTrack {Values} _ _ _.
Arguments FillPair {Values} _ _ _ _.
End VarManager.

Module AnalysisCompositeCut.
Record t (Values : Type) : Type := mk {
  GetName : string;
  IsSelected : Values -> bool
}.
Arguments GetName {Values} _.
Arguments IsSelected {Values} _ _.
End AnalysisCompositeCut.

Module dalitzPairing.
Import Bits.

(** [m[k]] on a [std::map<int, uint8_t>]: the value at [k], a missing key
    being inserted with the value 0.  The keys are global indices of
    tracks, taken within the range of [int]. *)
Definition subscript (m : gmap Z Z) (k : Z) : Z * gmap Z Z :=
  match m !! k with
  | Some v => (v, m)
  | None => (0, <[k := 0]> m)
  end.

(** [o2::soa::combinations(CombinationsStrictlyUpperIndexPolicy(a, b))]:
    the pairs of a row of [a] and a row of [b] at a strictly larger
    position. *)
Fixpoint combinations {A : Type} (tracks1 tracks2 : list A) : list (A * A) :=
  match tracks1, tracks2 with
  | track1 :: rest1, _ :: rest2 =>
      List.map (pair track1) rest2 ++ combinations rest1 rest2
  | _, _ => []
  end.

(** [table.sliceBy(perCollision, index)] *)
Definition sliceBy (tracks : list MyBarrelTrack.t) (index : Z) : list MyBarrelTrack.t :=
  List.filter (fun track => MyBarrelTrack.collisionId track =? index) tracks.

Section Task.
Context {Values : Type}.
Variable VM : VarManager.t Values.

(** The members that [init] sets from the configuration. *)
Variable fEventCut : AnalysisCompositeCut.t Values.
Variable fTrackCuts : list (AnalysisCompositeCut.t Values).
Variable fPairCuts : list (AnalysisCompositeCut.t Values).
Variable fQA : bool.

(** The members that processing changes, with [VarManager::fgValues], the
    classes filled in the histogram manager and the fills of the statistics
    histogram. *)
Record State : Type := mkState {
  fTrackmap : gmap Z Z;
  fDalitzmap : gmap Z Z;
  fgValues : Values;
  fHistMan : list (string * Values);
  fStatsList : list Z
}.

(** The loop over the track cuts of [runTrackSelection], from the cut of
    index [i] on. *)
Fixpoint selectTrack (cuts : list (AnalysisCompositeCut.t Values)) (i : Z)
    (values : Values) (filterMap : Z) : Z :=
  match cuts with
  | [] => filterMap
  | cut :: rest =>
      let filterMap :=
        if AnalysisCompositeCut.IsSelected cut values
        then uint8_t (Z.lor filterMap (Z.shiftl (uint8_t 1) i))
        else filterMap in
      selectTrack rest (i + 1) values filterMap
  end.

Definition runTrackSelection (tracksBarrel : list MyBarrelTrack.t) (st : State) : State :=
  fold_left
    (fun st track =>
       let filterMap := uint8_t 0 in
       let values := VarManager.FillTrack VM track (fgValues st) in
       let filterMap := selectTrack fTrackCuts 0 values filterMap in
       let trackmap :=
         if negb (filterMap =? 0)
         then <[MyBarrelTrack.globalIndex track := filterMap]> (fTrackmap st)
         else fTrackmap st in
       mkState trackmap (fDalitzmap st) values (fHistMan st) (fStatsList st))
    tracksBarrel st.

(** [m[k] |= bits] on a [std::map<int, uint8_t>] *)
Definition or_assign (m : gmap Z Z) (k : Z) (bits : Z) : gmap Z Z :=
  let '(v, m) := subscript m k in
  <[k := uint8_t (Z.lor v bits)]> m.

(** The name of the track cut that goes with the pair cut of index [icut]. *)
Definition trackCutName (icut : Z) : string :=
  match fTrackCuts !! Z.to_nat icut with
  | Some cut => AnalysisCompositeCut.GetName cut
  | None => ""
  end.

(** The loop over the pair cuts for one pair of tracks, from the cut of
    index [icut] on. *)
Fixpoint selectPair (cuts : list (AnalysisCompositeCut.t Values)) (icut : Z)
    (track1 track2 : MyBarrelTrack.t) (twoTracksFilterMap : Z) (st : State) : State :=
  match cuts with
  | [] => st
  | pairCut :: rest =>
      let st :=
        if Z.land twoTracksFilterMap (Z.shiftl (uint8_t 1) icut) =? 0 then st
        else if AnalysisCompositeCut.IsSelected pairCut (fgValues st) then
          let dalitzmap :=
            or_assign (fDalitzmap st) (MyBarrelTrack.globalIndex track1)
              (Z.shiftl (uint8_t 1) icut) in
          let dalitzmap :=
            or_assign dalitzmap (MyBarrelTrack.globalIndex track2)
              (Z.shiftl (uint8_t 1) icut) in
          let histman :=
            if fQA
            then (("Pair_" ++ trackCutName icut ++ "_"
                   ++ AnalysisCompositeCut.GetName pairCut)%string, fgValues st)
                 :: fHistMan st
            else fHistMan st in
          mkState (fTrackmap st) dalitzmap (fgValues st) histman (fStatsList st)
        else st in
      selectPair rest (icut + 1) track1 track2 twoTracksFilterMap st
  end.

(** The body of the loop over the pairs of tracks. *)
Definition pairTracks (st : State) (pair : MyBarrelTrack.t * MyBarrelTrack.t) : State :=
  let '(track1, track2) := pair in
  if MyBarrelTrack.sign track1 * MyBarrelTrack.sign track2 >? 0 then st
  else
    let '(map1, trackmap) := subscript (fTrackmap st) (MyBarrelTrack.globalIndex track1) in
    let '(map2, trackmap) := subscript trackmap (MyBarrelTrack.globalIndex track2) in
    let twoTracksFilterMap := uint8_t (Z.land map1 map2) in
    let st := mkState trackmap (fDalitzmap st) (fgValues st) (fHistMan st) (fStatsList st) in
    if twoTracksFilterMap =? 0 then st
    else
      let st :=
        mkState (fTrackmap st) (fDalitzmap st)
          (VarManager.FillPair VM track1 track2 (fgValues st))
          (fHistMan st) (fStatsList st) in
      selectPair fPairCuts 0 track1 track2 twoTracksFilterMap st.

(** The loop over the pair cuts that fills the statistics of one track. *)
Fixpoint fillTrackHists (cuts : list (AnalysisCompositeCut.t Values)) (icut : Z)
    (filterMap : Z) (st : State) : State :=
  match cuts with
  | [] => st
  | pairCut :: rest =>
      let st :=
        if negb (Z.land filterMap (Z.shiftl (uint8_t 1) icut) =? 0)
        then mkState (fTrackmap st) (fDalitzmap st) (fgValues st)
               ((("TrackBarrel_" ++ trackCutName icut ++ "_"
                  ++ AnalysisCompositeCut.GetName pairCut)%string, fgValues st)
                :: fHistMan st)
               (icut :: fStatsList st)
        else st in
      fillTrackHists rest (icut + 1) filterMap st
  end.

Definition runDalitzPairing (tracks1 tracks2 : list MyBarrelTrack.t) (st : State) : State :=
  let st := fold_left pairTracks (combinations tracks1 tracks2) st in
  if fQA then
    fold_left
      (fun st track =>
         let '(filterMap, dalitzmap) :=
           subscript (fDalitzmap st) (MyBarrelTrack.globalIndex track) in
         let st := mkState (fTrackmap st) dalitzmap (fgValues st) (fHistMan st) (fStatsList st) in
         if filterMap =? 0 then st
         else
           let st :=
             mkState (fTrackmap st) (fDalitzmap st)
               (VarManager.FillTrack VM track (fgValues st))
               (fHistMan st) (fStatsList st) in
           fillTrackHists fPairCuts 0 filterMap st)
      tracks1 st
  else st.

(** The body of the loop over the collisions. *)
Definition processCollision (filteredTracks : list MyBarrelTrack.t) (st : State)
    (collision : MyEvent.t) : State :=
  let values := VarManager.ResetValues VM (fgValues st) in
  let values := VarManager.FillEvent VM collision values in
  let st := mkState ∅ (fDalitzmap st) values (fHistMan st) (fStatsList st) in
  let isEventSelected := AnalysisCompositeCut.IsSelected fEventCut (fgValues st) in
  if isEventSelected then
    let groupedFilteredTracks := sliceBy filteredTracks (MyEvent.globalIndex collision) in
    let st := runTrackSelection groupedFilteredTracks st in
    runDalitzPairing groupedFilteredTracks groupedFilteredTracks st
  else st.

(** [processFullTracks]: the rows written to the table [dalitzbits], one
    for each track, and the state the task is left in. *)
Definition processFullTracks (collisions : list MyEvent.t)
    (filteredTracks tracks : list MyBarrelTrack.t) (st : State)
    : list Z * State :=
  let st := mkState (fTrackmap st) ∅ (fgValues st) (fHistMan st) (fStatsList st) in
  let st := fold_left (processCollision filteredTracks) collisions st in
  fold_left
    (fun '(rows, st) track =>
       let '(bits, dalitzmap) :=
         subscript (fDalitzmap st) (MyBarrelTrack.globalIndex track) in
       (rows ++ [bits],
        mkState (fTrackmap st) dalitzmap (fgValues st) (fHistMan st) (fStatsList st)))
    tracks ([], st).

End Task.
End dalitzPairing.

(** ** Sample data *)

Module Sample.
Import hffilters.

(** [enum OriginType { None = 0, Prompt, NonPrompt }], a constant invariant
    mass and the PDG masses of the particles the helpers name (GeV/c^2). *)
Definition reco : RecoDecay.t :=
  {| RecoDecay.m := fun _ _ => 1.8648%float;
     RecoDecay.getMassPDG := fun code =>
       if code =? 211 then 0.13957%float
       else if code =? 321 then 0.493677%float
       else if code =? 2212 then 0.938272%float
       else if code =? 421 then 1.86484%float
       else 2%float;
     RecoDecay.Prompt := 1;
     RecoDecay.NonPrompt := 2 |}.

(** BDT thresholds of 0.5 on the three scores. *)
Definition thresholds : LabeledArray := fun _ _ => 0.5%float.

(** A session whose runtime throws on every input. *)
Definition failingSession : Session := fun _ => None.

(** A calibration axis with the bins [0,1), [1,2) and [2,3). *)
Definition axis : TAxis.t := TAxis.of_edges 0%float [1%float; 2%float] 3%float.

(** Calibration tables of constant mean 0.5 and constant width 2. *)
Definition hMean : TH3F.t := TH3F.mk axis axis axis (fun _ _ _ => 0.5%float).
Definition hSigma : TH3F.t := TH3F.mk axis axis axis (fun _ _ _ => 2%float).

(** A track without TOF measurement, below the first bin in cluster count
    and above the last bin in momentum. *)
Definition track : Track.t :=
  {| Track.pt := 1.5%float;
     Track.eta := 0.25%float;
     Track.p := 1.75%float;
     Track.isGlobalTrack := 1;
     Track.hasTOF := false;
     Track.tpcNSigmaPi := 3%float;
     Track.tofNSigmaPi := 0%float;
     Track.tpcNSigmaKa := 2.5%float;
     Track.tofNSigmaKa := 0%float;
     Track.tpcNSigmaPr := 1.5%float;
     Track.tofNSigmaPr := 40%float;
     Track.tpcNClsFound := -1;
     Track.tpcInnerParam := 7%float |}.

(** A quarter turn about the third axis. *)
Definition quarterTurn : femto.Matrix3 :=
  {| femto.r11 := 0%R; femto.r12 := (-1)%R; femto.r13 := 0%R;
     femto.r21 := 1%R; femto.r22 := 0%R; femto.r23 := 0%R;
     femto.r31 := 0%R; femto.r32 := 0%R; femto.r33 := 1%R |}.

(** A collision with four tracks; the track of index 12 fails the track
    cut, the tracks of index 10 and 13 are positive, the two others
    negative.  The variables are the indices of the track or pair filled
    last. *)
Definition dalitzVM : VarManager.t (list Z) :=
  {| VarManager.ResetValues := fun _ => [];
     VarManager.FillEvent := fun _ values => values;
     VarManager.FillTrack := fun track _ => [MyBarrelTrack.globalIndex track];
     VarManager.FillPair := fun track1 track2 _ =>
       [MyBarrelTrack.globalIndex track1; MyBarrelTrack.globalIndex track2] |}.

Definition eventCut : AnalysisCompositeCut.t (list Z) :=
  {| AnalysisCompositeCut.GetName := "eventStandardNoINT7";
     AnalysisCompositeCut.IsSelected := fun _ => true |}.

Definition trackCut : AnalysisCompositeCut.t (list Z) :=
  {| AnalysisCompositeCut.GetName := "electron";
     AnalysisCompositeCut.IsSelected := fun values =>
       match values with
       | [index] => negb (index =? 12)
       | _ => false
       end |}.

Definition pairCut : AnalysisCompositeCut.t (list Z) :=
  {| AnalysisCompositeCut.GetName := "lowMass";
     AnalysisCompositeCut.IsSelected := fun values =>
       match values with
       | [_; _] => true
       | _ => false
       end |}.

Definition collisions : list MyEvent.t := [MyEvent.mk 0 []].

Definition barrelTracks : list MyBarrelTrack.t :=
  [MyBarrelTrack.mk 10 0 1 []; MyBarrelTrack.mk 11 0 (-1) [];
   MyBarrelTrack.mk 12 0 (-1) []; MyBarrelTrack.mk 13 0 1 []].

Definition initial : dalitzPairing.State (Values := list Z) :=
  dalitzPairing.mkState ∅ ∅ [] [] [].

End Sample.

(** ** Notions used to state the properties *)

Module Notions.

(** A threshold in the normal range of a score, from 0 to 1. *)
Definition normal_threshold (t : float) : Prop :=
  (0 <=? t)%float = true /\ (t <=? 1)%float = true.

(** The bin that [getTPCPostCalib] reads on an axis of [nbins] bins when
    [FindBin] answers [found]: the first bin for the underflow, the last
    bin for the overflow, the bin found otherwise. *)
Definition clamped (nbins found bin : Z) : Prop :=
  1 <= bin <= nbins /\
  (found = 0 -> bin = 1) /\
  (nbins < found -> bin = nbins) /\
  (1 <= found <= nbins -> bin = found).

(** The bins of a calibration table proper, underflow and overflow
    excluded. *)
Definition in_range (h : TH3F.t) (i j k : Z) : Prop :=
  1 <= i <= TAxis.GetNbins (TH3F.GetXaxis h) /\
  1 <= j <= TAxis.GetNbins (TH3F.GetYaxis h) /\
  1 <= k <= TAxis.GetNbins (TH3F.GetZaxis h).

(** The raw TPC deviation of a track for a species that has one in
    [getTPCPostCalib]. *)
Definition rawDeviation (track : Track.t) (pidSpecies : Z) : option float :=
  if pidSpecies =? hffilters.kKa then Some (Track.tpcNSigmaKa track)
  else if pidSpecies =? hffilters.kPi then Some (Track.tpcNSigmaPi track)
  else if pidSpecies =? hffilters.kPr then Some (Track.tpcNSigmaPr track)
  else None.

(** Two candidates share a daughter track. *)
Definition shares_daughter (first second : list Z) : Prop :=
  exists idx, In idx first /\ In idx second.

(** Every candidate shares a daughter with every other candidate. *)
Definition all_share (indices : list (list Z)) : Prop :=
  forall iCand iCandSecond first second,
    iCand <> iCandSecond ->
    nth_error indices iCand = Some first ->
    nth_error indices iCandSecond = Some second ->
    shares_daughter first second.

(** Some candidate shares no daughter with some other candidate. *)
Definition some_independent (indices : list (list Z)) : Prop :=
  exists iCand iCandSecond first second,
    iCand <> iCandSecond /\
    nth_error indices iCand = Some first /\
    nth_error indices iCandSecond = Some second /\
    ~ shares_daughter first second.

(** The second candidates that [computeNumberOfCandidates] counts for the
    candidate [iCand]: the other candidates without overlap. *)
Definition counted (indices : list (list Z)) (iCand iCandSecond : nat) : bool :=
  negb (iCand =? iCandSecond)%nat
  && negb (hffilters.scanFirst (nth iCand indices []) (nth iCandSecond indices [])).

(** An ascending list: each element is at most those after it. *)
Inductive ascending : list Z -> Prop :=
| ascending_nil : ascending []
| ascending_cons x l : ascending l -> (forall y, In y l -> x <= y) -> ascending (x :: l).

(** The scalar product of two three-vectors, and a four-vector with its
    momentum turned by a linear map. *)
Definition dot (u v : femto.Vec3) : R :=
  let '(u1, u2, u3) := u in
  let '(v1, v2, v3) := v in
  (u1 * v1 + u2 * v2 + u3 * v3)%R.

Definition momentum (v : ROOTMath.PxPyPzMVector) : femto.Vec3 :=
  (ROOTMath.fX v, ROOTMath.fY v, ROOTMath.fZ v).

Definition turned (A : femto.Matrix3) (v : ROOTMath.PxPyPzMVector)
    : ROOTMath.PxPyPzMVector :=
  let '(x, y, z) := femto.apply A (momentum v) in
  ROOTMath.mkPxPyPzM x y z (ROOTMath.fM v).

End Notions.


(** ** Notions used to state the properties of the Dalitz task *)

Module dalitzNotions.
Import dalitzPairing.

(** The value that [m[k]] reads. *)
Definition at_ (m : gmap Z Z) (k : Z) : Z := default 0 (m !! k).

Section Task.
Context {Values : Type}.
Variable VM : VarManager.t Values.
Variable fTrackCuts : list (AnalysisCompositeCut.t Values).
Variable fPairCuts : list (AnalysisCompositeCut.t Values).

(** The filter map that [runTrackSelection] computes for a track from the
    variables [values] that [fgValues] holds before the track is filled in. *)
Definition filterMapOf (track : MyBarrelTrack.t) (values : Values) : Z :=
  selectTrack fTrackCuts 0 (VarManager.FillTrack VM track values) (Bits.uint8_t 0).

(** The track passes the track cut of index [i], evaluated on the
    variables filled from the track. *)
Definition passesTrackCut (i : Z) (track : MyBarrelTrack.t) : Prop :=
  exists cut values,
    fTrackCuts !! Z.to_nat i = Some cut /\
    AnalysisCompositeCut.IsSelected cut (VarManager.FillTrack VM track values) = true.

(** The pair passes the pair cut of index [i], evaluated on the
    variables filled from the pair. *)
Definition passesPairCut (i : Z) (track1 track2 : MyBarrelTrack.t) : Prop :=
  exists cut values,
    fPairCuts !! Z.to_nat i = Some cut /\
    AnalysisCompositeCut.IsSelected cut (VarManager.FillPair VM track1 track2 values) = true.

(** What sets the Dalitz bit [i] of a track among the tracks [group] of
    a collision: the track and a partner of the group that is not of the
    same sign both passed the track cut [i], and the pair, in the order
    of the table, passed the pair cut [i]. *)
Definition paired (group : list MyBarrelTrack.t) (i : Z) (track : MyBarrelTrack.t) : Prop :=
  exists partner,
    In track group /\ In partner group /\
    ~ (MyBarrelTrack.sign track * MyBarrelTrack.sign partner > 0) /\
    0 <= i < 8 /\
    passesTrackCut i track /\ passesTrackCut i partner /\
    (passesPairCut i track partner \/ passesPairCut i partner track).

(** What [fTrackmap] holds about the tracks [seen]: for each index, zero
    or the filter map of a track of that index. *)
Definition trackmap_of (seen : list MyBarrelTrack.t) (m : gmap Z Z) : Prop :=
  forall idx,
    at_ m idx = 0 \/
    exists track values,
      In track seen /\ MyBarrelTrack.globalIndex track = idx /\
      at_ m idx = filterMapOf track values.

(** What a pair of tracks contributes to the Dalitz bit [j] of the track
    of index [idx], given the track map [m] and the variables [values]. *)
Definition contributes (m : gmap Z Z) (values : Values)
    (pair : MyBarrelTrack.t * MyBarrelTrack.t) (idx j : Z) : Prop :=
  (idx = MyBarrelTrack.globalIndex (fst pair)
   \/ idx = MyBarrelTrack.globalIndex (snd pair)) /\
  ~ (MyBarrelTrack.sign (fst pair) * MyBarrelTrack.sign (snd pair) > 0) /\
  0 <= j < 8 /\
  Z.testbit (at_ m (MyBarrelTrack.globalIndex (fst pair))) j = true /\
  Z.testbit (at_ m (MyBarrelTrack.globalIndex (snd pair))) j = true /\
  exists cut, fPairCuts !! Z.to_nat j = Some cut /\
    AnalysisCompositeCut.IsSelected cut
      (VarManager.FillPair VM (fst pair) (snd pair) values) = true.

(** What the Dalitz map [d] holds after the collisions [processed]: each
    bit of a track is accounted for by a partner in the collision of the
    track, and the bits of a track lie in one filter map of this track. *)
Definition dalitzmap_of (filteredTracks : list MyBarrelTrack.t)
    (processed : list MyEvent.t) (d : gmap Z Z) : Prop :=
  forall idx,
    (forall j, 0 <= j -> Z.testbit (at_ d idx) j = true ->
       exists collision track,
         In collision processed /\
         In track (sliceBy filteredTracks (MyEvent.globalIndex collision)) /\
         MyBarrelTrack.globalIndex track = idx /\
         paired
           (sliceBy filteredTracks (MyEvent.globalIndex collision)) j track) /\
    ((forall j, 0 <= j -> Z.testbit (at_ d idx) j = false) \/
     exists collision track values,
       In collision processed /\
       In track (sliceBy filteredTracks (MyEvent.globalIndex collision)) /\
       MyBarrelTrack.globalIndex track = idx /\
       forall j, 0 <= j -> Z.testbit (at_ d idx) j = true ->
         Z.testbit (filterMapOf track values) j = true).

End Task.
End dalitzNotions.

(** ** Further helpers of [HFFilterHelpers.h]: track and candidate preselection *)

(** A track joined with its distance of closest approach to the primary
    vertex ([aod::TracksDCA]). *)
Module TrackDCA.
Record t : Type := mk {
  track : Track.t;
  dcaXY : float;
  dcaZ : float
}.
End TrackDCA.

Module hfpreselection.
Import Bits hffilters.

(** [enum beautyTrackSelection] *)
Definition kRejected : Z := 0.
Definition kSoftPion : Z := 1.
Definition kRegular : Z := 2.

(** Single-track cuts for bachelor track of beauty candidates.  [findBin]
    is the function of the heavy-flavour utilities, not part of the sources
    at hand, applied to the bin limits [pTBinsTrack]: the number of the pT
    bin, or -1 outside of the limits.
    \return 0 if track is rejected, 1 if track is soft pion, 2 if it is regular beauty *)
Definition isSelectedTrackForBeauty (track : TrackDCA.t)
    (pTMinSoftPion pTMinBeautyBachelor : float) (findBin : float -> Z)
    (cutsSingleTrackBeauty : LabeledArray) : Z :=
  let pT := Track.pt (TrackDCA.track track) in
  let pTBinTrack := findBin pT in
  if pTBinTrack =? -1 then kRejected
  else if (pT <? pTMinSoftPion)%float then kRejected
  else if (abs (Track.eta (TrackDCA.track track)) >? 0.8)%float then kRejected
  else if (abs (TrackDCA.dcaZ track) >? 2)%float then kRejected
  else if (abs (TrackDCA.dcaXY track)
           <? cutsSingleTrackBeauty pTBinTrack "min_dcaxytoprimary"%string)%float
  then kRejected
  else if (abs (TrackDCA.dcaXY track)
           >? cutsSingleTrackBeauty pTBinTrack "max_dcaxytoprimary"%string)%float
  then kRejected
  else if (pT <? pTMinBeautyBachelor)%float then kSoftPion
  else kRegular.

(** Basic additional selection of D+ candidates.
    \return BIT(0) for Kpipi *)
Definition isDplusPreselected (trackOppositeCharge : Track.t)
    (nsigmaTPCKaon3Prong nsigmaTOFKaon3Prong : float) (computeTPCPostCalib : bool)
    (hMapPionMean hMapPionSigma : TH3F.t) : result Z :=
  let retValue := 0 in
  isKaon <-- isSelectedKaon4Charm3Prong trackOppositeCharge nsigmaTPCKaon3Prong
               nsigmaTOFKaon3Prong computeTPCPostCalib hMapPionMean hMapPionSigma ;;
  if negb isKaon then Ok retValue
  else
    let retValue := int8_t (Z.lor retValue (BIT 0)) in
    Ok retValue.

Section WithRecoDecay.
Variable RD : RecoDecay.t.

(** [static const float massPhi = RecoDecay::getMassPDG(333)] *)
Definition massPhi : float := Fp.narrow (RecoDecay.getMassPDG RD 333).

(** Basic additional selection of Ds candidates.
    \return BIT(0) for KKpi, BIT(1) for piKK *)
Definition isDsPreselected
    (pTrackSameChargeFirst pTrackSameChargeSecond pTrackOppositeCharge : Momentum)
    (trackOppositeCharge : Track.t)
    (nsigmaTPCKaon3Prong nsigmaTOFKaon3Prong : float) (computeTPCPostCalib : bool)
    (hMapPionMean hMapPionSigma : TH3F.t) : result Z :=
  let retValue := 0 in
  isKaon <-- isSelectedKaon4Charm3Prong trackOppositeCharge nsigmaTPCKaon3Prong
               nsigmaTOFKaon3Prong computeTPCPostCalib hMapPionMean hMapPionSigma ;;
  if negb isKaon then Ok retValue
  else
    let invMassKKFirst :=
      RecoDecay.m RD [pTrackSameChargeFirst; pTrackOppositeCharge] [massK RD; massK RD] in
    let invMassKKSecond :=
      RecoDecay.m RD [pTrackSameChargeSecond; pTrackOppositeCharge] [massK RD; massK RD] in
    let retValue :=
      if (abs (invMassKKFirst - massPhi) <? 0.02)%float
      then int8_t (Z.lor retValue (BIT 0))
      else retValue in
    let retValue :=
      if (abs (invMassKKSecond - massPhi) <? 0.02)%float
      then int8_t (Z.lor retValue (BIT 1))
      else retValue in
    Ok retValue.

End WithRecoDecay.

(** Basic additional selection of Lc->pKpi and Xic->pKpi candidates.
    \return BIT(0) for pKpi, BIT(1) for piKp *)
Definition isCharmBaryonPreselected
    (trackSameChargeFirst trackSameChargeSecond trackOppositeCharge : Track.t)
    (nsigmaTPCProtonLc nsigmaTOFProtonLc nsigmaTPCKaon3Prong nsigmaTOFKaon3Prong : float)
    (computeTPCPostCalib : bool)
    (hMapProtonMean hMapProtonSigma hMapPionMean hMapPionSigma : TH3F.t) : result Z :=
  let retValue := 0 in
  isKaon <-- isSelectedKaon4Charm3Prong trackOppositeCharge nsigmaTPCKaon3Prong
               nsigmaTOFKaon3Prong computeTPCPostCalib hMapPionMean hMapPionSigma ;;
  if negb isKaon then Ok retValue
  else
    isProtonFirst <-- isSelectedProton4CharmBaryons trackSameChargeFirst nsigmaTPCProtonLc
                        nsigmaTOFProtonLc computeTPCPostCalib hMapProtonMean hMapProtonSigma ;;
    let retValue := if isProtonFirst then int8_t (Z.lor retValue (BIT 0)) else retValue in
    isProtonSecond <-- isSelectedProton4CharmBaryons trackSameChargeSecond nsigmaTPCProtonLc
                         nsigmaTOFProtonLc computeTPCPostCalib hMapProtonMean hMapProtonSigma ;;
    let retValue := if isProtonSecond then int8_t (Z.lor retValue (BIT 1)) else retValue in
    Ok retValue.

(** Basic additional selection of D0 candidates.
    \return BIT(0) for D0, BIT(1) for D0bar *)
Definition isDzeroPreselected (trackPos trackNeg : Track.t)
    (nsigmaTPCPionKaonDzero nsigmaTOFPionKaonDzero : float) (computeTPCPostCalib : bool)
    (hMapPionMean hMapPionSigma : TH3F.t) : result Z :=
  let retValue := 0 in
  let NSigmaPiTPCPos := Track.tpcNSigmaPi trackPos in
  let NSigmaPiTOFPos := Track.tofNSigmaPi trackPos in
  let NSigmaKaTPCPos := Track.tpcNSigmaKa trackPos in
  let NSigmaKaTOFPos := Track.tofNSigmaKa trackPos in
  let NSigmaPiTPCNeg := Track.tpcNSigmaPi trackNeg in
  let NSigmaPiTOFNeg := Track.tofNSigmaPi trackNeg in
  let NSigmaKaTPCNeg := Track.tpcNSigmaKa trackNeg in
  let NSigmaKaTOFNeg := Track.tofNSigmaKa trackNeg in
  calibrated <--
    (if computeTPCPostCalib then
       piPos <-- getTPCPostCalib hMapPionMean hMapPionSigma trackPos kPi ;;
       piNeg <-- getTPCPostCalib hMapPionMean hMapPionSigma trackNeg kPi ;;
       kaPos <-- getTPCPostCalib hMapPionMean hMapPionSigma trackPos kKa ;;
       kaNeg <-- getTPCPostCalib hMapPionMean hMapPionSigma trackNeg kKa ;;
       Ok (piPos, piNeg, kaPos, kaNeg)
     else Ok (NSigmaPiTPCPos, NSigmaPiTPCNeg, NSigmaKaTPCPos, NSigmaKaTPCNeg)) ;;
  let '(NSigmaPiTPCPos, NSigmaPiTPCNeg, NSigmaKaTPCPos, NSigmaKaTPCNeg) := calibrated in
  let retValue :=
    if ((abs NSigmaPiTPCPos <=? nsigmaTPCPionKaonDzero)%float
        && (negb (Track.hasTOF trackPos)
            || (abs NSigmaPiTOFPos <=? nsigmaTOFPionKaonDzero)%float))
       && ((abs NSigmaKaTPCNeg <=? nsigmaTPCPionKaonDzero)%float
           && (negb (Track.hasTOF trackNeg)
               || (abs NSigmaKaTOFNeg <=? nsigmaTOFPionKaonDzero)%float))
    then int8_t (Z.lor retValue (BIT 0))
    else retValue in
  let retValue :=
    if ((abs NSigmaPiTPCNeg <=? nsigmaTPCPionKaonDzero)%float
        && (negb (Track.hasTOF trackNeg)
            || (abs NSigmaPiTOFNeg <=? nsigmaTOFPionKaonDzero)%float))
       && ((abs NSigmaKaTPCPos <=? nsigmaTPCPionKaonDzero)%float
           && (negb (Track.hasTOF trackPos)
               || (abs NSigmaKaTOFPos <=? nsigmaTOFPionKaonDzero)%float))
    then int8_t (Z.lor retValue (BIT 1))
    else retValue in
  Ok retValue.

End hfpreselection.

(** ** The photon cluster skimmer of [GammaTableProducer.cxx] *)

(** A row of the table of EMCal clusters, through the columns the skimmer
    reads. *)
Module SkimEMCCluster.
Record t : Type := mk {
  collisionId : Z;
  energy : float;
  eta : float;
  phi : float;
  time : float;
  m02 : float;
  globalIndex : Z
}.
End SkimEMCCluster.

(** A row of the table [SkimGammas]. *)
Module SkimGamma.
Record t : Type := mk {
  collisionId : Z;
  id : Z;
  energy : float;
  eta : float;
  phi : float;
  clusterIndex : Z
}.
End SkimGamma.

Module skimmerGamma.

Section Task.
(** Configurables for filter/cuts *)
Variables minTime maxTime minM02 maxM02 : float.

(** The three histograms of [historeg], each with the values it was filled
    with (latest first), and the rows written to [tableGammaReco] (in the
    order of writing). *)
Record State : Type := mkState {
  hCaloClusterEIn : list float;
  hCaloClusterEOut : list float;
  hCaloClusterFilter : list Z;
  tableGammaReco : list SkimGamma.t
}.

(** The body of the loop over the EMC clusters. *)
Definition processCluster (st : State) (calocluster : SkimEMCCluster.t) : State :=
  let st :=
    mkState (SkimEMCCluster.energy calocluster :: hCaloClusterEIn st)
      (hCaloClusterEOut st) (0 :: hCaloClusterFilter st) (tableGammaReco st) in
  if ((SkimEMCCluster.time calocluster >? maxTime)
      || (SkimEMCCluster.time calocluster <? minTime))%float
  then mkState (hCaloClusterEIn st) (hCaloClusterEOut st)
         (1 :: hCaloClusterFilter st) (tableGammaReco st)
  else if ((SkimEMCCluster.m02 calocluster >? maxM02)
           || (SkimEMCCluster.m02 calocluster <? minM02))%float
  then mkState (hCaloClusterEIn st) (hCaloClusterEOut st)
         (2 :: hCaloClusterFilter st) (tableGammaReco st)
  else
    mkState (hCaloClusterEIn st)
      (SkimEMCCluster.energy calocluster :: hCaloClusterEOut st)
      (3 :: hCaloClusterFilter st)
      (tableGammaReco st
       ++ [SkimGamma.mk (SkimEMCCluster.collisionId calocluster) 1
             (SkimEMCCluster.energy calocluster) (SkimEMCCluster.eta calocluster)
             (SkimEMCCluster.phi calocluster) (SkimEMCCluster.globalIndex calocluster)]).

Definition processRec (caloclusters : list SkimEMCCluster.t) (st : State) : State :=
  fold_left processCluster caloclusters st.

End Task.
End skimmerGamma.

(** ** More sample data *)

Module MoreSamples.

(** A photon candidate inside of all the cuts of [isSelectedGamma]. *)
Definition gamma : Gamma.t :=
  {| Gamma.eta := 0.5%float;
     Gamma.alpha := 0.25%float;
     Gamma.qtarm := 0.01%float;
     Gamma.v0radius := 30%float;
     Gamma.psipair := 0.05%float |}.

(** A momentum along the first axis. *)
Definition momentum : Momentum := (1%float, 0%float, 0%float).

(** The sample track with another response of the TPC. *)
Definition trackOtherTPC : Track.t :=
  {| Track.pt := 1.5%float;
     Track.eta := 0.25%float;
     Track.p := 1.75%float;
     Track.isGlobalTrack := 1;
     Track.hasTOF := true;
     Track.tpcNSigmaPi := (-8)%float;
     Track.tofNSigmaPi := 0%float;
     Track.tpcNSigmaKa := (-6)%float;
     Track.tofNSigmaKa := 0%float;
     Track.tpcNSigmaPr := 25%float;
     Track.tofNSigmaPr := 40%float;
     Track.tpcNClsFound := 120;
     Track.tpcInnerParam := 0.5%float |}.

End MoreSamples.

(** ** Notions used to state further properties *)

Module MoreNotions.

(** The mask with bit 0 set when [b0] holds and bit 1 when [b1] holds. *)
Definition two_bits (b0 b1 : bool) : Z := Z.b2z b0 + 2 * Z.b2z b1.

(** The entries that a histogram of the registry holds, latest first. *)
Definition entries (reg : QA.Registry) (h : QA.HistPtr) : QA.Hist :=
  default [] (reg !! h).

(** The histogram [h] of [reg'] holds the entries [new] on top of those
    it holds in [reg], and every other histogram is as in [reg]. *)
Definition filled_with (reg reg' : QA.Registry) (h : QA.HistPtr) (new : QA.Hist) : Prop :=
  entries reg' h = new ++ entries reg h /\
  forall h', h' <> h -> entries reg' h' = entries reg h'.

(** The entries of the mass hypotheses that a tagger tests for the mask
    [isSelected], latest first: [second] for bit 1, [first] for bit 0. *)
Definition tested (isSelected : Z) (first second : list float) : QA.Hist :=
  (if Bits.TESTBIT isSelected 1 then [second] else [])
  ++ (if Bits.TESTBIT isSelected 0 then [first] else []).

(** A value within the limits of a cut: neither above the upper limit nor
    below the lower one. *)
Definition within (x lower upper : float) : bool :=
  negb ((x >? upper) || (x <? lower))%float.

(** The number of fills of a histogram of integers with the value [code]. *)
Definition fills (code : Z) (hist : list Z) : nat :=
  List.length (List.filter (Z.eqb code) hist).

(** The row of [SkimGammas] written for a cluster. *)
Definition gammaOf (calocluster : SkimEMCCluster.t) : SkimGamma.t :=
  SkimGamma.mk (SkimEMCCluster.collisionId calocluster) 1
    (SkimEMCCluster.energy calocluster) (SkimEMCCluster.eta calocluster)
    (SkimEMCCluster.phi calocluster) (SkimEMCCluster.globalIndex calocluster).

End MoreNotions.

(** ** Notions used to state the properties of the cluster skimmer *)

Module skimNotions.
Import MoreNotions.

Section Task.
Variables minTime maxTime minM02 maxM02 : float.

(** The clusters within the time cut, those within the time cut and
    outside of the M02 cut, and those that are written out. *)
Definition inTime (calocluster : SkimEMCCluster.t) : bool :=
  within (SkimEMCCluster.time calocluster) minTime maxTime.

Definition inShape (calocluster : SkimEMCCluster.t) : bool :=
  within (SkimEMCCluster.m02 calocluster) minM02 maxM02.

Definition kept (calocluster : SkimEMCCluster.t) : bool :=
  inTime calocluster && inShape calocluster.

End Task.
End skimNotions.

(** ** Notions used to state that the count of candidates is one of sets *)

Module countNotions.

(** Two lists of candidates that differ in the order of the daughters
    within the candidates and in the order of the candidates. *)
Definition same_candidates (indices indices' : list (list Z)) : Prop :=
  exists reordered,
    Forall2 (@Permutation Z) indices reordered /\ Permutation reordered indices'.

End countNotions.

(** ** Notions used to state that Dalitz bits come in pairs *)

Module pairNotions.
Import dalitzPairing dalitzNotions.

(** Two indices of filtered tracks of one collision among [collisions]
    that are not of the same sign. *)
Definition partners (collisions : list MyEvent.t) (filteredTracks : list MyBarrelTrack.t)
    (idx idx' : Z) : Prop :=
  exists collision track partner,
    In collision collisions /\
    In track (sliceBy filteredTracks (MyEvent.globalIndex collision)) /\
    In partner (sliceBy filteredTracks (MyEvent.globalIndex collision)) /\
    MyBarrelTrack.globalIndex track = idx /\
    MyBarrelTrack.globalIndex partner = idx' /\
    ~ (MyBarrelTrack.sign track * MyBarrelTrack.sign partner > 0).

(** Every bit of the Dalitz map [d] is one of the eight low bits and is
    set for a partner too. *)
Definition coupled (collisions : list MyEvent.t) (filteredTracks : list MyBarrelTrack.t)
    (d : gmap Z Z) : Prop :=
  forall idx j, 0 <= j -> Z.testbit (at_ d idx) j = true ->
    j < 8 /\
    exists idx', partners collisions filteredTracks idx idx' /\
                 Z.testbit (at_ d idx') j = true.

End pairNotions.

(** ** Notions used to state what the Dalitz rows do not depend on *)

Module fillNotions.
Import dalitzPairing.

Section Task.
Context {Values : Type}.
Variable VM : VarManager.t Values.
Variable fEventCut : AnalysisCompositeCut.t Values.
Variable fTrackCuts : list (AnalysisCompositeCut.t Values).
Variable fPairCuts : list (AnalysisCompositeCut.t Values).

(** The cuts decide on what is filled in for the object at hand: the
    event cut on the variables of the collision, a track cut on those of
    the track and a pair cut on those of the pair, whatever the variables
    held before the fill. *)
Definition decided_by_fill : Prop :=
  (forall collision values values',
     AnalysisCompositeCut.IsSelected fEventCut
       (VarManager.FillEvent VM collision (VarManager.ResetValues VM values))
     = AnalysisCompositeCut.IsSelected fEventCut
         (VarManager.FillEvent VM collision (VarManager.ResetValues VM values'))) /\
  (forall cut track values values', In cut fTrackCuts ->
     AnalysisCompositeCut.IsSelected cut (VarManager.FillTrack VM track values)
     = AnalysisCompositeCut.IsSelected cut (VarManager.FillTrack VM track values')) /\
  (forall cut track1 track2 values values', In cut fPairCuts ->
     AnalysisCompositeCut.IsSelected cut (VarManager.FillPair VM track1 track2 values)
     = AnalysisCompositeCut.IsSelected cut (VarManager.FillPair VM track1 track2 values')).

End Task.
End fillNotions.

(** ** Notions used to state the closed form of the relative momentum *)

Module femtoNotions.
#[local] Open Scope R_scope.

(** The energy of a particle of mass [mass] and momentum [p]. *)
Definition energy (mass : R) (p : femto.Vec3) : R :=
  let '(x, y, z) := p in sqrt (x * x + y * y + z * z + mass * mass).

(** The squared invariant mass of a pair: the square of the total energy
    minus the square of the total momentum. *)
Definition pairMass2 (m1 : R) (p1 p2 : femto.Vec3) (m2 : R) : R :=
  let '(x1, y1, z1) := p1 in
  let '(x2, y2, z2) := p2 in
  (energy m1 p1 + energy m2 p2) * (energy m1 p1 + energy m2 p2)
  - ((x1 + x2) * (x1 + x2) + (y1 + y2) * (y1 + y2) + (z1 + z2) * (z1 + z2)).

End femtoNotions.

(** ** Notions used to state the symmetry of the photon selection *)

Module gammaNotions.

(** A value with its sign changed when [b] holds. *)
Definition flip (b : bool) (x : float) : float := if b then (- x)%float else x.

(** A photon candidate with the signs of its pseudorapidity, of its
    Armenteros-Podolanski variables and of its pair angle changed at will. *)
Definition mirrored (bEta bAlpha bQt bPsi : bool) (gamma : Gamma.t) : Gamma.t :=
  {| Gamma.eta := flip bEta (Gamma.eta gamma);
     Gamma.alpha := flip bAlpha (Gamma.alpha gamma);
     Gamma.qtarm := flip bQt (Gamma.qtarm gamma);
     Gamma.v0radius := Gamma.v0radius gamma;
     Gamma.psipair := flip bPsi (Gamma.psipair gamma) |}.

End gammaNotions.

(** ** Sample thresholds *)

Module SampleThresholds.

(** BDT thresholds looser than those of 0.5: a background score up to
    0.6 passes, and a prompt or non-prompt score above 0.05 is tagged. *)
Definition loose : LabeledArray :=
  fun _ label => if String.eqb label "BDTbkg" then 0.6%float else 0.05%float.

End SampleThresholds.

(* ================================================================== *)
(** * Part II: properties *)
(* ================================================================== *)

(** ** Facts on bit masks *)

Module BitsFacts.
Import Bits.

Lemma BIT_pow2 (n : Z) : BIT n = 2 ^ n.
Proof. unfold BIT. apply Z.shiftl_1_l. Qed.

Lemma testbit_BIT (n i : Z) : 0 <= n -> Z.testbit (BIT n) i = (n =? i).
Proof. intros Hn. rewrite BIT_pow2. now apply Z.pow2_bits_eqb. Qed.

(** [n & BIT(i)] is [BIT(i)] or 0, according to bit [i] of [n]. *)
Lemma land_BIT (n i : Z) :
  0 <= i -> Z.land n (BIT i) = if Z.testbit n i then BIT i else 0.
Proof.
  intros Hi. apply Z.bits_inj'. intros k Hk.
  rewrite Z.land_spec, testbit_BIT by assumption.
  destruct (Z.eqb_spec i k) as [->|Hne].
  - destruct (Z.testbit n k) eqn:E; cbn.
    + rewrite testbit_BIT by assumption. now rewrite Z.eqb_refl.
    + now rewrite Z.bits_0.
  - rewrite andb_false_r.
    destruct (Z.testbit n i).
    + rewrite testbit_BIT by assumption. symmetry. now apply Z.eqb_neq.
    + now rewrite Z.bits_0.
Qed.

Lemma BIT_nonzero (i : Z) : 0 <= i -> BIT i <> 0.
Proof. intros Hi. rewrite BIT_pow2. apply Z.pow_nonzero; lia. Qed.

(** [TESTBIT] reads the bit of the two's complement representation. *)
Lemma TESTBIT_testbit (n i : Z) : 0 <= i -> TESTBIT n i = Z.testbit n i.
Proof.
  intros Hi. unfold TESTBIT. rewrite land_BIT by assumption.
  destruct (Z.testbit n i); cbn.
  - destruct (Z.eqb_spec (BIT i) 0) as [E|_]; [|reflexivity].
    now apply BIT_nonzero in E.
  - reflexivity.
Qed.

(** The conversion to [int8_t] keeps the eight low bits. *)
Lemma testbit_int8_t (z i : Z) :
  0 <= i < 8 -> Z.testbit (int8_t z) i = Z.testbit z i.
Proof.
  intros Hi. unfold int8_t.
  rewrite <- (Z.mod_pow2_bits_low ((z + 128) mod 256 - 128) 8 i) by lia.
  rewrite <- (Z.mod_pow2_bits_low z 8 i) by lia.
  f_equal. change (2 ^ 8) with 256.
  rewrite Zminus_mod, Zmod_mod, <- Zminus_mod. f_equal. lia.
Qed.

Lemma int8_t_small (z : Z) : -128 <= z < 128 -> int8_t z = z.
Proof. intros Hz. unfold int8_t. rewrite Z.mod_small; lia. Qed.

(** The conversion to [uint8_t] keeps the eight low bits and clears the others. *)
Lemma testbit_uint8_t (z i : Z) :
  0 <= i -> Z.testbit (uint8_t z) i = Z.testbit z i && (i <? 8).
Proof.
  intros Hi. unfold uint8_t. change 256 with (2 ^ 8).
  destruct (Z.ltb_spec i 8).
  - rewrite Z.mod_pow2_bits_low by lia. now rewrite andb_true_r.
  - rewrite Z.mod_pow2_bits_high by lia. now rewrite andb_false_r.
Qed.

Lemma uint8_t_range (z : Z) : 0 <= uint8_t z < 256.
Proof. unfold uint8_t. apply Z.mod_pos_bound. lia. Qed.

(** A mask is a subset of another when each of its bits is a bit of the other. *)
Lemma land_subset (a b : Z) :
  (forall i, 0 <= i -> Z.testbit a i = true -> Z.testbit b i = true) ->
  Z.land a b = a.
Proof.
  intros H. apply Z.bits_inj'. intros i Hi.
  rewrite Z.land_spec. specialize (H i Hi).
  destruct (Z.testbit a i); [now rewrite H|reflexivity].
Qed.

End BitsFacts.

(** ** Facts on floating-point comparisons *)

Module FpFacts.

(** Swapping the operands of a comparison swaps its outcome. *)
Lemma SFcompare_swap (x y : spec_float) :
  SFcompare y x = option_map CompOpp (SFcompare x y).
Proof.
  destruct x as [sx|sx| |sx mx ex], y as [sy|sy| |sy my ey]; cbn;
    try reflexivity; try (destruct sx; reflexivity); try (destruct sy; reflexivity);
    try (destruct sx, sy; reflexivity).
  destruct sx, sy; try reflexivity;
    rewrite (Z.compare_antisym ex ey);
    destruct (ex ?= ey); cbn; try reflexivity;
    rewrite <- (Pos.compare_cont_antisym _ _ Eq); cbn;
    destruct (Pos.compare_cont Eq mx my); reflexivity.
Qed.

(** [a <= b] excludes [a > b]. *)
Lemma leb_not_gtb (a b : float) :
  (a <=? b)%float = true -> (a >? b)%float = false.
Proof.
  unfold Fp.gtb. rewrite leb_spec, ltb_spec. unfold SFleb, SFltb.
  rewrite (SFcompare_swap (Prim2SF a) (Prim2SF b)).
  destruct (SFcompare (Prim2SF a) (Prim2SF b)) as [[ | | ]|]; cbn; congruence.
Qed.

Lemma Prim2SF_one : Prim2SF 1 = S754_finite false 4503599627370496 (-52).
Proof. vm_compute. reflexivity. Qed.

Lemma Prim2SF_two : Prim2SF 2 = S754_finite false 4503599627370496 (-51).
Proof. vm_compute. reflexivity. Qed.

Lemma Prim2SF_minus_one : Prim2SF (-1) = S754_finite true 4503599627370496 (-52).
Proof. vm_compute. reflexivity. Qed.

Lemma Prim2SF_zero : Prim2SF 0 = S754_zero false.
Proof. vm_compute. reflexivity. Qed.

(** A value of at most 1 is exceeded by 2. *)
Lemma le_one_lt_two (t : float) :
  (t <=? 1)%float = true -> (2 >? t)%float = true.
Proof.
  unfold Fp.gtb. rewrite leb_spec, ltb_spec, Prim2SF_one, Prim2SF_two.
  generalize 4503599627370496%positive. intros mant.
  unfold SFleb, SFltb, SFcompare.
  destruct (Prim2SF t) as [s|s| |s m e]; try congruence; try (destruct s; congruence).
  destruct s; [reflexivity|].
  destruct (Z.compare_spec e (-52)) as [->|Hlt|Hgt].
  - reflexivity.
  - intros _. destruct (Z.compare_spec e (-51)); first [reflexivity | lia].
  - discriminate.
Qed.

(** A value of at least 0 is not exceeded by -1. *)
Lemma ge_zero_not_lt_minus_one (t : float) :
  (0 <=? t)%float = true -> (-1 >? t)%float = false.
Proof.
  unfold Fp.gtb. rewrite leb_spec, ltb_spec, Prim2SF_minus_one, Prim2SF_zero.
  generalize 4503599627370496%positive. intros mant.
  unfold SFleb, SFltb, SFcompare.
  destruct (Prim2SF t) as [s|s| |s m e]; try congruence; try (destruct s; congruence).
Qed.

End FpFacts.

(** ** The ML score classifier *)

Module MLScoreClassifier.
Import Bits BitsFacts hffilters Notions.

Section WithRecoDecay.
Variable RD : RecoDecay.t.
Hypothesis Prompt_range : 0 <= RecoDecay.Prompt RD < 8.
Hypothesis NonPrompt_range : 0 <= RecoDecay.NonPrompt RD < 8.
Hypothesis Prompt_NonPrompt : RecoDecay.Prompt RD <> RecoDecay.NonPrompt RD.

(** Bit [i] of [retValue |= BIT(n)]. *)
Lemma testbit_or_assign (retValue n i : Z) :
  0 <= n -> 0 <= i < 8 ->
  Z.testbit (int8_t (Z.lor retValue (BIT n))) i = Z.testbit retValue i || (n =? i).
Proof.
  intros Hn Hi. rewrite testbit_int8_t by assumption.
  now rewrite Z.lor_spec, testbit_BIT.
Qed.

(** The two bits of the mask of a candidate that passed the background
    rejection. *)
Lemma isBDTSelected_bits (scores : list float) (thresholdBDTScores : LabeledArray) :
  (3 <= List.length scores)%nat ->
  (nth 0 scores nan >? thresholdBDTScores 0%Z "BDTbkg"%string)%float = false ->
  Z.testbit (isBDTSelected RD scores thresholdBDTScores) (RecoDecay.Prompt RD)
    = (nth 1 scores nan >? thresholdBDTScores 0%Z "BDTprompt"%string)%float /\
  Z.testbit (isBDTSelected RD scores thresholdBDTScores) (RecoDecay.NonPrompt RD)
    = (nth 2 scores nan >? thresholdBDTScores 0%Z "BDTnonprompt"%string)%float.
Proof.
  intros Hlen Hbkg. unfold isBDTSelected.
  destruct (Z.ltb_spec (Z.of_nat (List.length scores)) 3) as [Hlt|_]; [lia|].
  rewrite Hbkg.
  assert (Hne : (RecoDecay.Prompt RD =? RecoDecay.NonPrompt RD) = false)
    by now apply Z.eqb_neq.
  assert (Hne' : (RecoDecay.NonPrompt RD =? RecoDecay.Prompt RD) = false)
    by (apply Z.eqb_neq; congruence).
  destruct (nth 1 scores nan >? _)%float, (nth 2 scores nan >? _)%float;
    rewrite ?testbit_or_assign by lia;
    rewrite ?Z.bits_0, ?Z.eqb_refl, ?Hne, ?Hne'; split; reflexivity.
Qed.

(** C1: [isBDTSelected] answers the empty mask on fewer than three scores
    and on a background score above its threshold, whatever the other two
    scores; otherwise the prompt bit is set exactly when the prompt score
    exceeds its threshold and the non-prompt bit exactly when the
    non-prompt score exceeds its threshold. *)
Theorem isBDTSelected_spec (scores : list float) (thresholdBDTScores : LabeledArray) :
  ((List.length scores < 3)%nat -> isBDTSelected RD scores thresholdBDTScores = 0) /\
  ((3 <= List.length scores)%nat ->
   (nth 0 scores nan >? thresholdBDTScores 0%Z "BDTbkg"%string)%float = true ->
   isBDTSelected RD scores thresholdBDTScores = 0) /\
  ((3 <= List.length scores)%nat ->
   (nth 0 scores nan >? thresholdBDTScores 0%Z "BDTbkg"%string)%float = false ->
   (Z.testbit (isBDTSelected RD scores thresholdBDTScores) (RecoDecay.Prompt RD) = true
      <-> (nth 1 scores nan >? thresholdBDTScores 0%Z "BDTprompt"%string)%float = true) /\
   (Z.testbit (isBDTSelected RD scores thresholdBDTScores) (RecoDecay.NonPrompt RD) = true
      <-> (nth 2 scores nan >? thresholdBDTScores 0%Z "BDTnonprompt"%string)%float = true)).
Proof.
  split; [|split].
  - intros Hlen. unfold isBDTSelected.
    destruct (Z.ltb_spec (Z.of_nat (List.length scores)) 3); [reflexivity|lia].
  - intros Hlen Hbkg. unfold isBDTSelected. rewrite Hbkg.
    now destruct (Z.of_nat (List.length scores) <? 3).
  - intros Hlen Hbkg.
    destruct (isBDTSelected_bits scores thresholdBDTScores Hlen Hbkg) as [-> ->].
    split; reflexivity.
Qed.

End WithRecoDecay.

(** The classifier on the scores {0.1, 0.8, 0.1} and thresholds of 0.5:
    the prompt bit and no other. *)
Lemma isBDTSelected_spec_witness :
  Z.testbit (isBDTSelected Sample.reco [0.1; 0.8; 0.1]%float Sample.thresholds) 1 = true
  /\ isBDTSelected Sample.reco [0.1; 0.8; 0.1]%float Sample.thresholds = BIT 1.
Proof.
  split; [|reflexivity].
  apply (proj1 (proj2 (proj2 (isBDTSelected_spec Sample.reco
           ltac:(cbn; lia) ltac:(cbn; lia) ltac:(cbn; lia)
           [0.1; 0.8; 0.1]%float Sample.thresholds))
         ltac:(cbn; lia) ltac:(reflexivity))).
  reflexivity.
Defined.

(** The scores that [PredictONNX] returns when the runtime throws. *)
Lemma PredictONNX_failure (inputFeatures : list float) (session : Session) :
  session inputFeatures = None ->
  PredictONNX inputFeatures session = Ok [(-1)%float; 2%float; 2%float].
Proof. intros H. unfold PredictONNX. now rewrite H. Qed.

(** C4, as the code has it: for thresholds in [0, 1] the scores returned
    after a failure of the runtime, {-1, 2, 2}, pass the background
    rejection and exceed both the prompt and the non-prompt threshold, so
    the mask has both bits set and is not empty. *)
Theorem failure_scores_selected (RD : RecoDecay.t) (thresholdBDTScores : LabeledArray)
    (inputFeatures : list float) (session : Session) :
  0 <= RecoDecay.Prompt RD < 8 ->
  0 <= RecoDecay.NonPrompt RD < 8 ->
  normal_threshold (thresholdBDTScores 0 "BDTbkg"%string) ->
  normal_threshold (thresholdBDTScores 0 "BDTprompt"%string) ->
  normal_threshold (thresholdBDTScores 0 "BDTnonprompt"%string) ->
  session inputFeatures = None ->
  exists scores,
    PredictONNX inputFeatures session = Ok scores /\
    Z.testbit (isBDTSelected RD scores thresholdBDTScores) (RecoDecay.Prompt RD) = true /\
    Z.testbit (isBDTSelected RD scores thresholdBDTScores) (RecoDecay.NonPrompt RD) = true /\
    isBDTSelected RD scores thresholdBDTScores <> 0.
Proof.
  intros HP HNP [Hb0 _] [_ Hp1] [_ Hn1] Hfail.
  exists [(-1)%float; 2%float; 2%float].
  split; [now apply PredictONNX_failure|].
  assert (Hbits :
    Z.testbit (isBDTSelected RD [(-1)%float; 2%float; 2%float] thresholdBDTScores)
      (RecoDecay.Prompt RD) = true /\
    Z.testbit (isBDTSelected RD [(-1)%float; 2%float; 2%float] thresholdBDTScores)
      (RecoDecay.NonPrompt RD) = true).
  { unfold isBDTSelected.
    change (nth 0 [(-1)%float; 2%float; 2%float] nan) with (-1)%float.
    change (nth 1 [(-1)%float; 2%float; 2%float] nan) with 2%float.
    change (nth 2 [(-1)%float; 2%float; 2%float] nan) with 2%float.
    change (Z.of_nat (List.length [(-1)%float; 2%float; 2%float]) <? 3) with false.
    rewrite (FpFacts.ge_zero_not_lt_minus_one _ Hb0).
    rewrite (FpFacts.le_one_lt_two _ Hp1), (FpFacts.le_one_lt_two _ Hn1).
    cbv iota.
    rewrite !testbit_or_assign by lia.
    rewrite !Z.eqb_refl, !orb_true_r. split; reflexivity. }
  destruct Hbits as [HbP HbN]. repeat split; try assumption.
  intros E. rewrite E, Z.bits_0 in HbP. discriminate.
Qed.

(** The thresholds of 0.5 are normal ones, and the scores of a failed
    inference are selected as prompt and as non-prompt. *)
Lemma failure_scores_selected_witness :
  exists scores,
    PredictONNX [] Sample.failingSession = Ok scores /\
    Z.testbit (isBDTSelected Sample.reco scores Sample.thresholds) 1 = true /\
    Z.testbit (isBDTSelected Sample.reco scores Sample.thresholds) 2 = true /\
    isBDTSelected Sample.reco scores Sample.thresholds <> 0.
Proof.
  apply (failure_scores_selected Sample.reco Sample.thresholds [] Sample.failingSession);
    first [ cbn; lia | split; reflexivity | reflexivity ].
Defined.

(** C4 as stated fails: with thresholds of 0.5, all in [0, 1], the scores
    {-1, 2, 2} of a failed inference give the mask 6, not the empty one. *)
Lemma failure_scores_not_rejected :
  normal_threshold (Sample.thresholds 0 "BDTbkg"%string) /\
  normal_threshold (Sample.thresholds 0 "BDTprompt"%string) /\
  normal_threshold (Sample.thresholds 0 "BDTnonprompt"%string) /\
  PredictONNX [] Sample.failingSession = Ok [(-1)%float; 2%float; 2%float] /\
  isBDTSelected Sample.reco [(-1)%float; 2%float; 2%float] Sample.thresholds = 6 /\
  isBDTSelected Sample.reco [(-1)%float; 2%float; 2%float] Sample.thresholds <> 0.
Proof.
  repeat split; try reflexivity. vm_compute. discriminate.
Qed.

End MLScoreClassifier.

(** ** The invariant-mass window taggers *)

Module MassWindowTagger.
Import Bits BitsFacts hffilters.

(** A mask built from the bits 0 and 1 is a subset of [isSelected] when
    each of its two bits is one of [isSelected]. *)
Lemma two_bit_mask_subset (retValue isSelected : Z) :
  0 <= retValue < 4 ->
  (Z.testbit retValue 0 = true -> TESTBIT isSelected 0 = true) ->
  (Z.testbit retValue 1 = true -> TESTBIT isSelected 1 = true) ->
  Z.land retValue isSelected = retValue.
Proof.
  intros Hr H0 H1. rewrite TESTBIT_testbit in H0, H1 by lia.
  apply land_subset. intros i Hi Hbit.
  destruct (Z.eq_dec i 0) as [->|Hi0]; [now apply H0|].
  destruct (Z.eq_dec i 1) as [->|Hi1]; [now apply H1|].
  destruct (Z.eq_dec retValue 0) as [->|Hr0]; [now rewrite Z.bits_0 in Hbit|].
  rewrite Z.bits_above_log2 in Hbit; [discriminate|lia|].
  apply Z.log2_lt_pow2; [lia|].
  apply Z.lt_le_trans with (2 ^ 2); [cbn; lia|].
  apply Z.pow_le_mono_r; lia.
Qed.

(** The four taggers that narrow [isSelected] share one shape: each bit
    of the result is set inside the test of the same bit of [isSelected]. *)
Ltac tagger_subset :=
  intros;
  match goal with
  | |- context [TESTBIT ?sel 0] =>
      destruct (TESTBIT sel 0) eqn:Hbit0; destruct (TESTBIT sel 1) eqn:Hbit1
  end;
  cbv zeta; cbv beta iota;
  repeat match goal with
         | |- context [(abs ?x <? ?d)%float] => destruct (abs x <? d)%float
         end;
  cbn [fst];
  repeat match goal with
         | |- context [int8_t ?x] =>
             let v := eval vm_compute in (int8_t x) in change (int8_t x) with v
         end;
  apply two_bit_mask_subset; cbn; first [lia | congruence].

Section WithRecoDecay.
Variable RD : RecoDecay.t.

Lemma isSelectedD0InMassRange_subset pTrackPos pTrackNeg ptD isSelected
    deltaMassCharmHadronForBeauty activateQA hMassVsPt reg :
  let retValue := fst (isSelectedD0InMassRange RD pTrackPos pTrackNeg ptD isSelected
                         deltaMassCharmHadronForBeauty activateQA hMassVsPt reg) in
  Z.land retValue isSelected = retValue.
Proof. unfold isSelectedD0InMassRange. tagger_subset. Qed.

Lemma isSelectedDsInMassRange_subset pFirst pSecond pOpposite ptD isSelected
    deltaMassCharmHadronForBeauty activateQA hMassVsPt reg :
  let retValue := fst (isSelectedDsInMassRange RD pFirst pSecond pOpposite ptD isSelected
                         deltaMassCharmHadronForBeauty activateQA hMassVsPt reg) in
  Z.land retValue isSelected = retValue.
Proof. unfold isSelectedDsInMassRange. tagger_subset. Qed.

Lemma isSelectedLcInMassRange_subset pFirst pSecond pOpposite ptLc isSelected
    deltaMassCharmHadronForBeauty activateQA hMassVsPt reg :
  let retValue := fst (isSelectedLcInMassRange RD pFirst pSecond pOpposite ptLc isSelected
                         deltaMassCharmHadronForBeauty activateQA hMassVsPt reg) in
  Z.land retValue isSelected = retValue.
Proof. unfold isSelectedLcInMassRange. tagger_subset. Qed.

Lemma isSelectedXicInMassRange_subset pFirst pSecond pOpposite ptXic isSelected
    deltaMassCharmHadronForBeauty activateQA hMassVsPt reg :
  let retValue := fst (isSelectedXicInMassRange RD pFirst pSecond pOpposite ptXic isSelected
                         deltaMassCharmHadronForBeauty activateQA hMassVsPt reg) in
  Z.land retValue isSelected = retValue.
Proof. unfold isSelectedXicInMassRange. tagger_subset. Qed.

(** C2: the mask returned by each of the D0, Ds, Lc and Xic mass-window
    taggers is a subset of the mask [isSelected] it was given: the
    returned value ANDed with [isSelected] is the returned value. *)
Theorem mass_range_subset_of_preselection
    (pTrackPos pTrackNeg pFirst pSecond pOpposite : Momentum) (pt : float)
    (isSelected : Z) (deltaMassCharmHadronForBeauty : float) (activateQA : Z)
    (hMassVsPt : QA.HistPtr) (reg : QA.Registry) :
  let d0 := fst (isSelectedD0InMassRange RD pTrackPos pTrackNeg pt isSelected
                   deltaMassCharmHadronForBeauty activateQA hMassVsPt reg) in
  let ds := fst (isSelectedDsInMassRange RD pFirst pSecond pOpposite pt isSelected
                   deltaMassCharmHadronForBeauty activateQA hMassVsPt reg) in
  let lc := fst (isSelectedLcInMassRange RD pFirst pSecond pOpposite pt isSelected
                   deltaMassCharmHadronForBeauty activateQA hMassVsPt reg) in
  let xic := fst (isSelectedXicInMassRange RD pFirst pSecond pOpposite pt isSelected
                    deltaMassCharmHadronForBeauty activateQA hMassVsPt reg) in
  Z.land d0 isSelected = d0 /\ Z.land ds isSelected = ds /\
  Z.land lc isSelected = lc /\ Z.land xic isSelected = xic.
Proof.
  cbv zeta. repeat split.
  - apply isSelectedD0InMassRange_subset.
  - apply isSelectedDsInMassRange_subset.
  - apply isSelectedLcInMassRange_subset.
  - apply isSelectedXicInMassRange_subset.
Qed.

End WithRecoDecay.

End MassWindowTagger.

(** ** The PID calibration lookup *)

Module PIDCalibration.
Import hffilters Notions.

(** The clamping of a bin number, as [getTPCPostCalib] writes it. *)
Lemma clamp_clamped (axis : TAxis.t) (x : float) :
  TAxis.well_formed axis ->
  clamped (TAxis.GetNbins axis) (TAxis.FindBin axis x)
    (Z.min (TAxis.GetNbins axis)
       (if TAxis.FindBin axis x =? 0 then 1 else TAxis.FindBin axis x)).
Proof.
  intros [Hn Hfind]. specialize (Hfind x). unfold clamped.
  destruct (Z.eqb_spec (TAxis.FindBin axis x) 0) as [E|E]; lia.
Qed.

(** [getTPCPostCalib] in terms of the raw deviation and the clamped bins. *)
Lemma getTPCPostCalib_unfold (hCalibMean hCalibSigma : TH3F.t) (track : Track.t)
    (pidSpecies : Z) :
  let binOf axis x :=
    Z.min (TAxis.GetNbins axis)
      (if TAxis.FindBin axis x =? 0 then 1 else TAxis.FindBin axis x) in
  let binTPCNCls := binOf (TH3F.GetXaxis hCalibMean) (Fp.of_int (Track.tpcNClsFound track)) in
  let binPin := binOf (TH3F.GetYaxis hCalibMean) (Track.tpcInnerParam track) in
  let binEta := binOf (TH3F.GetZaxis hCalibMean) (Track.eta track) in
  getTPCPostCalib hCalibMean hCalibSigma track pidSpecies =
  match rawDeviation track pidSpecies with
  | Some tpcNSigma =>
      Ok (Fp.narrow ((tpcNSigma - TH3F.GetBinContent hCalibMean binTPCNCls binPin binEta)
                     / TH3F.GetBinContent hCalibSigma binTPCNCls binPin binEta)%float)
  | None => Fatal "Wrong PID Species be selected, please check!"
  end.
Proof.
  cbv zeta. unfold getTPCPostCalib, rawDeviation.
  destruct (pidSpecies =? kKa); [reflexivity|].
  destruct (pidSpecies =? kPi); [reflexivity|].
  destruct (pidSpecies =? kPr); reflexivity.
Qed.

(** C3: whatever the cluster count, the inner momentum and the
    pseudorapidity of the track, also outside of the axes,
    [getTPCPostCalib] reads the tables of mean and sigma at one bin whose
    three numbers lie within [1, N] of their axes, the bin found being
    clamped to 1 from 0 and to N from above N (the axes are those of the
    table of means, and the bin is within the table of sigmas when it has
    the same numbers of bins); the result, for a species with a raw
    deviation, is (raw deviation - mean) / sigma at that bin, and no
    content of the tables outside of [1, N] has any influence on it. *)
Theorem getTPCPostCalib_reads_clamped_bin (hCalibMean hCalibSigma : TH3F.t)
    (track : Track.t) (pidSpecies : Z) :
  TAxis.well_formed (TH3F.GetXaxis hCalibMean) ->
  TAxis.well_formed (TH3F.GetYaxis hCalibMean) ->
  TAxis.well_formed (TH3F.GetZaxis hCalibMean) ->
  exists binTPCNCls binPin binEta,
    clamped (TAxis.GetNbins (TH3F.GetXaxis hCalibMean))
      (TAxis.FindBin (TH3F.GetXaxis hCalibMean) (Fp.of_int (Track.tpcNClsFound track)))
      binTPCNCls /\
    clamped (TAxis.GetNbins (TH3F.GetYaxis hCalibMean))
      (TAxis.FindBin (TH3F.GetYaxis hCalibMean) (Track.tpcInnerParam track))
      binPin /\
    clamped (TAxis.GetNbins (TH3F.GetZaxis hCalibMean))
      (TAxis.FindBin (TH3F.GetZaxis hCalibMean) (Track.eta track))
      binEta /\
    in_range hCalibMean binTPCNCls binPin binEta /\
    (TAxis.GetNbins (TH3F.GetXaxis hCalibSigma) = TAxis.GetNbins (TH3F.GetXaxis hCalibMean) ->
     TAxis.GetNbins (TH3F.GetYaxis hCalibSigma) = TAxis.GetNbins (TH3F.GetYaxis hCalibMean) ->
     TAxis.GetNbins (TH3F.GetZaxis hCalibSigma) = TAxis.GetNbins (TH3F.GetZaxis hCalibMean) ->
     in_range hCalibSigma binTPCNCls binPin binEta) /\
    (forall tpcNSigma, rawDeviation track pidSpecies = Some tpcNSigma ->
       getTPCPostCalib hCalibMean hCalibSigma track pidSpecies =
       Ok (Fp.narrow ((tpcNSigma - TH3F.GetBinContent hCalibMean binTPCNCls binPin binEta)
                      / TH3F.GetBinContent hCalibSigma binTPCNCls binPin binEta)%float)) /\
    (forall hMean' hSigma' : TH3F.t,
       TH3F.GetXaxis hMean' = TH3F.GetXaxis hCalibMean ->
       TH3F.GetYaxis hMean' = TH3F.GetYaxis hCalibMean ->
       TH3F.GetZaxis hMean' = TH3F.GetZaxis hCalibMean ->
       (forall i j k, in_range hCalibMean i j k ->
          TH3F.GetBinContent hMean' i j k = TH3F.GetBinContent hCalibMean i j k /\
          TH3F.GetBinContent hSigma' i j k = TH3F.GetBinContent hCalibSigma i j k) ->
       getTPCPostCalib hMean' hSigma' track pidSpecies
       = getTPCPostCalib hCalibMean hCalibSigma track pidSpecies).
Proof.
  intros HX HY HZ.
  pose proof (clamp_clamped _ (Fp.of_int (Track.tpcNClsFound track)) HX) as CX.
  pose proof (clamp_clamped _ (Track.tpcInnerParam track) HY) as CY.
  pose proof (clamp_clamped _ (Track.eta track) HZ) as CZ.
  eexists _, _, _. split; [exact CX|]. split; [exact CY|]. split; [exact CZ|].
  assert (Hin : in_range hCalibMean
    (Z.min (TAxis.GetNbins (TH3F.GetXaxis hCalibMean))
       (if TAxis.FindBin (TH3F.GetXaxis hCalibMean) (Fp.of_int (Track.tpcNClsFound track)) =? 0
        then 1 else TAxis.FindBin (TH3F.GetXaxis hCalibMean) (Fp.of_int (Track.tpcNClsFound track))))
    (Z.min (TAxis.GetNbins (TH3F.GetYaxis hCalibMean))
       (if TAxis.FindBin (TH3F.GetYaxis hCalibMean) (Track.tpcInnerParam track) =? 0
        then 1 else TAxis.FindBin (TH3F.GetYaxis hCalibMean) (Track.tpcInnerParam track)))
    (Z.min (TAxis.GetNbins (TH3F.GetZaxis hCalibMean))
       (if TAxis.FindBin (TH3F.GetZaxis hCalibMean) (Track.eta track) =? 0
        then 1 else TAxis.FindBin (TH3F.GetZaxis hCalibMean) (Track.eta track)))).
  { unfold in_range. split; [apply CX|]. split; [apply CY|apply CZ]. }
  split; [exact Hin|]. split; [|split].
  - intros EX EY EZ. unfold in_range in *. now rewrite EX, EY, EZ.
  - intros tpcNSigma Hraw.
    pose proof (getTPCPostCalib_unfold hCalibMean hCalibSigma track pidSpecies) as U.
    cbv zeta in U. rewrite U, Hraw. reflexivity.
  - intros hMean' hSigma' EX EY EZ Hsame.
    pose proof (getTPCPostCalib_unfold hCalibMean hCalibSigma track pidSpecies) as U.
    pose proof (getTPCPostCalib_unfold hMean' hSigma' track pidSpecies) as U'.
    cbv zeta in U, U'. rewrite U, U', EX, EY, EZ.
    destruct (Hsame _ _ _ Hin) as [-> ->]. reflexivity.
Qed.

(** An axis given by its edges is well formed. *)
Lemma of_edges_well_formed (lower : float) (inner : list float) (upper : float) :
  TAxis.well_formed (TAxis.of_edges lower inner upper).
Proof.
  split; cbn; [lia|]. intros x.
  destruct (x <? lower)%float; [lia|].
  destruct (x <? upper)%float; cbn; lia.
Qed.

(** The sample track lies under the first bin in cluster count, over the
    last bin in momentum and in the first bin in pseudorapidity: the bin
    read is (1, 3, 1). *)
Lemma getTPCPostCalib_reads_clamped_bin_witness :
  exists binTPCNCls binPin binEta,
    clamped 3 0 binTPCNCls /\ clamped 3 4 binPin /\ clamped 3 1 binEta /\
    getTPCPostCalib Sample.hMean Sample.hSigma Sample.track kPr = Ok 0.5%float.
Proof.
  destruct (getTPCPostCalib_reads_clamped_bin Sample.hMean Sample.hSigma Sample.track kPr
              (of_edges_well_formed _ _ _) (of_edges_well_formed _ _ _)
              (of_edges_well_formed _ _ _))
    as (i & j & k & CX & CY & CZ & _ & _ & _ & _).
  exists i, j, k. split; [exact CX|]. split; [exact CY|]. split; [exact CZ|].
  reflexivity.
Defined.

(** C5, as the code has it: [getTPCPostCalib] returns a corrected
    deviation exactly for the kaon, pion and proton tags, the kaon
    deviation being corrected with the tables the caller passes (the kaon
    selection passes the pion tables); it fails fatally for every other
    tag, the electron tag [kEl] included. *)
Theorem getTPCPostCalib_species (hCalibMean hCalibSigma : TH3F.t) (track : Track.t)
    (pidSpecies : Z) :
  (pidSpecies = kKa \/ pidSpecies = kPi \/ pidSpecies = kPr <->
   exists corrected, getTPCPostCalib hCalibMean hCalibSigma track pidSpecies = Ok corrected) /\
  (pidSpecies <> kKa /\ pidSpecies <> kPi /\ pidSpecies <> kPr <->
   getTPCPostCalib hCalibMean hCalibSigma track pidSpecies
   = Fatal "Wrong PID Species be selected, please check!") /\
  getTPCPostCalib hCalibMean hCalibSigma track kEl
  = Fatal "Wrong PID Species be selected, please check!" /\
  (forall nsigmaTPCKaon3Prong nsigmaTOFKaon3Prong,
     isSelectedKaon4Charm3Prong track nsigmaTPCKaon3Prong nsigmaTOFKaon3Prong true
       hCalibMean hCalibSigma
     = (NSigmaTPC <-- getTPCPostCalib hCalibMean hCalibSigma track kKa ;;
        Ok (negb (abs NSigmaTPC >? nsigmaTPCKaon3Prong)%float
            && negb (Track.hasTOF track
                     && (abs (Track.tofNSigmaKa track) >? nsigmaTOFKaon3Prong)%float)))).
Proof.
  pose proof (getTPCPostCalib_unfold hCalibMean hCalibSigma track pidSpecies) as U.
  cbv zeta in U. unfold rawDeviation in U.
  split; [split|split; [split|split]].
  - intros H. rewrite U.
    destruct (Z.eqb_spec pidSpecies kKa); [eauto|].
    destruct (Z.eqb_spec pidSpecies kPi); [eauto|].
    destruct (Z.eqb_spec pidSpecies kPr); [eauto|]. tauto.
  - intros [corrected H]. rewrite U in H.
    destruct (Z.eqb_spec pidSpecies kKa); [tauto|].
    destruct (Z.eqb_spec pidSpecies kPi); [tauto|].
    destruct (Z.eqb_spec pidSpecies kPr); [tauto|]. discriminate.
  - intros (HKa & HPi & HPr). rewrite U.
    destruct (Z.eqb_spec pidSpecies kKa); [contradiction|].
    destruct (Z.eqb_spec pidSpecies kPi); [contradiction|].
    destruct (Z.eqb_spec pidSpecies kPr); [contradiction|]. reflexivity.
  - intros H. repeat split; intros E; rewrite U, E in H; discriminate.
  - reflexivity.
  - intros thrTPC thrTOF. unfold isSelectedKaon4Charm3Prong.
    destruct (getTPCPostCalib hCalibMean hCalibSigma track kKa) as [v|msg]; [|reflexivity].
    cbn [bind].
    destruct (abs v >? thrTPC)%float; [reflexivity|].
    destruct (Track.hasTOF track && (abs (Track.tofNSigmaKa track) >? thrTOF)%float);
      reflexivity.
Qed.

(** C5 as stated fails: the electron is one of the four species tags, and
    [getTPCPostCalib] fails fatally for it. *)
Lemma electron_tag_is_fatal :
  In kEl [kEl; kKa; kPi; kPr] /\
  getTPCPostCalib Sample.hMean Sample.hSigma Sample.track kEl
  = Fatal "Wrong PID Species be selected, please check!".
Proof. split; [left; reflexivity|reflexivity]. Qed.

End PIDCalibration.

(** ** The single-track classifier *)

Module SingleTrack.
Import hffilters.

(** C7: a track whose TPC proton deviation, post-calibrated when asked
    for, is within the TPC threshold in absolute value and that has no TOF
    measurement is accepted by [isSelectedProton4CharmBaryons]; with a TOF
    measurement the verdict is that of the TOF threshold.  The TOF
    deviation is compared only when the measurement exists. *)
Theorem proton_without_TOF_accepted (track : Track.t)
    (nsigmaTPCProtonLc nsigmaTOFProtonLc : float) (computeTPCPostCalib : bool)
    (hMapProtonMean hMapProtonSigma : TH3F.t) (NSigmaTPC : float) :
  (if computeTPCPostCalib
   then getTPCPostCalib hMapProtonMean hMapProtonSigma track kPr
   else Ok (Track.tpcNSigmaPr track)) = Ok NSigmaTPC ->
  (abs NSigmaTPC <=? nsigmaTPCProtonLc)%float = true ->
  (Track.hasTOF track = false ->
   isSelectedProton4CharmBaryons track nsigmaTPCProtonLc nsigmaTOFProtonLc
     computeTPCPostCalib hMapProtonMean hMapProtonSigma = Ok true) /\
  (Track.hasTOF track = true ->
   isSelectedProton4CharmBaryons track nsigmaTPCProtonLc nsigmaTOFProtonLc
     computeTPCPostCalib hMapProtonMean hMapProtonSigma
   = Ok (negb (abs (Track.tofNSigmaPr track) >? nsigmaTOFProtonLc)%float)).
Proof.
  intros HTPC Hwithin. apply FpFacts.leb_not_gtb in Hwithin.
  unfold isSelectedProton4CharmBaryons. rewrite HTPC. cbn [bind]. rewrite Hwithin.
  split; intros ->; cbn [andb]; [reflexivity|].
  destruct (abs (Track.tofNSigmaPr track) >? nsigmaTOFProtonLc)%float; reflexivity.
Qed.

(** The sample track has no TOF measurement, a raw TPC proton deviation of
    1.5 and a post-calibrated one of 0.5; its TOF deviation of 40 is far
    beyond the TOF threshold of 3 and is not looked at. *)
Lemma proton_without_TOF_accepted_witness :
  isSelectedProton4CharmBaryons Sample.track 3 3 false Sample.hMean Sample.hSigma = Ok true /\
  isSelectedProton4CharmBaryons Sample.track 3 3 true Sample.hMean Sample.hSigma = Ok true.
Proof.
  split.
  - apply (proton_without_TOF_accepted Sample.track 3 3 false Sample.hMean Sample.hSigma
             1.5%float); reflexivity.
  - apply (proton_without_TOF_accepted Sample.track 3 3 true Sample.hMean Sample.hSigma
             0.5%float); reflexivity.
Defined.

End SingleTrack.

(** ** QA histograms do not decide the selection *)

Module QAIndependence.
Import Bits hffilters.

Section WithRecoDecay.
Variable RD : RecoDecay.t.

(** One mass hypothesis of a tagger: whether the bit is set does not depend
    on the filling of the histogram. *)
Ltac same_verdict :=
  intros;
  repeat match goal with
         | |- context [TESTBIT ?sel ?i] => destruct (TESTBIT sel i)
         end;
  cbv zeta; cbv beta iota;
  repeat match goal with
         | |- context [(abs ?x <? ?d)%float] => destruct (abs x <? d)%float
         | |- context [(abs ?x >? ?d)%float] => destruct (abs x >? d)%float
         end;
  reflexivity.

Lemma isSelectedD0InMassRange_QA pPos pNeg ptD isSelected delta
    (activateQA activateQA' : Z) (h h' : QA.HistPtr) (reg reg' : QA.Registry) :
  fst (isSelectedD0InMassRange RD pPos pNeg ptD isSelected delta activateQA h reg)
  = fst (isSelectedD0InMassRange RD pPos pNeg ptD isSelected delta activateQA' h' reg').
Proof. unfold isSelectedD0InMassRange. same_verdict. Qed.

Lemma isSelectedDplusInMassRange_QA pFirst pSecond pOpposite ptD delta
    (activateQA activateQA' : Z) (h h' : QA.HistPtr) (reg reg' : QA.Registry) :
  fst (isSelectedDplusInMassRange RD pFirst pSecond pOpposite ptD delta activateQA h reg)
  = fst (isSelectedDplusInMassRange RD pFirst pSecond pOpposite ptD delta activateQA' h' reg').
Proof. unfold isSelectedDplusInMassRange. same_verdict. Qed.

Lemma isSelectedDsInMassRange_QA pFirst pSecond pOpposite ptD isSelected delta
    (activateQA activateQA' : Z) (h h' : QA.HistPtr) (reg reg' : QA.Registry) :
  fst (isSelectedDsInMassRange RD pFirst pSecond pOpposite ptD isSelected delta activateQA h reg)
  = fst (isSelectedDsInMassRange RD pFirst pSecond pOpposite ptD isSelected delta activateQA' h' reg').
Proof. unfold isSelectedDsInMassRange. same_verdict. Qed.

Lemma isSelectedLcInMassRange_QA pFirst pSecond pOpposite ptLc isSelected delta
    (activateQA activateQA' : Z) (h h' : QA.HistPtr) (reg reg' : QA.Registry) :
  fst (isSelectedLcInMassRange RD pFirst pSecond pOpposite ptLc isSelected delta activateQA h reg)
  = fst (isSelectedLcInMassRange RD pFirst pSecond pOpposite ptLc isSelected delta activateQA' h' reg').
Proof. unfold isSelectedLcInMassRange. same_verdict. Qed.

Lemma isSelectedXicInMassRange_QA pFirst pSecond pOpposite ptXic isSelected delta
    (activateQA activateQA' : Z) (h h' : QA.HistPtr) (reg reg' : QA.Registry) :
  fst (isSelectedXicInMassRange RD pFirst pSecond pOpposite ptXic isSelected delta activateQA h reg)
  = fst (isSelectedXicInMassRange RD pFirst pSecond pOpposite ptXic isSelected delta activateQA' h' reg').
Proof. unfold isSelectedXicInMassRange. same_verdict. Qed.

End WithRecoDecay.

Lemma isSelectedProton4Femto_QA track femtoMinProtonPt femtoMaxNsigmaProton
    femtoProtonOnlyTOF computeTPCPostCalib hMapProtonMean hMapProtonSigma
    (activateQA activateQA' : Z) (hTPC hTOF hTPC' hTOF' : QA.HistPtr)
    (reg reg' : QA.Registry) :
  value_of fst (isSelectedProton4Femto track femtoMinProtonPt femtoMaxNsigmaProton
                  femtoProtonOnlyTOF computeTPCPostCalib hMapProtonMean hMapProtonSigma
                  activateQA hTPC hTOF reg)
  = value_of fst (isSelectedProton4Femto track femtoMinProtonPt femtoMaxNsigmaProton
                    femtoProtonOnlyTOF computeTPCPostCalib hMapProtonMean hMapProtonSigma
                    activateQA' hTPC' hTOF' reg').
Proof.
  unfold isSelectedProton4Femto.
  destruct (Track.pt track <? femtoMinProtonPt)%float; [reflexivity|].
  destruct (abs (Track.eta track) >? 0.8)%float; [reflexivity|].
  destruct (negb (Track.isGlobalTrack track =? 1)); [reflexivity|].
  cbv zeta.
  destruct (if computeTPCPostCalib
            then getTPCPostCalib hMapProtonMean hMapProtonSigma track kPr
            else Ok (Track.tpcNSigmaPr track)) as [NSigmaTPC|msg]; [|reflexivity].
  cbn [bind].
  match goal with
  | |- context [(?x >? femtoMaxNsigmaProton)%float] =>
      destruct (x >? femtoMaxNsigmaProton)%float
  end; reflexivity.
Qed.

Lemma isSelectedGamma_QA gamma gammaCosinePA (activateQA activateQA' : Z)
    (hSel hEtaB hEtaA hArmB hArmA hSel' hEtaB' hEtaA' hArmB' hArmA' : QA.HistPtr)
    (reg reg' : QA.Registry) :
  fst (isSelectedGamma gamma gammaCosinePA activateQA hSel hEtaB hEtaA hArmB hArmA reg)
  = fst (isSelectedGamma gamma gammaCosinePA activateQA' hSel' hEtaB' hEtaA' hArmB' hArmA' reg').
Proof.
  unfold isSelectedGamma. cbv zeta.
  destruct (abs (Gamma.eta gamma) >? 0.8)%float; [reflexivity|].
  destruct ((Gamma.v0radius gamma <? 0) || (Gamma.v0radius gamma >? 180))%float;
    [reflexivity|].
  destruct (Fp.pow2 (Gamma.alpha gamma / 0.95) + Fp.pow2 (Gamma.qtarm gamma / 0.05) >=? 1)%float;
    [reflexivity|].
  destruct (abs (Gamma.psipair gamma) >? 0.1)%float; [reflexivity|].
  destruct (gammaCosinePA <? 0.85)%float; reflexivity.
Qed.

(** With the flag set the histogram is filled, with the flag at zero it is
    not; the mask is the same. *)
Example isSelectedD0InMassRange_fills :
  let p := (1%float, 0%float, 0%float) in
  isSelectedD0InMassRange Sample.reco p p 2 1 0.05 1 1%positive ∅
  = (1, {[ 1%positive := [[2%float; 1.8648%float]] ]}) /\
  isSelectedD0InMassRange Sample.reco p p 2 1 0.05 0 1%positive ∅ = (1, ∅).
Proof. split; vm_compute; reflexivity. Qed.

(** C9: for each selection helper with a QA flag (the five mass-window
    taggers, [isSelectedProton4Femto] and [isSelectedGamma]) two runs on the
    same track or candidate that differ in the flag [activateQA], in the
    histograms pointed to and in their contents answer the same mask or
    verdict. *)
Theorem QA_does_not_decide_selection (RD : RecoDecay.t)
    (activateQA activateQA' : Z) (reg reg' : QA.Registry)
    (h1 h2 h3 h4 h5 h1' h2' h3' h4' h5' : QA.HistPtr) :
  (forall pPos pNeg ptD isSelected delta,
     fst (isSelectedD0InMassRange RD pPos pNeg ptD isSelected delta activateQA h1 reg)
     = fst (isSelectedD0InMassRange RD pPos pNeg ptD isSelected delta activateQA' h1' reg')) /\
  (forall pFirst pSecond pOpposite ptD delta,
     fst (isSelectedDplusInMassRange RD pFirst pSecond pOpposite ptD delta activateQA h1 reg)
     = fst (isSelectedDplusInMassRange RD pFirst pSecond pOpposite ptD delta activateQA' h1' reg')) /\
  (forall pFirst pSecond pOpposite ptD isSelected delta,
     fst (isSelectedDsInMassRange RD pFirst pSecond pOpposite ptD isSelected delta activateQA h1 reg)
     = fst (isSelectedDsInMassRange RD pFirst pSecond pOpposite ptD isSelected delta activateQA' h1' reg')) /\
  (forall pFirst pSecond pOpposite ptLc isSelected delta,
     fst (isSelectedLcInMassRange RD pFirst pSecond pOpposite ptLc isSelected delta activateQA h1 reg)
     = fst (isSelectedLcInMassRange RD pFirst pSecond pOpposite ptLc isSelected delta activateQA' h1' reg')) /\
  (forall pFirst pSecond pOpposite ptXic isSelected delta,
     fst (isSelectedXicInMassRange RD pFirst pSecond pOpposite ptXic isSelected delta activateQA h1 reg)
     = fst (isSelectedXicInMassRange RD pFirst pSecond pOpposite ptXic isSelected delta activateQA' h1' reg')) /\
  (forall track femtoMinProtonPt femtoMaxNsigmaProton femtoProtonOnlyTOF
          computeTPCPostCalib hMapProtonMean hMapProtonSigma,
     value_of fst (isSelectedProton4Femto track femtoMinProtonPt femtoMaxNsigmaProton
                     femtoProtonOnlyTOF computeTPCPostCalib hMapProtonMean hMapProtonSigma
                     activateQA h1 h2 reg)
     = value_of fst (isSelectedProton4Femto track femtoMinProtonPt femtoMaxNsigmaProton
                       femtoProtonOnlyTOF computeTPCPostCalib hMapProtonMean hMapProtonSigma
                       activateQA' h1' h2' reg')) /\
  (forall gamma gammaCosinePA,
     fst (isSelectedGamma gamma gammaCosinePA activateQA h1 h2 h3 h4 h5 reg)
     = fst (isSelectedGamma gamma gammaCosinePA activateQA' h1' h2' h3' h4' h5' reg')).
Proof.
  split; [|split; [|split; [|split; [|split; [|split]]]]]; intros.
  - apply isSelectedD0InMassRange_QA.
  - apply isSelectedDplusInMassRange_QA.
  - apply isSelectedDsInMassRange_QA.
  - apply isSelectedLcInMassRange_QA.
  - apply isSelectedXicInMassRange_QA.
  - apply isSelectedProton4Femto_QA.
  - apply isSelectedGamma_QA.
Qed.

End QAIndependence.

(** ** The independent-candidate counter *)

Module CandidateCounter.
Import hffilters Notions.

(** *** The scan for a shared daughter *)

Lemma scanSecond_existsb (first : Z) (second : list Z) (hasOverlap : bool) :
  scanSecond first second hasOverlap = existsb (Z.eqb first) second || hasOverlap.
Proof.
  induction second as [|idx rest IH]; cbn; [reflexivity|].
  destruct (first =? idx); [reflexivity|exact IH].
Qed.

Lemma scanFirst_from (first second : list Z) (hasOverlap : bool) :
  fold_left (fun hasOverlap idx => scanSecond idx second hasOverlap) first hasOverlap
  = hasOverlap || existsb (fun idx => existsb (Z.eqb idx) second) first.
Proof.
  revert hasOverlap. induction first as [|idx rest IH]; intros hasOverlap; cbn.
  - now rewrite orb_false_r.
  - rewrite IH, scanSecond_existsb.
    destruct (existsb (Z.eqb idx) second), hasOverlap; reflexivity.
Qed.

(** [hasOverlap] ends up true exactly when the candidates share a daughter. *)
Lemma scanFirst_shares (first second : list Z) :
  scanFirst first second = true <-> shares_daughter first second.
Proof.
  unfold scanFirst, shares_daughter. rewrite scanFirst_from. cbn [orb].
  rewrite existsb_exists. split.
  - intros (idx & Hin & Hex). apply existsb_exists in Hex as (idx' & Hin' & E).
    apply Z.eqb_eq in E. subst idx'. eauto.
  - intros (idx & Hin & Hin'). exists idx. split; [assumption|].
    apply existsb_exists. exists idx. split; [assumption|apply Z.eqb_refl].
Qed.

(** *** The count for one candidate *)

Lemma count_from (indices : list (list Z)) (iCand : nat) (seconds : list nat)
    (nIndependent : Z) :
  fold_left
    (fun nIndependent iCandSecond =>
       if (iCand =? iCandSecond)%nat then nIndependent
       else
         let hasOverlap := scanFirst (nth iCand indices []) (nth iCandSecond indices []) in
         if negb hasOverlap then nIndependent + 1 else nIndependent)
    seconds nIndependent
  = nIndependent + Z.of_nat (List.length (List.filter (counted indices iCand) seconds)).
Proof.
  revert nIndependent. induction seconds as [|j rest IH]; intros nIndependent; cbn.
  - lia.
  - rewrite IH. unfold counted at 2.
    destruct (iCand =? j)%nat; cbn; [reflexivity|].
    destruct (scanFirst (nth iCand indices []) (nth j indices [])); cbn; lia.
Qed.

Lemma countIndependent_filter (indices : list (list Z)) (iCand : nat) :
  countIndependent indices iCand
  = Z.of_nat (List.length (List.filter (counted indices iCand)
                             (seq 0 (List.length indices)))).
Proof. unfold countIndependent. now rewrite count_from. Qed.

Lemma countIndependent_nonneg (indices : list (list Z)) (iCand : nat) :
  0 <= countIndependent indices iCand.
Proof. rewrite countIndependent_filter. lia. Qed.

Lemma countIndependent_zero (indices : list (list Z)) (iCand : nat) :
  countIndependent indices iCand = 0 <->
  forall iCandSecond, (iCandSecond < List.length indices)%nat ->
                      counted indices iCand iCandSecond = false.
Proof.
  rewrite countIndependent_filter. split.
  - intros H j Hj.
    destruct (counted indices iCand j) eqn:E; [|reflexivity].
    assert (Hin : In j (List.filter (counted indices iCand) (seq 0 (List.length indices)))).
    { apply filter_In. split; [apply in_seq; lia|assumption]. }
    destruct (List.filter (counted indices iCand) (seq 0 (List.length indices)));
      [destruct Hin|cbn in H; lia].
  - intros H.
    destruct (List.filter (counted indices iCand) (seq 0 (List.length indices)))
      as [|j rest] eqn:E; [reflexivity|].
    assert (Hin : In j (List.filter (counted indices iCand) (seq 0 (List.length indices))))
      by (rewrite E; left; reflexivity).
    apply filter_In in Hin as [Hseq Hc]. apply in_seq in Hseq.
    rewrite H in Hc by lia. discriminate.
Qed.

(** *** The vector of counts, sorted *)

Lemma push_back_map (indices : list (list Z)) (cands : list nat) (acc : list Z) :
  fold_left (fun numIndependentCand iCand =>
               numIndependentCand ++ [countIndependent indices iCand]) cands acc
  = acc ++ List.map (countIndependent indices) cands.
Proof.
  revert acc. induction cands as [|i rest IH]; intros acc; cbn.
  - now rewrite app_nil_r.
  - rewrite IH, <- app_assoc. reflexivity.
Qed.

Lemma In_insert_sorted (x y : Z) (l : list Z) :
  In y (insert_sorted x l) <-> y = x \/ In y l.
Proof.
  induction l as [|z rest IH]; cbn.
  - intuition.
  - destruct (x <=? z); cbn; [intuition|]. rewrite IH. intuition.
Qed.

Lemma In_sort (y : Z) (l : list Z) : In y (sort l) <-> In y l.
Proof.
  induction l as [|x rest IH]; cbn; [reflexivity|].
  rewrite In_insert_sorted, IH. intuition.
Qed.

Lemma insert_sorted_ascending (x : Z) (l : list Z) :
  ascending l -> ascending (insert_sorted x l).
Proof.
  induction 1 as [|z rest Hrest IH Hz]; cbn.
  - constructor; [constructor|]. intros y [].
  - destruct (Z.leb_spec x z) as [Hle|Hlt].
    + constructor; [now constructor|].
      intros y [<-|Hin]; [assumption|]. specialize (Hz y Hin). lia.
    + constructor; [assumption|].
      intros y Hin. apply In_insert_sorted in Hin as [->|Hin]; [lia|now apply Hz].
Qed.

Lemma sort_ascending (l : list Z) : ascending (sort l).
Proof.
  induction l as [|x rest IH]; cbn; [constructor|now apply insert_sorted_ascending].
Qed.

Lemma last_In (l : list Z) (d : Z) : l <> [] -> In (List.last l d) l.
Proof.
  induction l as [|x [|y rest] IH]; intros Hne; [contradiction|now left|].
  right. apply IH. discriminate.
Qed.

Lemma ascending_last (l : list Z) (d : Z) :
  ascending l -> forall y, In y l -> y <= List.last l d.
Proof.
  induction 1 as [|x rest Hrest IH Hx]; intros y Hin; [destruct Hin|].
  destruct rest as [|z rest'].
  - destruct Hin as [<-|[]]. cbn. lia.
  - change (List.last (x :: z :: rest') d) with (List.last (z :: rest') d).
    destruct Hin as [<-|Hin]; [|now apply IH].
    apply Hx. apply last_In. discriminate.
Qed.

(** [back()] of the sorted vector is its greatest element. *)
Lemma back_of_sort (l : list Z) :
  l <> [] ->
  In (List.last (sort l) 0) l /\ forall y, In y l -> y <= List.last (sort l) 0.
Proof.
  intros Hne. split.
  - apply In_sort, last_In. destruct l as [|x rest]; [contradiction|].
    change (sort (x :: rest)) with (insert_sorted x (sort rest)). intros E.
    assert (Hin : In x (insert_sorted x (sort rest))) by (apply In_insert_sorted; now left).
    rewrite E in Hin. destruct Hin.
  - intros y Hin. apply ascending_last; [apply sort_ascending|now apply In_sort].
Qed.

(** *** The result *)

Lemma counted_false (indices : list (list Z)) (iCand iCandSecond : nat) first second :
  nth_error indices iCand = Some first ->
  nth_error indices iCandSecond = Some second ->
  (counted indices iCand iCandSecond = false <->
   iCand = iCandSecond \/ shares_daughter first second).
Proof.
  intros Hi Hj. unfold counted.
  rewrite (nth_error_nth _ _ _ Hi), (nth_error_nth _ _ _ Hj).
  rewrite <- scanFirst_shares.
  destruct (Nat.eqb_spec iCand iCandSecond); cbn; [tauto|].
  destruct (scanFirst first second); cbn; intuition congruence.
Qed.

(** With two candidates or more, the greatest count decides. *)
Lemma computeNumberOfCandidates_many (indices : list (list Z)) :
  (2 <= List.length indices)%nat ->
  computeNumberOfCandidates indices
  = if List.last (sort (List.map (countIndependent indices)
                          (seq 0 (List.length indices)))) 0 =? 0
    then 0 else 2.
Proof.
  intros Hlen. unfold computeNumberOfCandidates.
  destruct (Nat.ltb_spec (List.length indices) 2) as [Hlt|_]; [lia|].
  cbv zeta. rewrite push_back_map. cbn [app].
  destruct (Z.eqb_spec (List.last (sort (List.map (countIndependent indices)
                                           (seq 0 (List.length indices)))) 0) 0);
    [assumption|reflexivity].
Qed.

Lemma counts_nonempty (indices : list (list Z)) :
  (2 <= List.length indices)%nat ->
  List.map (countIndependent indices) (seq 0 (List.length indices)) <> [].
Proof.
  intros Hlen E. apply (f_equal (@List.length Z)) in E.
  rewrite length_map, length_seq in E. cbn in E. lia.
Qed.

(** C6: [computeNumberOfCandidates] answers the number of candidates when
    there are fewer than two; otherwise 0 when every candidate shares a
    daughter index with every other candidate, and 2 when some candidate
    shares no daughter index with some other candidate.  On [{1,2},{1,3}]
    it answers 0, on [{1,2},{3,4}] 2, on [{1,2}] 1 and on the empty list 0. *)
Theorem computeNumberOfCandidates_spec :
  (forall indices, (List.length indices < 2)%nat ->
     computeNumberOfCandidates indices = Z.of_nat (List.length indices)) /\
  (forall indices, (2 <= List.length indices)%nat -> all_share indices ->
     computeNumberOfCandidates indices = 0) /\
  (forall indices, (2 <= List.length indices)%nat -> some_independent indices ->
     computeNumberOfCandidates indices = 2) /\
  computeNumberOfCandidates [[1; 2]; [1; 3]] = 0 /\
  computeNumberOfCandidates [[1; 2]; [3; 4]] = 2 /\
  computeNumberOfCandidates [[1; 2]] = 1 /\
  computeNumberOfCandidates [] = 0.
Proof.
  split; [|split; [|split; [|repeat split; reflexivity]]].
  - intros indices Hlen. unfold computeNumberOfCandidates.
    destruct (Nat.ltb_spec (List.length indices) 2); [reflexivity|lia].
  - intros indices Hlen Hall. rewrite computeNumberOfCandidates_many by assumption.
    destruct (back_of_sort _ (counts_nonempty indices Hlen)) as [Hin _].
    apply in_map_iff in Hin as (iCand & <- & Hseq). apply in_seq in Hseq.
    assert (Hzero : countIndependent indices iCand = 0).
    { apply countIndependent_zero. intros j Hj.
      destruct (nth_error indices iCand) as [first|] eqn:Ei;
        [|apply nth_error_None in Ei; lia].
      destruct (nth_error indices j) as [second|] eqn:Ej;
        [|apply nth_error_None in Ej; lia].
      apply (counted_false indices iCand j first second Ei Ej).
      destruct (Nat.eq_dec iCand j); [now left|right]. now apply (Hall iCand j). }
    now rewrite Hzero.
  - intros indices Hlen (iCand & j & first & second & Hne & Ei & Ej & Hno).
    rewrite computeNumberOfCandidates_many by assumption.
    destruct (back_of_sort _ (counts_nonempty indices Hlen)) as [_ Hmax].
    assert (Hi : (iCand < List.length indices)%nat)
      by (apply nth_error_Some; congruence).
    assert (Hj : (j < List.length indices)%nat)
      by (apply nth_error_Some; congruence).
    assert (Hpos : countIndependent indices iCand <> 0).
    { intros Hzero. rewrite countIndependent_zero in Hzero.
      specialize (Hzero j Hj).
      apply (counted_false indices iCand j first second Ei Ej) in Hzero.
      tauto. }
    pose proof (countIndependent_nonneg indices iCand) as Hge.
    specialize (Hmax (countIndependent indices iCand)).
    destruct (Z.eqb_spec (List.last (sort (List.map (countIndependent indices)
                                             (seq 0 (List.length indices)))) 0) 0)
      as [E|_]; [|reflexivity].
    rewrite E in Hmax.
    assert (countIndependent indices iCand <= 0).
    { apply Hmax. apply in_map_iff. exists iCand. split; [reflexivity|].
      apply in_seq. lia. }
    lia.
Qed.

End CandidateCounter.

(** ** Femtoscopy kinematics *)

Module FemtoKinematics.
Import ROOTMath femto Notions.
#[local] Open Scope R_scope.

Section Rotation.
Variable A : Matrix3.
Hypothesis A_rotation : is_rotation A.

(** A rotation keeps scalar products. *)
Lemma dot_apply (u v : Vec3) : dot (apply A u) (apply A v) = dot u v.
Proof.
  destruct A_rotation as (H11 & H22 & H33 & H12 & H13 & H23 & _).
  destruct u as [[u1 u2] u3], v as [[v1 v2] v3]. unfold dot, apply.
  transitivity
    ((r11 A * r11 A + r21 A * r21 A + r31 A * r31 A) * (u1 * v1)
     + (r12 A * r12 A + r22 A * r22 A + r32 A * r32 A) * (u2 * v2)
     + (r13 A * r13 A + r23 A * r23 A + r33 A * r33 A) * (u3 * v3)
     + (r11 A * r12 A + r21 A * r22 A + r31 A * r32 A) * (u1 * v2 + u2 * v1)
     + (r11 A * r13 A + r21 A * r23 A + r31 A * r33 A) * (u1 * v3 + u3 * v1)
     + (r12 A * r13 A + r22 A * r23 A + r32 A * r33 A) * (u2 * v3 + u3 * v2)).
  - ring.
  - rewrite H11, H22, H33, H12, H13, H23. ring.
Qed.

Lemma P2_dot (v : PxPyPzMVector) : P2 v = dot (momentum v) (momentum v).
Proof. reflexivity. Qed.

Lemma momentum_turned (v : PxPyPzMVector) :
  momentum (turned A v) = apply A (momentum v).
Proof. unfold turned. destruct (apply A (momentum v)) as [[x y] z]. reflexivity. Qed.

Lemma fM_turned (v : PxPyPzMVector) : fM (turned A v) = fM v.
Proof. unfold turned. destruct (apply A (momentum v)) as [[x y] z]. reflexivity. Qed.

Lemma P2_turned (v : PxPyPzMVector) : P2 (turned A v) = P2 v.
Proof. rewrite !P2_dot, momentum_turned. apply dot_apply. Qed.

Lemma P_turned (v : PxPyPzMVector) : P (turned A v) = P v.
Proof. unfold P. now rewrite P2_turned. Qed.

Lemma E_turned (v : PxPyPzMVector) : E (turned A v) = E v.
Proof. unfold E, E2, M2. now rewrite P2_turned, fM_turned. Qed.

Lemma turned_mk (x y z m : R) :
  turned A (mkPxPyPzM x y z m)
  = mkPxPyPzM (r11 A * x + r12 A * y + r13 A * z)
              (r21 A * x + r22 A * y + r23 A * z)
              (r31 A * x + r32 A * y + r33 A * z) m.
Proof. reflexivity. Qed.

(** The squared length of a turned three-vector. *)
Lemma norm_apply (x y z : R) :
  (r11 A * x + r12 A * y + r13 A * z) * (r11 A * x + r12 A * y + r13 A * z)
  + (r21 A * x + r22 A * y + r23 A * z) * (r21 A * x + r22 A * y + r23 A * z)
  + (r31 A * x + r32 A * y + r33 A * z) * (r31 A * x + r32 A * y + r33 A * z)
  = x * x + y * y + z * z.
Proof. exact (dot_apply (x, y, z) (x, y, z)). Qed.

(** The constructor commutes with the rotation of the momentum. *)
Lemma new_turned (px py pz m : R) :
  PxPyPzMVector_new (r11 A * px + r12 A * py + r13 A * pz)
                    (r21 A * px + r22 A * py + r23 A * pz)
                    (r31 A * px + r32 A * py + r33 A * pz) m
  = turned A (PxPyPzMVector_new px py pz m).
Proof.
  unfold PxPyPzMVector_new. rewrite <- !turned_mk.
  rewrite P2_turned, P_turned.
  destruct (Rle_dec 0 m); [reflexivity|].
  destruct (Rlt_dec (P2 (mkPxPyPzM px py pz m) - m * m) 0); reflexivity.
Qed.

Lemma SetXYZT_turned (x y z t : R) :
  SetXYZT (r11 A * x + r12 A * y + r13 A * z)
          (r21 A * x + r22 A * y + r23 A * z)
          (r31 A * x + r32 A * y + r33 A * z) t
  = turned A (SetXYZT x y z t).
Proof.
  unfold SetXYZT. rewrite turned_mk. f_equal.
  replace (t * t
           - (r11 A * x + r12 A * y + r13 A * z) * (r11 A * x + r12 A * y + r13 A * z)
           - (r21 A * x + r22 A * y + r23 A * z) * (r21 A * x + r22 A * y + r23 A * z)
           - (r31 A * x + r32 A * y + r33 A * z) * (r31 A * x + r32 A * y + r33 A * z))
    with (t * t - x * x - y * y - z * z); [reflexivity|].
  pose proof (norm_apply x y z) as N. lra.
Qed.

Lemma SetXYZT_ext (x y z t x' y' z' t' : R) :
  x = x' -> y = y' -> z = z' -> t = t' -> SetXYZT x y z t = SetXYZT x' y' z' t'.
Proof. now intros -> -> -> ->. Qed.

Lemma fX_turned (v : PxPyPzMVector) :
  fX (turned A v) = r11 A * fX v + r12 A * fY v + r13 A * fZ v.
Proof. reflexivity. Qed.

Lemma fY_turned (v : PxPyPzMVector) :
  fY (turned A v) = r21 A * fX v + r22 A * fY v + r23 A * fZ v.
Proof. reflexivity. Qed.

Lemma fZ_turned (v : PxPyPzMVector) :
  fZ (turned A v) = r31 A * fX v + r32 A * fY v + r33 A * fZ v.
Proof. reflexivity. Qed.

(** Sums and differences commute with the rotation. *)
Lemma add_turned (a b : PxPyPzMVector) :
  add (turned A a) (turned A b) = turned A (add a b).
Proof.
  unfold add. rewrite <- SetXYZT_turned, !E_turned, !fX_turned, !fY_turned, !fZ_turned.
  apply SetXYZT_ext; ring.
Qed.

Lemma sub_turned (a b : PxPyPzMVector) :
  sub (turned A a) (turned A b) = turned A (sub a b).
Proof.
  unfold sub. rewrite <- SetXYZT_turned, !E_turned, !fX_turned, !fY_turned, !fZ_turned.
  apply SetXYZT_ext; ring.
Qed.

(** The velocity of the boost to the rest frame turns with the vector. *)
Lemma BoostToCM_turned (v : PxPyPzMVector) :
  BoostToCM (turned A v) = apply A (BoostToCM v).
Proof.
  unfold BoostToCM. rewrite E_turned, P2_turned, fX_turned, fY_turned, fZ_turned.
  destruct (Req_dec_T (E v) 0) as [E0|E0]; [destruct (Req_dec_T (P2 v) 0)|];
    unfold apply, Rdiv; (f_equal; [f_equal|]); ring.
Qed.

(** The boost of a turned velocity, applied to a turned vector, is the
    boosted vector turned; and no boost is set for the one exactly when
    none is set for the other. *)
Lemma Boost_new_turned (beta : Vec3) :
  match Boost_new beta with
  | None => Boost_new (apply A beta) = None
  | Some b =>
      exists b', Boost_new (apply A beta) = Some b' /\
                 forall v, Boost_apply b' (turned A v) = turned A (Boost_apply b v)
  end.
Proof.
  destruct beta as [[bx by_] bz]. cbv [Boost_new apply]. rewrite norm_apply.
  destruct (Rle_dec 1 (bx * bx + by_ * by_ + bz * bz)); [reflexivity|].
  generalize (1 / sqrt (1 - (bx * bx + by_ * by_ + bz * bz))). intros gamma.
  generalize (gamma * gamma / (1 + gamma)). intros bgamma.
  eexists. split; [reflexivity|]. intros v.
  unfold Boost_apply. cbv [kXX kXY kXZ kXT kYY kYZ kYT kZZ kZT kTT].
  rewrite <- SetXYZT_turned, E_turned, fX_turned, fY_turned, fZ_turned.
  pose proof (dot_apply (bx, by_, bz) (fX v, fY v, fZ v)) as HD.
  cbv [dot apply] in HD.
  match type of HD with
  | ?D' = ?D =>
      apply SetXYZT_ext;
        [ transitivity
            ((r11 A * fX v + r12 A * fY v + r13 A * fZ v)
             + bgamma * (r11 A * bx + r12 A * by_ + r13 A * bz) * D'
             + gamma * (r11 A * bx + r12 A * by_ + r13 A * bz) * E v)
        | transitivity
            ((r21 A * fX v + r22 A * fY v + r23 A * fZ v)
             + bgamma * (r21 A * bx + r22 A * by_ + r23 A * bz) * D'
             + gamma * (r21 A * bx + r22 A * by_ + r23 A * bz) * E v)
        | transitivity
            ((r31 A * fX v + r32 A * fY v + r33 A * fZ v)
             + bgamma * (r31 A * bx + r32 A * by_ + r33 A * bz) * D'
             + gamma * (r31 A * bx + r32 A * by_ + r33 A * bz) * E v)
        | transitivity (gamma * D' + gamma * E v) ]
  end;
  first [ ring | rewrite HD; ring ].
Qed.

(** Turning both momenta by the rotation leaves the result as it is. *)
Lemma computeRelativeMomentum_turned (massProton : R) (track CharmCandMomentum : Vec3)
    (CharmMass : R) :
  computeRelativeMomentum massProton (apply A track) (apply A CharmCandMomentum) CharmMass
  = computeRelativeMomentum massProton track CharmCandMomentum CharmMass.
Proof.
  destruct track as [[px py] pz], CharmCandMomentum as [[c0 c1] c2].
  cbv [computeRelativeMomentum apply].
  rewrite !new_turned, add_turned, BoostToCM_turned.
  pose proof (Boost_new_turned
                (BoostToCM (add (PxPyPzMVector_new px py pz massProton)
                                (PxPyPzMVector_new c0 c1 c2 CharmMass)))) as HB.
  destruct (Boost_new (BoostToCM (add (PxPyPzMVector_new px py pz massProton)
                                      (PxPyPzMVector_new c0 c1 c2 CharmMass))))
    as [boostv12|].
  - destruct HB as (b' & -> & Hb). now rewrite !Hb, sub_turned, P_turned.
  - now rewrite HB.
Qed.

End Rotation.

(** *** The boost is set for physical masses *)

Lemma cauchy_schwarz (x1 x2 x3 y1 y2 y3 : R) :
  (x1 * y1 + x2 * y2 + x3 * y3) * (x1 * y1 + x2 * y2 + x3 * y3)
  <= (x1 * x1 + x2 * x2 + x3 * x3) * (y1 * y1 + y2 * y2 + y3 * y3).
Proof.
  pose proof (Rle_0_sqr (x1 * y2 - x2 * y1)) as H12.
  pose proof (Rle_0_sqr (x1 * y3 - x3 * y1)) as H13.
  pose proof (Rle_0_sqr (x2 * y3 - x3 * y2)) as H23.
  unfold Rsqr in *. nra.
Qed.

(** The energy of a vector built with a mass that is not negative. *)
Lemma E_new (px py pz m : R) :
  0 <= m ->
  let v := PxPyPzMVector_new px py pz m in
  fX v = px /\ fY v = py /\ fZ v = pz /\
  0 <= E v /\ E v * E v = px * px + py * py + pz * pz + m * m.
Proof.
  intros Hm. cbv zeta. unfold PxPyPzMVector_new.
  destruct (Rle_dec 0 m) as [_|Hn]; [|contradiction].
  repeat split; try reflexivity.
  - apply sqrt_pos.
  - unfold E, E2, M2, P2. cbn [fX fY fZ fM].
    destruct (Rle_dec 0 m) as [_|Hn]; [|contradiction].
    pose proof (Rle_0_sqr px). pose proof (Rle_0_sqr py). pose proof (Rle_0_sqr pz).
    pose proof (Rle_0_sqr m). unfold Rsqr in *.
    destruct (Rlt_dec 0 (px * px + py * py + pz * pz + m * m)) as [Hp|Hz].
    + apply sqrt_sqrt. lra.
    + rewrite sqrt_0. lra.
Qed.

(** The total energy [e] of the pair exceeds the length of its total
    momentum, and the velocity of the boost to its rest frame is minus the
    total momentum over [e]. *)
Lemma BoostToCM_pair (massProton px py pz c0 c1 c2 CharmMass : R) :
  0 < massProton -> 0 <= CharmMass ->
  let part1 := PxPyPzMVector_new px py pz massProton in
  let part2 := PxPyPzMVector_new c0 c1 c2 CharmMass in
  let e := E part1 + E part2 in
  0 < e /\
  (px + c0) * (px + c0) + (py + c1) * (py + c1) + (pz + c2) * (pz + c2) < e * e /\
  BoostToCM (add part1 part2) = (- (px + c0) / e, - (py + c1) / e, - (pz + c2) / e).
Proof.
  intros Hmp HM. cbv zeta.
  destruct (E_new px py pz massProton (Rlt_le _ _ Hmp)) as (X1 & Y1 & Z1 & E1pos & E1sq).
  destruct (E_new c0 c1 c2 CharmMass HM) as (X2 & Y2 & Z2 & E2pos & E2sq).
  set (part1 := PxPyPzMVector_new px py pz massProton) in *.
  set (part2 := PxPyPzMVector_new c0 c1 c2 CharmMass) in *.
  unfold add. rewrite X1, Y1, Z1, X2, Y2, Z2.
  set (e := E part1 + E part2) in *.
  pose proof (cauchy_schwarz px py pz c0 c1 c2) as CS.
  assert (Hprod : px * c0 + py * c1 + pz * c2 <= E part1 * E part2).
  { destruct (Rle_or_lt (px * c0 + py * c1 + pz * c2) (E part1 * E part2)) as [H|H];
      [assumption|exfalso].
    assert (0 <= E part1 * E part2) by now apply Rmult_le_pos.
    assert ((E part1 * E part2) * (E part1 * E part2)
            < (px * c0 + py * c1 + pz * c2) * (px * c0 + py * c1 + pz * c2))
      by (apply Rmult_le_0_lt_compat; lra).
    assert ((E part1 * E part2) * (E part1 * E part2)
            = (E part1 * E part1) * (E part2 * E part2)) as Esq by ring.
    rewrite Esq, E1sq, E2sq in *.
    pose proof (Rle_0_sqr massProton). pose proof (Rle_0_sqr CharmMass).
    pose proof (Rle_0_sqr px). pose proof (Rle_0_sqr py). pose proof (Rle_0_sqr pz).
    pose proof (Rle_0_sqr c0). pose proof (Rle_0_sqr c1). pose proof (Rle_0_sqr c2).
    unfold Rsqr in *. nra. }
  assert (Hmm : 0 < e * e - (px + c0) * (px + c0) - (py + c1) * (py + c1)
                    - (pz + c2) * (pz + c2)).
  { unfold e. pose proof (Rlt_0_sqr massProton ltac:(lra)) as Hsq.
    pose proof (Rle_0_sqr CharmMass). unfold Rsqr in *. nra. }
  assert (Hepos : 0 < e).
  { unfold e. destruct (Req_dec (E part1) 0) as [Z|NZ]; [|lra].
    rewrite Z in E1sq. pose proof (Rlt_0_sqr massProton ltac:(lra)) as Hsq.
    pose proof (Rle_0_sqr px). pose proof (Rle_0_sqr py). pose proof (Rle_0_sqr pz).
    unfold Rsqr in *. lra. }
  split; [assumption|]. split; [lra|].
  set (sum := SetXYZT (px + c0) (py + c1) (pz + c2) e).
  assert (HEsum : E sum = e).
  { unfold E, E2, M2, P2, sum, SetXYZT. cbn [fX fY fZ fM].
    destruct (Rle_dec 0 (e * e - (px + c0) * (px + c0) - (py + c1) * (py + c1)
                         - (pz + c2) * (pz + c2))) as [_|Hn]; [|lra].
    destruct (Rle_dec 0 (sqrt (e * e - (px + c0) * (px + c0) - (py + c1) * (py + c1)
                               - (pz + c2) * (pz + c2)))) as [_|Hn];
      [|exfalso; apply Hn, sqrt_pos].
    rewrite sqrt_sqrt by lra.
    replace ((px + c0) * (px + c0) + (py + c1) * (py + c1) + (pz + c2) * (pz + c2)
             + (e * e - (px + c0) * (px + c0) - (py + c1) * (py + c1)
                - (pz + c2) * (pz + c2))) with (e * e) by ring.
    destruct (Rlt_dec 0 (e * e)) as [_|Hn]; [|exfalso; apply Hn; nra].
    apply sqrt_square. lra. }
  unfold BoostToCM. rewrite HEsum.
  destruct (Req_dec_T e 0) as [Z|_]; [lra|reflexivity].
Qed.

(** The square of a velocity [- s / e] with [s] shorter than [e]. *)
Lemma velocity_below_one (sx sy sz e : R) :
  0 < e -> sx * sx + sy * sy + sz * sz < e * e ->
  let bp2 := - sx / e * (- sx / e) + - sy / e * (- sy / e) + - sz / e * (- sz / e) in
  0 <= bp2 < 1 /\ bp2 * (e * e) = sx * sx + sy * sy + sz * sz.
Proof.
  intros He Hs. cbv zeta.
  assert (Hinv : e * / e = 1) by (apply Rinv_r; lra).
  assert (Hipos : 0 < / e) by (apply Rinv_0_lt_compat; lra).
  assert (Heq : - sx / e * (- sx / e) + - sy / e * (- sy / e) + - sz / e * (- sz / e)
                = (sx * sx + sy * sy + sz * sz) * (/ e * / e)) by (unfold Rdiv; ring).
  rewrite Heq.
  assert (Hone : (e * e) * (/ e * / e) = 1)
    by (replace 1 with ((e * / e) * (e * / e)) by (rewrite Hinv; ring); ring).
  assert (Hii : 0 < / e * / e) by now apply Rmult_lt_0_compat.
  pose proof (Rle_0_sqr sx). pose proof (Rle_0_sqr sy). pose proof (Rle_0_sqr sz).
  unfold Rsqr in *.
  split; [split; nra|].
  replace ((sx * sx + sy * sy + sz * sz) * (/ e * / e) * (e * e))
    with ((sx * sx + sy * sy + sz * sz) * ((e * e) * (/ e * / e))) by ring.
  rewrite Hone. ring.
Qed.

(** With a proton mass above zero and a candidate mass that is not
    negative, ROOT sets the boost and the helper answers a value. *)
Lemma computeRelativeMomentum_defined (massProton : R) (track CharmCandMomentum : Vec3)
    (CharmMass : R) :
  0 < massProton -> 0 <= CharmMass ->
  exists kStar,
    computeRelativeMomentum massProton track CharmCandMomentum CharmMass = Some kStar
    /\ 0 <= kStar.
Proof.
  intros Hmp HM. destruct track as [[px py] pz], CharmCandMomentum as [[c0 c1] c2].
  cbv [computeRelativeMomentum].
  destruct (BoostToCM_pair massProton px py pz c0 c1 c2 CharmMass Hmp HM)
    as (He & Hs & ->).
  destruct (velocity_below_one _ _ _ _ He Hs) as [[_ Hlt] _].
  unfold Boost_new.
  destruct (Rle_dec 1 _) as [Hle|_]; [lra|].
  eexists. split; [reflexivity|].
  apply Rmult_le_pos; [lra|apply sqrt_pos].
Qed.

(** The frame that [boostv12] leads to is the rest frame of the pair: the
    momenta of the two boosted particles add up to zero there. *)
Lemma boost_to_rest_frame (massProton px py pz c0 c1 c2 CharmMass : R) :
  0 < massProton -> 0 <= CharmMass ->
  let part1 := PxPyPzMVector_new px py pz massProton in
  let part2 := PxPyPzMVector_new c0 c1 c2 CharmMass in
  exists boostv12,
    Boost_new (BoostToCM (add part1 part2)) = Some boostv12 /\
    fX (Boost_apply boostv12 part1) + fX (Boost_apply boostv12 part2) = 0 /\
    fY (Boost_apply boostv12 part1) + fY (Boost_apply boostv12 part2) = 0 /\
    fZ (Boost_apply boostv12 part1) + fZ (Boost_apply boostv12 part2) = 0.
Proof.
  intros Hmp HM. cbv zeta.
  destruct (BoostToCM_pair massProton px py pz c0 c1 c2 CharmMass Hmp HM)
    as (He & Hs & ->).
  destruct (velocity_below_one _ _ _ _ He Hs) as [[Hge Hlt] _].
  destruct (E_new px py pz massProton (Rlt_le _ _ Hmp)) as (X1 & Y1 & Z1 & _ & _).
  destruct (E_new c0 c1 c2 CharmMass HM) as (X2 & Y2 & Z2 & _ & _).
  set (part1 := PxPyPzMVector_new px py pz massProton) in *.
  set (part2 := PxPyPzMVector_new c0 c1 c2 CharmMass) in *.
  unfold Boost_new. destruct (Rle_dec 1 _) as [Hle|_]; [lra|].
  eexists. split; [reflexivity|].
  unfold Boost_apply, SetXYZT.
  cbv [fX fY fZ kXX kXY kXZ kXT kYY kYZ kYT kZZ kZT kTT].
  fold (fX part1) (fY part1) (fZ part1) (fX part2) (fY part2) (fZ part2).
  rewrite X1, Y1, Z1, X2, Y2, Z2.
  assert (Hww : sqrt (1 - (- (px + c0) / (E part1 + E part2) * (- (px + c0) / (E part1 + E part2))
                           + - (py + c1) / (E part1 + E part2) * (- (py + c1) / (E part1 + E part2))
                           + - (pz + c2) / (E part1 + E part2) * (- (pz + c2) / (E part1 + E part2))))
                * sqrt (1 - (- (px + c0) / (E part1 + E part2) * (- (px + c0) / (E part1 + E part2))
                             + - (py + c1) / (E part1 + E part2) * (- (py + c1) / (E part1 + E part2))
                             + - (pz + c2) / (E part1 + E part2) * (- (pz + c2) / (E part1 + E part2))))
                = 1 - (- (px + c0) / (E part1 + E part2) * (- (px + c0) / (E part1 + E part2))
                       + - (py + c1) / (E part1 + E part2) * (- (py + c1) / (E part1 + E part2))
                       + - (pz + c2) / (E part1 + E part2) * (- (pz + c2) / (E part1 + E part2))))
    by (apply sqrt_sqrt; lra).
  assert (Hwpos : 0 < sqrt (1 - (- (px + c0) / (E part1 + E part2) * (- (px + c0) / (E part1 + E part2))
                           + - (py + c1) / (E part1 + E part2) * (- (py + c1) / (E part1 + E part2))
                           + - (pz + c2) / (E part1 + E part2) * (- (pz + c2) / (E part1 + E part2)))))
    by (apply sqrt_lt_R0; lra).
  set (w := sqrt _) in *.
  assert (Hiw : w * / w = 1) by (apply Rinv_r; lra).
  assert (Hiwpos : 0 < / w) by (apply Rinv_0_lt_compat; lra).
  assert (Hj : (1 + 1 / w) * / (1 + 1 / w) = 1) by (apply Rinv_r; unfold Rdiv; lra).
  assert (Hi : (E part1 + E part2) * / (E part1 + E part2) = 1) by (apply Rinv_r; lra).
  unfold Rdiv in *.
  set (j := / (1 + 1 * / w)) in *. set (iw := / w) in *.
  set (i := / (E part1 + E part2)) in *.
  clearbody j iw i w.
  set (e1 := E part1) in *. set (e2 := E part2) in *. clearbody e1 e2.
  repeat split; nsatz.
Qed.



End FemtoKinematics.

(** ** The Dalitz pairing task *)

Module DalitzPairingFacts.
Import Bits BitsFacts dalitzPairing dalitzNotions.

(** *** Reading and writing the maps *)

Lemma at_empty (k : Z) : at_ ∅ k = 0.
Proof. unfold at_. now rewrite lookup_empty. Qed.

Lemma at_insert (m : gmap Z Z) (k k' v : Z) :
  at_ (<[k := v]> m) k' = if decide (k = k') then v else at_ m k'.
Proof.
  unfold at_. rewrite lookup_insert. destruct (decide (k = k')); reflexivity.
Qed.

Lemma subscript_fst (m : gmap Z Z) (k : Z) : fst (subscript m k) = at_ m k.
Proof. unfold subscript, at_. destruct (m !! k); reflexivity. Qed.

(** A read leaves the values of the map as they are. *)
Lemma subscript_at (m : gmap Z Z) (k k' : Z) :
  at_ (snd (subscript m k)) k' = at_ m k'.
Proof.
  unfold subscript. destruct (m !! k) eqn:E; cbn [snd]; [reflexivity|].
  rewrite at_insert. destruct (decide (k = k')) as [<-|]; [|reflexivity].
  unfold at_. now rewrite E.
Qed.

Lemma or_assign_at (m : gmap Z Z) (k k' bits : Z) :
  at_ (or_assign m k bits) k'
  = if decide (k = k') then uint8_t (Z.lor (at_ m k) bits) else at_ m k'.
Proof.
  unfold or_assign.
  pose proof (subscript_fst m k) as Hf. pose proof (subscript_at m k k') as Ha.
  destruct (subscript m k) as [v m']. cbn [fst snd] in Hf, Ha.
  rewrite at_insert, Hf, Ha. reflexivity.
Qed.

(** *** The bit of a cut *)

Lemma shiftl_uint8_one (i : Z) : Z.shiftl (uint8_t 1) i = BIT i.
Proof. reflexivity. Qed.

(** Bit [j] of [map |= uint8_t(1) << icut]. *)
Lemma testbit_set_cut (x icut j : Z) :
  0 <= icut -> 0 <= j ->
  Z.testbit (uint8_t (Z.lor x (Z.shiftl (uint8_t 1) icut))) j
  = (Z.testbit x j || (icut =? j)) && (j <? 8).
Proof.
  intros Hi Hj. rewrite testbit_uint8_t by assumption.
  now rewrite Z.lor_spec, shiftl_uint8_one, testbit_BIT.
Qed.

(** [map & (uint8_t(1) << icut)] is not zero exactly when bit [icut] is set. *)
Lemma land_cut_nonzero (x icut : Z) :
  0 <= icut ->
  (Z.land x (Z.shiftl (uint8_t 1) icut) =? 0) = negb (Z.testbit x icut).
Proof.
  intros Hi. rewrite shiftl_uint8_one.
  rewrite <- (TESTBIT_testbit x icut Hi). unfold TESTBIT.
  now rewrite negb_involutive.
Qed.

Section Task.
Context {Values : Type}.
Variable VM : VarManager.t Values.
Variable fEventCut : AnalysisCompositeCut.t Values.
Variable fTrackCuts : list (AnalysisCompositeCut.t Values).
Variable fPairCuts : list (AnalysisCompositeCut.t Values).
Variable fQA : bool.

#[local] Abbreviation trackmap_of := (trackmap_of VM fTrackCuts).
#[local] Abbreviation contributes := (contributes VM fPairCuts).
#[local] Abbreviation dalitzmap_of := (dalitzmap_of VM fTrackCuts fPairCuts).

(** *** The selection of tracks *)

(** A bit of the filter map that [selectTrack] answers was set before or
    is that of a cut that selected the variables. *)
Lemma selectTrack_testbit (cuts : list (AnalysisCompositeCut.t Values)) (i : Z)
    (values : Values) (filterMap j : Z) :
  0 <= i -> 0 <= j ->
  Z.testbit (selectTrack cuts i values filterMap) j = true ->
  Z.testbit filterMap j = true \/
  (i <= j < 8 /\
   exists cut, cuts !! Z.to_nat (j - i) = Some cut /\
               AnalysisCompositeCut.IsSelected cut values = true).
Proof.
  revert i filterMap. induction cuts as [|cut rest IH]; intros i filterMap Hi Hj Hbit.
  - now left.
  - cbn [selectTrack] in Hbit. apply IH in Hbit; [|lia|assumption].
    destruct Hbit as [Hbit|(Hrange & cut' & Hcut' & Hsel)].
    + destruct (AnalysisCompositeCut.IsSelected cut values) eqn:Hsel; [|now left].
      rewrite testbit_set_cut in Hbit by assumption.
      apply andb_true_iff in Hbit as [Hbit Hlt]. apply Z.ltb_lt in Hlt.
      apply orb_true_iff in Hbit as [Hbit|Heq]; [now left|right].
      apply Z.eqb_eq in Heq. subst j. split; [lia|].
      exists cut. rewrite Z.sub_diag. split; [reflexivity|assumption].
    + right. split; [lia|]. exists cut'. split; [|assumption].
      replace (Z.to_nat (j - i)) with (S (Z.to_nat (j - (i + 1)))) by lia.
      exact Hcut'.
Qed.

Lemma filterMapOf_testbit (track : MyBarrelTrack.t) (values : Values) (i : Z) :
  0 <= i ->
  Z.testbit (filterMapOf VM fTrackCuts track values) i = true ->
  0 <= i < 8 /\ passesTrackCut VM fTrackCuts i track.
Proof.
  intros Hi Hbit. unfold filterMapOf in Hbit.
  apply selectTrack_testbit in Hbit; [|lia|assumption].
  destruct Hbit as [Hbit|(Hrange & cut & Hcut & Hsel)].
  - change (uint8_t 0) with 0 in Hbit. now rewrite Z.bits_0 in Hbit.
  - split; [lia|]. exists cut, values. rewrite Z.sub_0_r in Hcut. now split.
Qed.

Lemma runTrackSelection_trackmap (tracksBarrel seen : list MyBarrelTrack.t)
    (st : State (Values := Values)) :
  trackmap_of seen (fTrackmap st) ->
  trackmap_of (seen ++ tracksBarrel)
    (fTrackmap (runTrackSelection VM fTrackCuts tracksBarrel st))
  /\ fDalitzmap (runTrackSelection VM fTrackCuts tracksBarrel st) = fDalitzmap st.
Proof.
  revert seen st. induction tracksBarrel as [|track rest IH]; intros seen st Hseen.
  - rewrite app_nil_r. now split.
  - unfold runTrackSelection in *. cbn [fold_left].
    match goal with
    | |- context [fold_left ?f rest ?st'] =>
        destruct (IH (seen ++ [track]) st') as [IHm IHd]
    end.
    + cbn [fTrackmap]. intros idx.
      fold (filterMapOf VM fTrackCuts track (fgValues st)).
      destruct (Z.eqb_spec (filterMapOf VM fTrackCuts track (fgValues st)) 0) as [E|E];
        cbn [negb].
      * destruct (Hseen idx) as [H0|(t & v & Hin & Hidx & Hat)]; [now left|right].
        exists t, v. split; [apply in_or_app; now left|now split].
      * rewrite at_insert. destruct (decide (MyBarrelTrack.globalIndex track = idx)) as [Hk|Hk].
        -- right. exists track, (fgValues st). split; [apply in_or_app; right; now left|].
           now split.
        -- destruct (Hseen idx) as [H0|(t & v & Hin & Hidx & Hat)]; [now left|right].
           exists t, v. split; [apply in_or_app; now left|now split].
    + rewrite <- app_assoc in IHm. cbn [app] in IHm. split; [exact IHm|exact IHd].
Qed.

(** *** The pairing *)

Lemma or_assign_testbit (d : gmap Z Z) (k icut idx j : Z) :
  0 <= icut -> 0 <= j ->
  Z.testbit (at_ (or_assign d k (Z.shiftl (uint8_t 1) icut)) idx) j = true ->
  Z.testbit (at_ d idx) j = true \/ (idx = k /\ j = icut /\ j < 8).
Proof.
  intros Hi Hj. rewrite or_assign_at.
  destruct (decide (k = idx)) as [<-|]; [|now left].
  rewrite testbit_set_cut by assumption. intros Hbit.
  apply andb_true_iff in Hbit as [Hbit Hlt]. apply Z.ltb_lt in Hlt.
  apply orb_true_iff in Hbit as [Hbit|Heq]; [now left|right].
  apply Z.eqb_eq in Heq. now subst.
Qed.

(** The loop over the pair cuts leaves the track map and the variables as
    they are, and sets a Dalitz bit only for one of the two tracks, for a
    cut whose bit is in [twoTracksFilterMap] and that selects the pair. *)
Lemma selectPair_spec (cuts : list (AnalysisCompositeCut.t Values)) (icut : Z)
    (track1 track2 : MyBarrelTrack.t) (twoTracksFilterMap : Z)
    (st : State (Values := Values)) :
  0 <= icut ->
  let st' := selectPair fTrackCuts fQA cuts icut track1 track2 twoTracksFilterMap st in
  fTrackmap st' = fTrackmap st /\
  forall idx j, 0 <= j ->
    Z.testbit (at_ (fDalitzmap st') idx) j = true ->
    Z.testbit (at_ (fDalitzmap st) idx) j = true \/
    ((idx = MyBarrelTrack.globalIndex track1 \/ idx = MyBarrelTrack.globalIndex track2) /\
     icut <= j < 8 /\ Z.testbit twoTracksFilterMap j = true /\
     exists cut, cuts !! Z.to_nat (j - icut) = Some cut /\
                 AnalysisCompositeCut.IsSelected cut (fgValues st) = true).
Proof.
  revert icut st. induction cuts as [|pairCut rest IH]; intros icut st Hi; cbv zeta.
  - split; [reflexivity|]. intros idx j Hj Hbit. now left.
  - cbn [selectPair].
    match goal with
    | |- context [selectPair _ _ rest (icut + 1) _ _ _ ?st1] =>
        set (st1' := st1);
        assert (Hst1 : fTrackmap st1' = fTrackmap st /\ fgValues st1' = fgValues st /\
                  forall idx j, 0 <= j ->
                    Z.testbit (at_ (fDalitzmap st1') idx) j = true ->
                    Z.testbit (at_ (fDalitzmap st) idx) j = true \/
                    ((idx = MyBarrelTrack.globalIndex track1
                      \/ idx = MyBarrelTrack.globalIndex track2) /\
                     j = icut /\ j < 8 /\ Z.testbit twoTracksFilterMap j = true /\
                     AnalysisCompositeCut.IsSelected pairCut (fgValues st) = true))
    end.
    { subst st1'. rewrite land_cut_nonzero by assumption.
      destruct (Z.testbit twoTracksFilterMap icut) eqn:Htwo; cbn [negb];
        [|repeat split; intros; now left].
      destruct (AnalysisCompositeCut.IsSelected pairCut (fgValues st)) eqn:Hsel;
        [|repeat split; intros; now left].
      cbn [fTrackmap fgValues fDalitzmap]. repeat split.
      intros idx j Hj Hbit.
      apply or_assign_testbit in Hbit; [|assumption|assumption].
      destruct Hbit as [Hbit|(-> & -> & Hlt)].
      - apply or_assign_testbit in Hbit; [|assumption|assumption].
        destruct Hbit as [Hbit|(-> & -> & Hlt)].
        + now left.
        + right. repeat split; try assumption. now left.
      - right. repeat split; try assumption. now right. }
    destruct Hst1 as (Hm1 & Hv1 & Hd1).
    destruct (IH (icut + 1) st1' ltac:(lia)) as [HmIH HdIH]. cbv zeta in HmIH, HdIH.
    split; [now rewrite HmIH|].
    intros idx j Hj Hbit. apply HdIH in Hbit; [|assumption].
    destruct Hbit as [Hbit|(Hidx & Hrange & Htwo & cut & Hcut & Hsel)].
    + apply Hd1 in Hbit; [|assumption].
      destruct Hbit as [Hbit|(Hidx & -> & Hlt & Htwo & Hsel)]; [now left|right].
      repeat split; try assumption; try lia.
      exists pairCut. rewrite Z.sub_diag. now split.
    + right. repeat split; try assumption; try lia.
      exists cut. rewrite Hv1 in Hsel. split; [|assumption].
      replace (Z.to_nat (j - icut)) with (S (Z.to_nat (j - (icut + 1)))) by lia.
      exact Hcut.
Qed.

Lemma pairTracks_spec (st : State (Values := Values))
    (pair : MyBarrelTrack.t * MyBarrelTrack.t) :
  let st' := pairTracks VM fTrackCuts fPairCuts fQA st pair in
  (forall idx, at_ (fTrackmap st') idx = at_ (fTrackmap st) idx) /\
  forall idx j, 0 <= j ->
    Z.testbit (at_ (fDalitzmap st') idx) j = true ->
    Z.testbit (at_ (fDalitzmap st) idx) j = true \/
    contributes (fTrackmap st) (fgValues st) pair idx j.
Proof.
  destruct pair as [track1 track2]. cbv zeta. unfold pairTracks.
  destruct (Z.gtb_spec (MyBarrelTrack.sign track1 * MyBarrelTrack.sign track2) 0)
    as [Hsame|Hsign].
  { split; [reflexivity|]. intros; now left. }
  pose proof (subscript_fst (fTrackmap st) (MyBarrelTrack.globalIndex track1)) as Hf1.
  pose proof (subscript_at (fTrackmap st) (MyBarrelTrack.globalIndex track1)) as Ha1.
  destruct (subscript (fTrackmap st) (MyBarrelTrack.globalIndex track1)) as [map1 m1].
  cbn [fst snd] in Hf1, Ha1.
  pose proof (subscript_fst m1 (MyBarrelTrack.globalIndex track2)) as Hf2.
  pose proof (subscript_at m1 (MyBarrelTrack.globalIndex track2)) as Ha2.
  destruct (subscript m1 (MyBarrelTrack.globalIndex track2)) as [map2 m2].
  cbn [fst snd] in Hf2, Ha2. rewrite Ha1 in Hf2.
  assert (Hm2 : forall idx, at_ m2 idx = at_ (fTrackmap st) idx)
    by (intros idx; now rewrite Ha2, Ha1).
  destruct (Z.eqb_spec (uint8_t (Z.land map1 map2)) 0) as [Hzero|Hnz].
  { cbn [fTrackmap fDalitzmap]. split; [exact Hm2|]. intros; now left. }
  cbn [fTrackmap fDalitzmap fgValues fHistMan fStatsList].
  match goal with
  | |- context [selectPair _ _ _ 0 _ _ _ ?st0] =>
      destruct (selectPair_spec fPairCuts 0 track1 track2 (uint8_t (Z.land map1 map2))
                  st0 ltac:(lia)) as [Hm Hd]
  end.
  cbv zeta in Hm, Hd. cbn [fTrackmap fDalitzmap fgValues] in Hm, Hd.
  split.
  - intros idx. rewrite Hm. apply Hm2.
  - intros idx j Hj Hbit. apply Hd in Hbit; [|assumption].
    destruct Hbit as [Hbit|(Hidx & Hrange & Htwo & cut & Hcut & Hsel)]; [now left|right].
    rewrite testbit_uint8_t, Z.land_spec in Htwo by assumption.
    apply andb_true_iff in Htwo as [Htwo _].
    apply andb_true_iff in Htwo as [H1 H2].
    unfold contributes. cbn [fst snd]. rewrite <- Hf1, <- Hf2.
    repeat split; try assumption; try lia.
    exists cut. rewrite Z.sub_0_r in Hcut. now split.
Qed.

Lemma contributes_ext (m m' : gmap Z Z) (values : Values)
    (pair : MyBarrelTrack.t * MyBarrelTrack.t) (idx j : Z) :
  (forall k, at_ m' k = at_ m k) ->
  contributes m values pair idx j -> contributes m' values pair idx j.
Proof.
  intros Hm (Hidx & Hsign & Hj & H1 & H2 & Hcut).
  unfold contributes. rewrite !Hm. tauto.
Qed.

(** The loop over the pairs. *)
Lemma pairs_spec (pairs : list (MyBarrelTrack.t * MyBarrelTrack.t))
    (st : State (Values := Values)) :
  let st' := fold_left (pairTracks VM fTrackCuts fPairCuts fQA) pairs st in
  (forall idx, at_ (fTrackmap st') idx = at_ (fTrackmap st) idx) /\
  forall idx j, 0 <= j ->
    Z.testbit (at_ (fDalitzmap st') idx) j = true ->
    Z.testbit (at_ (fDalitzmap st) idx) j = true \/
    exists pair values, In pair pairs /\ contributes (fTrackmap st) values pair idx j.
Proof.
  revert st. induction pairs as [|pair rest IH]; intros st; cbv zeta; cbn [fold_left].
  - split; [reflexivity|]. intros; now left.
  - destruct (pairTracks_spec st pair) as [Hm1 Hd1]. cbv zeta in Hm1, Hd1.
    destruct (IH (pairTracks VM fTrackCuts fPairCuts fQA st pair)) as [HmIH HdIH].
    cbv zeta in HmIH, HdIH. split.
    + intros idx. now rewrite HmIH, Hm1.
    + intros idx j Hj Hbit. apply HdIH in Hbit; [|assumption].
      destruct Hbit as [Hbit|(p & values & Hin & Hc)].
      * apply Hd1 in Hbit; [|assumption].
        destruct Hbit as [Hbit|Hc]; [now left|right].
        exists pair, (fgValues st). split; [now left|assumption].
      * right. exists p, values. split; [now right|].
        apply (contributes_ext _ _ _ _ _ _ (fun k => eq_sym (Hm1 k))) in Hc. exact Hc.
Qed.

(** The loops that fill the histograms leave the values of the Dalitz map
    as they are. *)
Lemma fillTrackHists_maps (cuts : list (AnalysisCompositeCut.t Values)) (icut filterMap : Z)
    (st : State (Values := Values)) :
  fDalitzmap (fillTrackHists fTrackCuts cuts icut filterMap st) = fDalitzmap st.
Proof.
  revert icut st. induction cuts as [|pairCut rest IH]; intros icut st; cbn [fillTrackHists];
    [reflexivity|].
  rewrite IH. destruct (negb _); reflexivity.
Qed.

Lemma fill_hists_spec (tracks1 : list MyBarrelTrack.t) (st : State (Values := Values)) :
  forall idx,
    at_ (fDalitzmap
           (fold_left
              (fun st track =>
                 let '(filterMap, dalitzmap) :=
                   subscript (fDalitzmap st) (MyBarrelTrack.globalIndex track) in
                 let st := mkState (fTrackmap st) dalitzmap (fgValues st)
                             (fHistMan st) (fStatsList st) in
                 if filterMap =? 0 then st
                 else
                   let st :=
                     mkState (fTrackmap st) (fDalitzmap st)
                       (VarManager.FillTrack VM track (fgValues st))
                       (fHistMan st) (fStatsList st) in
                   fillTrackHists fTrackCuts fPairCuts 0 filterMap st)
              tracks1 st)) idx
    = at_ (fDalitzmap st) idx.
Proof.
  revert st. induction tracks1 as [|track rest IH]; intros st idx; cbn [fold_left];
    [reflexivity|].
  rewrite IH.
  pose proof (subscript_at (fDalitzmap st) (MyBarrelTrack.globalIndex track) idx) as Ha.
  destruct (subscript (fDalitzmap st) (MyBarrelTrack.globalIndex track)) as [filterMap d].
  cbn [snd] in Ha. cbv zeta.
  destruct (filterMap =? 0); [exact Ha|].
  rewrite fillTrackHists_maps. exact Ha.
Qed.

Lemma runDalitzPairing_spec (tracks1 tracks2 : list MyBarrelTrack.t)
    (st : State (Values := Values)) :
  forall idx j, 0 <= j ->
    Z.testbit (at_ (fDalitzmap (runDalitzPairing VM fTrackCuts fPairCuts fQA
                                  tracks1 tracks2 st)) idx) j = true ->
    Z.testbit (at_ (fDalitzmap st) idx) j = true \/
    exists pair values,
      In pair (combinations tracks1 tracks2) /\
      contributes (fTrackmap st) values pair idx j.
Proof.
  intros idx j Hj. unfold runDalitzPairing. cbv zeta.
  destruct (pairs_spec (combinations tracks1 tracks2) st) as [_ Hd]. cbv zeta in Hd.
  destruct fQA.
  - rewrite fill_hists_spec. now apply Hd.
  - now apply Hd.
Qed.

Lemma combinations_In {A : Type} (tracks1 tracks2 : list A) (a b : A) :
  In (a, b) (combinations tracks1 tracks2) -> In a tracks1 /\ In b tracks2.
Proof.
  revert tracks2. induction tracks1 as [|t1 rest1 IH]; intros tracks2 Hin; [destruct Hin|].
  destruct tracks2 as [|t2 rest2]; [destruct Hin|].
  cbn [combinations] in Hin. apply in_app_or in Hin as [Hin|Hin].
  - apply in_map_iff in Hin as (b' & E & Hb). injection E as <- <-.
    split; [now left|now right].
  - apply IH in Hin as [Ha Hb]. split; now right.
Qed.

(** *** One collision *)

Lemma globalIndex_inj (tracks : list MyBarrelTrack.t) :
  List.NoDup (List.map MyBarrelTrack.globalIndex tracks) ->
  forall a b, In a tracks -> In b tracks ->
    MyBarrelTrack.globalIndex a = MyBarrelTrack.globalIndex b -> a = b.
Proof.
  induction tracks as [|t rest IH]; intros Hnd a b Ha Hb E; [destruct Ha|].
  cbn [List.map] in Hnd. apply NoDup_cons_iff in Hnd as [Hnotin Hnd].
  destruct Ha as [<-|Ha], Hb as [<-|Hb].
  - reflexivity.
  - exfalso. apply Hnotin. rewrite E. now apply in_map.
  - exfalso. apply Hnotin. rewrite <- E. now apply in_map.
  - now apply IH.
Qed.

Lemma sliceBy_In (tracks : list MyBarrelTrack.t) (index : Z) (track : MyBarrelTrack.t) :
  In track (sliceBy tracks index) <->
  In track tracks /\ MyBarrelTrack.collisionId track = index.
Proof.
  unfold sliceBy. rewrite filter_In. now rewrite Z.eqb_eq.
Qed.

(** The Dalitz bits that the processing of one collision adds to a track:
    none, or bits of the filter map of a track of the collision that has
    this index, each with a partner that accounts for it. *)
Lemma processCollision_spec (filteredTracks : list MyBarrelTrack.t)
    (st : State (Values := Values)) (collision : MyEvent.t) :
  List.NoDup (List.map MyBarrelTrack.globalIndex filteredTracks) ->
  let group := sliceBy filteredTracks (MyEvent.globalIndex collision) in
  let st' := processCollision VM fEventCut fTrackCuts fPairCuts fQA filteredTracks st collision in
  forall idx,
    (forall j, 0 <= j ->
       Z.testbit (at_ (fDalitzmap st') idx) j = true ->
       Z.testbit (at_ (fDalitzmap st) idx) j = true) \/
    (exists track values,
       In track group /\ MyBarrelTrack.globalIndex track = idx /\
       forall j, 0 <= j ->
         Z.testbit (at_ (fDalitzmap st') idx) j = true ->
         Z.testbit (at_ (fDalitzmap st) idx) j = true \/
         (Z.testbit (filterMapOf VM fTrackCuts track values) j = true /\
          paired VM fTrackCuts fPairCuts group j track)).
Proof.
  intros Hnd. cbv zeta. intros idx. unfold processCollision. cbv zeta.
  cbn [fgValues fDalitzmap fHistMan fStatsList].
  destruct (AnalysisCompositeCut.IsSelected fEventCut _); [|left; intros; assumption].
  set (group := sliceBy filteredTracks (MyEvent.globalIndex collision)).
  set (st0 := mkState ∅ (fDalitzmap st) _ (fHistMan st) (fStatsList st)).
  destruct (runTrackSelection_trackmap group [] st0) as [Hmap Hdal].
  { intros k. left. apply at_empty. }
  cbn [app] in Hmap. change (fDalitzmap st0) with (fDalitzmap st) in Hdal.
  set (st1 := runTrackSelection VM fTrackCuts group st0) in *.
  assert (Hgroup : forall a b, In a group -> In b group ->
            MyBarrelTrack.globalIndex a = MyBarrelTrack.globalIndex b -> a = b).
  { intros a b Ha Hb. apply (globalIndex_inj filteredTracks Hnd).
    - now apply sliceBy_In in Ha as [Ha _].
    - now apply sliceBy_In in Hb as [Hb _]. }
  assert (Hpasses : forall t j, In t group -> 0 <= j ->
            Z.testbit (at_ (fTrackmap st1) (MyBarrelTrack.globalIndex t)) j = true ->
            passesTrackCut VM fTrackCuts j t).
  { intros t j Ht Hj Hbit.
    destruct (Hmap (MyBarrelTrack.globalIndex t)) as [H0|(t' & v' & Hin' & Hidx' & Hat')].
    - rewrite H0, Z.bits_0 in Hbit. discriminate.
    - apply (Hgroup t' t Hin' Ht) in Hidx'. subst t'. rewrite Hat' in Hbit.
      now apply filterMapOf_testbit in Hbit. }
  destruct (Hmap idx) as [H0|(track & values & Hin & Hidx & Hat)].
  - left. intros j Hj Hbit.
    apply runDalitzPairing_spec in Hbit; [|assumption]. rewrite Hdal in Hbit.
    destruct Hbit as [Hbit|([t1 t2] & v & _ & [-> | ->] & _ & _ & H1 & H2 & _)];
      [assumption| |]; cbn [fst snd] in *.
    + rewrite H0, Z.bits_0 in H1. discriminate.
    + rewrite H0, Z.bits_0 in H2. discriminate.
  - right. exists track, values. split; [assumption|]. split; [assumption|].
    intros j Hj Hbit.
    apply runDalitzPairing_spec in Hbit; [|assumption]. rewrite Hdal in Hbit.
    destruct Hbit as [Hbit|([t1 t2] & v & Hpair & Hwho & Hsign & Hrange & H1 & H2
                            & cut & Hcut & Hsel)]; [now left|right].
    cbn [fst snd] in *. apply combinations_In in Hpair as [Hin1 Hin2].
    destruct Hwho as [Hwho|Hwho].
    + assert (track = t1) by (apply Hgroup; congruence). subst t1.
      split; [rewrite <- Hat, <- Hidx; exact H1|].
      exists t2. repeat split; try assumption; try lia.
      * now apply Hpasses.
      * now apply Hpasses.
      * left. now exists cut, v.
    + assert (track = t2) by (apply Hgroup; congruence). subst t2.
      split; [rewrite <- Hat, <- Hidx; exact H2|].
      exists t1. repeat split; try assumption; try lia.
      * now apply Hpasses.
      * now apply Hpasses.
      * right. now exists cut, v.
Qed.

(** *** All collisions *)

Lemma collisions_spec (filteredTracks : list MyBarrelTrack.t)
    (remaining processed : list MyEvent.t) (st : State (Values := Values)) :
  List.NoDup (List.map MyBarrelTrack.globalIndex filteredTracks) ->
  List.NoDup (List.map MyEvent.globalIndex (processed ++ remaining)) ->
  dalitzmap_of filteredTracks processed (fDalitzmap st) ->
  dalitzmap_of filteredTracks (processed ++ remaining)
    (fDalitzmap (fold_left
                   (processCollision VM fEventCut fTrackCuts fPairCuts fQA filteredTracks)
                   remaining st)).
Proof.
  intros Hnd. revert processed st.
  induction remaining as [|collision rest IH]; intros processed st Hcoll Hinv.
  - rewrite app_nil_r. exact Hinv.
  - cbn [fold_left].
    replace (processed ++ collision :: rest) with ((processed ++ [collision]) ++ rest)
      in * by (rewrite <- app_assoc; reflexivity).
    apply IH; [assumption|].
    set (st1 := processCollision VM fEventCut fTrackCuts fPairCuts fQA filteredTracks
                  st collision).
    assert (Hfresh : forall c, In c processed ->
              MyEvent.globalIndex c <> MyEvent.globalIndex collision).
    { intros c Hc E. rewrite <- app_assoc in Hcoll. cbn [app] in Hcoll.
      rewrite map_app in Hcoll. cbn [List.map] in Hcoll.
      apply NoDup_remove_2 in Hcoll. apply Hcoll.
      apply in_or_app. left. rewrite <- E. now apply in_map. }
    intros idx. destruct (Hinv idx) as [HA HB].
    pose proof (processCollision_spec filteredTracks st collision Hnd) as Hstep.
    cbv zeta in Hstep. specialize (Hstep idx). fold st1 in Hstep.
    destruct Hstep as [Hold|(track & values & Hin & Hidx & Hnew)].
    + split.
      * intros j Hj Hbit. apply Hold in Hbit; [|assumption].
        destruct (HA j Hj Hbit) as (c & t & Hc & Ht & Hi & Hp).
        exists c, t. split; [apply in_or_app; now left|]. now repeat split.
      * destruct HB as [Hnone|(c & t & v & Hc & Ht & Hi & Hsub)].
        -- left. intros j Hj.
           destruct (Z.testbit (at_ (fDalitzmap st1) idx) j) eqn:Hbit; [|reflexivity].
           apply Hold in Hbit; [|assumption]. now rewrite Hnone in Hbit.
        -- right. exists c, t, v. split; [apply in_or_app; now left|].
           repeat split; try assumption.
           intros j Hj Hbit. apply Hsub; [assumption|]. now apply Hold.
    + split.
      * intros j Hj Hbit. apply Hnew in Hbit; [|assumption].
        destruct Hbit as [Hbit|[_ Hp]].
        -- destruct (HA j Hj Hbit) as (c & t & Hc & Ht & Hi & Hp).
           exists c, t. split; [apply in_or_app; now left|]. now repeat split.
        -- exists collision, track.
           split; [apply in_or_app; right; now left|]. now repeat split.
      * right. exists collision, track, values.
        split; [apply in_or_app; right; now left|]. repeat split; try assumption.
        intros j Hj Hbit. apply Hnew in Hbit; [|assumption].
        destruct Hbit as [Hbit|[Hf _]]; [|assumption].
        destruct HB as [Hnone|(c & t & v & Hc & Ht & Hi & Hsub)].
        -- now rewrite Hnone in Hbit.
        -- exfalso. apply (Hfresh c Hc).
           apply sliceBy_In in Ht as [Ht Hct]. apply sliceBy_In in Hin as [Hin Hctrack].
           assert (t = track) by (apply (globalIndex_inj filteredTracks Hnd); congruence).
           congruence.
Qed.

(** The rows written are the values of the Dalitz map at the tracks. *)
Lemma rows_spec (tracks : list MyBarrelTrack.t) (rows : list Z)
    (st : State (Values := Values)) :
  fst (fold_left
         (fun '(rows, st) track =>
            let '(bits, dalitzmap) :=
              subscript (fDalitzmap st) (MyBarrelTrack.globalIndex track) in
            (rows ++ [bits],
             mkState (fTrackmap st) dalitzmap (fgValues st) (fHistMan st) (fStatsList st)))
         tracks (rows, st))
  = rows ++ List.map (fun track => at_ (fDalitzmap st) (MyBarrelTrack.globalIndex track))
              tracks.
Proof.
  revert rows st. induction tracks as [|track rest IH]; intros rows st; cbn [fold_left List.map].
  - now rewrite app_nil_r.
  - pose proof (subscript_fst (fDalitzmap st) (MyBarrelTrack.globalIndex track)) as Hf.
    pose proof (subscript_at (fDalitzmap st) (MyBarrelTrack.globalIndex track)) as Ha.
    destruct (subscript (fDalitzmap st) (MyBarrelTrack.globalIndex track)) as [bits d].
    cbn [fst snd] in Hf, Ha. rewrite IH. cbn [fDalitzmap].
    rewrite <- app_assoc. cbn [app]. rewrite Hf. f_equal. f_equal.
    apply map_ext. intros t. apply Ha.
Qed.


End Task.

(** On the sample collision the rows are 1, 1, 0 and 1: the track of index
    12 passed no track cut, and each other track has a partner of the
    opposite sign. *)
Example sample_rows :
  fst (processFullTracks Sample.dalitzVM Sample.eventCut [Sample.trackCut]
         [Sample.pairCut] true Sample.collisions Sample.barrelTracks
         Sample.barrelTracks Sample.initial)
  = [1; 1; 0; 1].
Proof. vm_compute. reflexivity. Qed.


End DalitzPairingFacts.

(** ** The order of floating-point values *)

Module FpOrder.

Ltac compare_cases :=
  repeat match goal with
         | |- context [Pos.compare_cont Eq ?a ?b] =>
             change (Pos.compare_cont Eq a b) with (Pos.compare a b)
         end;
  repeat match goal with
         | |- context [(?a ?= ?b)%Z] => destruct (Z.compare_spec a b)
         | |- context [(?a ?= ?b)%positive] => destruct (Pos.compare_spec a b)
         end;
  cbn; try congruence; try lia.

Lemma SFcompare_trans_lt_le (x y z : spec_float) :
  SFcompare x y = Some Lt ->
  (SFcompare y z = Some Lt \/ SFcompare y z = Some Eq) ->
  SFcompare x z = Some Lt.
Proof.
  destruct x as [sx|sx| |sx mx ex], y as [sy|sy| |sy my ey], z as [sz|sz| |sz mz ez];
    cbn; try discriminate; try (intros _ [H|H]; discriminate H);
    try (destruct sx, sy, sz; cbn; intros Hxy [Hyz|Hyz]; congruence).
  destruct sx, sy, sz; cbn; try (intros Hxy [Hyz|Hyz]; congruence).
  - compare_cases; intros Hxy [Hyz|Hyz]; try congruence; try lia.
  - compare_cases; intros Hxy [Hyz|Hyz]; try congruence; try lia.
Qed.

Lemma SFcompare_trans_le_lt (x y z : spec_float) :
  (SFcompare x y = Some Lt \/ SFcompare x y = Some Eq) ->
  SFcompare y z = Some Lt ->
  SFcompare x z = Some Lt.
Proof.
  destruct x as [sx|sx| |sx mx ex], y as [sy|sy| |sy my ey], z as [sz|sz| |sz mz ez];
    cbn; try discriminate; try (intros [H|H]; discriminate H);
    try (destruct sx, sy, sz; cbn; intros [Hxy|Hxy] Hyz; congruence).
  destruct sx, sy, sz; cbn; try (intros [Hxy|Hxy] Hyz; congruence).
  - compare_cases; intros [Hxy|Hxy] Hyz; try congruence; try lia.
  - compare_cases; intros [Hxy|Hxy] Hyz; try congruence; try lia.
Qed.

(** [a < b] and [b <= c] give [a < c]. *)
Lemma ltb_leb_trans (a b c : float) :
  (a <? b)%float = true -> (b <=? c)%float = true -> (a <? c)%float = true.
Proof.
  rewrite !ltb_spec, leb_spec. unfold SFltb, SFleb. intros Hab Hbc.
  rewrite (SFcompare_trans_lt_le (Prim2SF a) (Prim2SF b) (Prim2SF c)); [reflexivity| |].
  - destruct (SFcompare (Prim2SF a) (Prim2SF b)) as [[ | | ]|]; congruence.
  - destruct (SFcompare (Prim2SF b) (Prim2SF c)) as [[ | | ]|]; auto; discriminate.
Qed.

(** [a <= b] and [b < c] give [a < c]. *)
Lemma leb_ltb_trans (a b c : float) :
  (a <=? b)%float = true -> (b <? c)%float = true -> (a <? c)%float = true.
Proof.
  rewrite !ltb_spec, leb_spec. unfold SFltb, SFleb. intros Hab Hbc.
  rewrite (SFcompare_trans_le_lt (Prim2SF a) (Prim2SF b) (Prim2SF c)); [reflexivity| |].
  - destruct (SFcompare (Prim2SF a) (Prim2SF b)) as [[ | | ]|]; auto; discriminate.
  - destruct (SFcompare (Prim2SF b) (Prim2SF c)) as [[ | | ]|]; congruence.
Qed.

(** Equal values are not ordered strictly, in either direction. *)
Lemma eqb_not_ltb (a b : float) :
  (a =? b)%float = true -> (a <? b)%float = false /\ (b <? a)%float = false.
Proof.
  rewrite FloatAxioms.eqb_spec, !ltb_spec. unfold SFeqb, SFltb.
  rewrite (FpFacts.SFcompare_swap (Prim2SF a) (Prim2SF b)).
  destruct (SFcompare (Prim2SF a) (Prim2SF b)) as [[ | | ]|]; cbn; try discriminate.
  now split.
Qed.

(** A NaN is not ordered with any value. *)
Lemma nan_not_ordered (a b : float) :
  Prim2SF a = S754_nan ->
  (a <? b)%float = false /\ (b <? a)%float = false /\
  (a <=? b)%float = false /\ (b <=? a)%float = false.
Proof.
  intros Ha. rewrite !ltb_spec, !leb_spec. unfold SFltb, SFleb. rewrite Ha. cbn.
  destruct (Prim2SF b); repeat split; reflexivity.
Qed.

(** The absolute value of the difference of a NaN and a value is a NaN. *)
Lemma abs_sub_nan (a b : float) :
  Prim2SF a = S754_nan -> Prim2SF (abs (a - b)) = S754_nan.
Proof.
  intros Ha. rewrite abs_spec, sub_spec, Ha. reflexivity.
Qed.

(** *** The sign of a value *)

Lemma abs_opp (x : float) : abs (- x) = abs x.
Proof.
  apply Prim2SF_inj. rewrite !abs_spec, opp_spec.
  destruct (Prim2SF x); reflexivity.
Qed.

(** Rounding treats the two signs alike. *)
Lemma binary_round_aux_opp (prec emax : Z) (s : bool) (m e : Z) (l : location) :
  binary_round_aux prec emax (negb s) m e l = SFopp (binary_round_aux prec emax s m e l).
Proof.
  unfold binary_round_aux.
  destruct (shr_fexp prec emax m e l) as [mrs' e'].
  destruct (shr_fexp prec emax _ e' loc_Exact) as [mrs'' e''].
  destruct (shr_m mrs''); try reflexivity.
  destruct (e'' <=? emax - prec)%Z; reflexivity.
Qed.

Lemma SFdiv_opp (prec emax : Z) (x y : spec_float) :
  SFdiv prec emax (SFopp x) y = SFopp (SFdiv prec emax x y).
Proof.
  destruct x as [sx|sx| |sx mx ex], y as [sy|sy| |sy my ey]; cbn [SFdiv SFopp];
    try reflexivity; try (now rewrite negb_xorb_l).
  destruct (SFdiv_core_binary prec emax (Z.pos mx) ex (Z.pos my) ey) as [[mz ez] lz].
  rewrite <- binary_round_aux_opp. now rewrite negb_xorb_l.
Qed.

Lemma SFmul_opp_opp (prec emax : Z) (x : spec_float) :
  SFmul prec emax (SFopp x) (SFopp x) = SFmul prec emax x x.
Proof.
  destruct x as [s|s| |s m e]; cbn [SFmul SFopp]; try reflexivity;
    destruct s; reflexivity.
Qed.

(** The square of a quotient does not depend on the sign of the dividend. *)
Lemma pow2_div_opp (x c : float) : Fp.pow2 (- x / c) = Fp.pow2 (x / c).
Proof.
  apply Prim2SF_inj. unfold Fp.pow2.
  rewrite !mul_spec, !div_spec, opp_spec.
  unfold SF64mul, SF64div. rewrite SFdiv_opp. apply SFmul_opp_opp.
Qed.

End FpOrder.

(** ** Track and candidate preselection *)

Module Preselection.
Import Bits BitsFacts hffilters hfpreselection.

(** The species that the helpers pass to [getTPCPostCalib] have a raw
    deviation: the calls answer a value. *)
Lemma getTPCPostCalib_Ka (h h' : TH3F.t) (track : Track.t) :
  exists v, getTPCPostCalib h h' track kKa = Ok v.
Proof. eexists. reflexivity. Qed.

Lemma getTPCPostCalib_Pi (h h' : TH3F.t) (track : Track.t) :
  exists v, getTPCPostCalib h h' track kPi = Ok v.
Proof. eexists. reflexivity. Qed.

Lemma getTPCPostCalib_Pr (h h' : TH3F.t) (track : Track.t) :
  exists v, getTPCPostCalib h h' track kPr = Ok v.
Proof. eexists. reflexivity. Qed.

Lemma isSelectedKaon4Charm3Prong_ok track thrTPC thrTOF calib h h' :
  exists isKaon, isSelectedKaon4Charm3Prong track thrTPC thrTOF calib h h' = Ok isKaon.
Proof.
  unfold isSelectedKaon4Charm3Prong.
  destruct calib; cbn [bind];
    [destruct (getTPCPostCalib_Ka h h' track) as [v ->]; cbn [bind]|];
    match goal with |- context [(abs ?x >? ?t)%float] => destruct (abs x >? t)%float end;
    try (eexists; reflexivity);
    destruct (Track.hasTOF track && _); eexists; reflexivity.
Qed.

Lemma isSelectedProton4CharmBaryons_ok track thrTPC thrTOF calib h h' :
  exists isProton,
    isSelectedProton4CharmBaryons track thrTPC thrTOF calib h h' = Ok isProton.
Proof.
  unfold isSelectedProton4CharmBaryons.
  destruct calib; cbn [bind];
    [destruct (getTPCPostCalib_Pr h h' track) as [v ->]; cbn [bind]|];
    match goal with |- context [(abs ?x >? ?t)%float] => destruct (abs x >? t)%float end;
    try (eexists; reflexivity);
    destruct (Track.hasTOF track && _); eexists; reflexivity.
Qed.

Lemma isSelectedProton4Femto_ok track minPt maxNsigma onlyTOF calib h h' activateQA
    hTPC hTOF reg :
  exists verdict,
    isSelectedProton4Femto track minPt maxNsigma onlyTOF calib h h' activateQA hTPC hTOF reg
    = Ok verdict.
Proof.
  unfold isSelectedProton4Femto.
  destruct (Track.pt track <? minPt)%float; [eexists; reflexivity|].
  destruct (abs (Track.eta track) >? 0.8)%float; [eexists; reflexivity|].
  destruct (negb (Track.isGlobalTrack track =? 1)); [eexists; reflexivity|].
  destruct calib; cbn [bind];
    [destruct (getTPCPostCalib_Pr h h' track) as [v ->]; cbn [bind]|];
    match goal with |- context [(?x >? maxNsigma)%float] => destruct (x >? maxNsigma)%float end;
    eexists; reflexivity.
Qed.

(** [retValue |= BIT(0)] and [retValue |= BIT(1)] on the masks that the
    preselections build. *)
Lemma mask_of_two (b0 b1 : bool) :
  let retValue := 0 in
  let retValue := if b0 then int8_t (Z.lor retValue (BIT 0)) else retValue in
  let retValue := if b1 then int8_t (Z.lor retValue (BIT 1)) else retValue in
  0 <= retValue < 4 /\ Z.testbit retValue 0 = b0 /\ Z.testbit retValue 1 = b1.
Proof. destruct b0, b1; vm_compute; intuition congruence. Qed.

Lemma isDzeroPreselected_ok trackPos trackNeg thrTPC thrTOF calib h h' :
  exists retValue,
    isDzeroPreselected trackPos trackNeg thrTPC thrTOF calib h h' = Ok retValue.
Proof.
  unfold isDzeroPreselected. destruct calib; cbn [bind].
  - destruct (getTPCPostCalib_Pi h h' trackPos) as [v1 ->]; cbn [bind].
    destruct (getTPCPostCalib_Pi h h' trackNeg) as [v2 ->]; cbn [bind].
    destruct (getTPCPostCalib_Ka h h' trackPos) as [v3 ->]; cbn [bind].
    destruct (getTPCPostCalib_Ka h h' trackNeg) as [v4 ->]; cbn [bind].
    eexists. reflexivity.
  - eexists. reflexivity.
Qed.

(** X1: none of the selection helpers that post-calibrate the TPC response
    can end the run: each of them calls [getTPCPostCalib] with the kaon,
    pion or proton tag only, so each answers a verdict or a mask for
    every track, threshold and calibration table. *)
Theorem selection_helpers_never_fatal (RD : RecoDecay.t)
    (track trackSecond trackOppositeCharge : Track.t)
    (pFirst pSecond pOpposite : Momentum)
    (ptMin nsigmaMax thrTPC thrTOF thrTPCKa thrTOFKa : float)
    (onlyTOF computeTPCPostCalib : bool)
    (hMean hSigma hMapPionMean hMapPionSigma : TH3F.t)
    (activateQA : Z) (hTPC hTOF : QA.HistPtr) (reg : QA.Registry) :
  (exists v, isSelectedProton4Femto track ptMin nsigmaMax onlyTOF computeTPCPostCalib
               hMean hSigma activateQA hTPC hTOF reg = Ok v) /\
  (exists v, isSelectedProton4CharmBaryons track thrTPC thrTOF computeTPCPostCalib
               hMean hSigma = Ok v) /\
  (exists v, isSelectedKaon4Charm3Prong track thrTPCKa thrTOFKa computeTPCPostCalib
               hMapPionMean hMapPionSigma = Ok v) /\
  (exists v, isDplusPreselected trackOppositeCharge thrTPCKa thrTOFKa computeTPCPostCalib
               hMapPionMean hMapPionSigma = Ok v) /\
  (exists v, isDsPreselected RD pFirst pSecond pOpposite trackOppositeCharge
               thrTPCKa thrTOFKa computeTPCPostCalib hMapPionMean hMapPionSigma = Ok v) /\
  (exists v, isCharmBaryonPreselected track trackSecond trackOppositeCharge
               thrTPC thrTOF thrTPCKa thrTOFKa computeTPCPostCalib
               hMean hSigma hMapPionMean hMapPionSigma = Ok v) /\
  (exists v, isDzeroPreselected track trackSecond thrTPC thrTOF computeTPCPostCalib
               hMapPionMean hMapPionSigma = Ok v).
Proof.
  pose proof (isSelectedKaon4Charm3Prong_ok trackOppositeCharge thrTPCKa thrTOFKa
                computeTPCPostCalib hMapPionMean hMapPionSigma) as [isKaon HK].
  pose proof (isSelectedProton4CharmBaryons_ok track thrTPC thrTOF
                computeTPCPostCalib hMean hSigma) as [isP1 HP1].
  pose proof (isSelectedProton4CharmBaryons_ok trackSecond thrTPC thrTOF
                computeTPCPostCalib hMean hSigma) as [isP2 HP2].
  split; [apply isSelectedProton4Femto_ok|].
  split; [apply isSelectedProton4CharmBaryons_ok|].
  split; [apply isSelectedKaon4Charm3Prong_ok|].
  split; [|split; [|split]].
  - unfold isDplusPreselected. rewrite HK. cbn [bind].
    destruct isKaon; eexists; reflexivity.
  - unfold isDsPreselected. rewrite HK. cbn [bind].
    destruct isKaon; eexists; reflexivity.
  - unfold isCharmBaryonPreselected. rewrite HK. cbn [bind].
    destruct isKaon; cbn [negb]; [|eexists; reflexivity].
    rewrite HP1. cbn [bind]. rewrite HP2. cbn [bind]. eexists. reflexivity.
  - apply isDzeroPreselected_ok.
Qed.

(** X2: the three-prong preselections stand on the kaon test of the
    opposite-charge track and the proton tests of the same-charge tracks:
    the D+ mask is 1 or 0 as the kaon test passes or fails, the Ds mask is
    empty when it fails, and bit 0 (bit 1) of the charm-baryon mask is set
    exactly when the kaon test and the proton test of the first (second)
    same-charge track pass; no other bit is ever set. *)
Theorem three_prong_preselection_bits (RD : RecoDecay.t)
    (trackFirst trackSecond trackOppositeCharge : Track.t)
    (pFirst pSecond pOpposite : Momentum)
    (thrTPCPr thrTOFPr thrTPCKa thrTOFKa : float) (computeTPCPostCalib : bool)
    (hMapProtonMean hMapProtonSigma hMapPionMean hMapPionSigma : TH3F.t) :
  exists isKaon isProtonFirst isProtonSecond dplus ds baryon,
    isSelectedKaon4Charm3Prong trackOppositeCharge thrTPCKa thrTOFKa computeTPCPostCalib
      hMapPionMean hMapPionSigma = Ok isKaon /\
    isSelectedProton4CharmBaryons trackFirst thrTPCPr thrTOFPr computeTPCPostCalib
      hMapProtonMean hMapProtonSigma = Ok isProtonFirst /\
    isSelectedProton4CharmBaryons trackSecond thrTPCPr thrTOFPr computeTPCPostCalib
      hMapProtonMean hMapProtonSigma = Ok isProtonSecond /\
    isDplusPreselected trackOppositeCharge thrTPCKa thrTOFKa computeTPCPostCalib
      hMapPionMean hMapPionSigma = Ok dplus /\
    isDsPreselected RD pFirst pSecond pOpposite trackOppositeCharge thrTPCKa thrTOFKa
      computeTPCPostCalib hMapPionMean hMapPionSigma = Ok ds /\
    isCharmBaryonPreselected trackFirst trackSecond trackOppositeCharge
      thrTPCPr thrTOFPr thrTPCKa thrTOFKa computeTPCPostCalib
      hMapProtonMean hMapProtonSigma hMapPionMean hMapPionSigma = Ok baryon /\
    dplus = (if isKaon then 1 else 0) /\
    (isKaon = false -> ds = 0) /\
    0 <= ds < 4 /\
    0 <= baryon < 4 /\
    Z.testbit baryon 0 = isKaon && isProtonFirst /\
    Z.testbit baryon 1 = isKaon && isProtonSecond.
Proof.
  pose proof (isSelectedKaon4Charm3Prong_ok trackOppositeCharge thrTPCKa thrTOFKa
                computeTPCPostCalib hMapPionMean hMapPionSigma) as [isKaon HK].
  pose proof (isSelectedProton4CharmBaryons_ok trackFirst thrTPCPr thrTOFPr
                computeTPCPostCalib hMapProtonMean hMapProtonSigma) as [isP1 HP1].
  pose proof (isSelectedProton4CharmBaryons_ok trackSecond thrTPCPr thrTOFPr
                computeTPCPostCalib hMapProtonMean hMapProtonSigma) as [isP2 HP2].
  exists isKaon, isP1, isP2.
  unfold isDplusPreselected, isDsPreselected, isCharmBaryonPreselected.
  rewrite HK. cbn [bind]. destruct isKaon; cbn [negb andb].
  - rewrite HP1. cbn [bind]. rewrite HP2. cbn [bind].
    pose proof (mask_of_two isP1 isP2) as Hb. cbv zeta in Hb.
    pose proof (mask_of_two
      (abs (RecoDecay.m RD [pFirst; pOpposite] [massK RD; massK RD] - massPhi RD) <? 0.02)%float
      (abs (RecoDecay.m RD [pSecond; pOpposite] [massK RD; massK RD] - massPhi RD) <? 0.02)%float)
      as Hd. cbv zeta in Hd.
    do 3 eexists.
    do 7 (split; [first [reflexivity | assumption]|]).
    split; [discriminate|].
    split; [apply Hd|]. split; [apply Hb|]. split; apply Hb.
  - do 3 eexists. do 7 (split; [first [reflexivity | assumption]|]).
    split; [reflexivity|]. split; [lia|]. split; [lia|]. split; reflexivity.
Qed.

(** X3: [isDzeroPreselected] treats the two charges alike: exchanging the
    positive and the negative track exchanges the D0 bit and the D0bar
    bit of the mask, and no other bit is ever set. *)
Theorem isDzeroPreselected_charge_conjugation (trackPos trackNeg : Track.t)
    (nsigmaTPCPionKaonDzero nsigmaTOFPionKaonDzero : float) (computeTPCPostCalib : bool)
    (hMapPionMean hMapPionSigma : TH3F.t) :
  exists mask conjugate,
    isDzeroPreselected trackPos trackNeg nsigmaTPCPionKaonDzero nsigmaTOFPionKaonDzero
      computeTPCPostCalib hMapPionMean hMapPionSigma = Ok mask /\
    isDzeroPreselected trackNeg trackPos nsigmaTPCPionKaonDzero nsigmaTOFPionKaonDzero
      computeTPCPostCalib hMapPionMean hMapPionSigma = Ok conjugate /\
    0 <= mask < 4 /\ 0 <= conjugate < 4 /\
    Z.testbit conjugate 0 = Z.testbit mask 1 /\
    Z.testbit conjugate 1 = Z.testbit mask 0.
Proof.
  unfold isDzeroPreselected. destruct computeTPCPostCalib; cbn [bind].
  - destruct (getTPCPostCalib_Pi hMapPionMean hMapPionSigma trackPos) as [piPos ->].
    destruct (getTPCPostCalib_Pi hMapPionMean hMapPionSigma trackNeg) as [piNeg ->].
    destruct (getTPCPostCalib_Ka hMapPionMean hMapPionSigma trackPos) as [kaPos ->].
    destruct (getTPCPostCalib_Ka hMapPionMean hMapPionSigma trackNeg) as [kaNeg ->].
    cbn [bind].
    match goal with
    | |- context [if ?c0 then int8_t (Z.lor 0 (BIT 0)) else 0] =>
        match goal with
        | |- context [if ?c1 then int8_t (Z.lor _ (BIT 1)) else _] =>
            pose proof (mask_of_two c0 c1) as H01; pose proof (mask_of_two c1 c0) as H10
        end
    end.
    cbv zeta in H01, H10. do 2 eexists.
    split; [reflexivity|]. split; [reflexivity|].
    destruct H01 as (R & B0 & B1), H10 as (R' & B0' & B1').
    split; [exact R|]. split; [exact R'|]. split; congruence.
  - match goal with
    | |- context [if ?c0 then int8_t (Z.lor 0 (BIT 0)) else 0] =>
        match goal with
        | |- context [if ?c1 then int8_t (Z.lor _ (BIT 1)) else _] =>
            pose proof (mask_of_two c0 c1) as H01; pose proof (mask_of_two c1 c0) as H10
        end
    end.
    cbv zeta in H01, H10. do 2 eexists.
    split; [reflexivity|]. split; [reflexivity|].
    destruct H01 as (R & B0 & B1), H10 as (R' & B0' & B1').
    split; [exact R|]. split; [exact R'|]. split; congruence.
Qed.

(** X4: the Ds and the charm-baryon preselections number their two bits
    after the two same-charge tracks: exchanging the first and the second
    same-charge track exchanges bit 0 and bit 1 of either mask. *)
Theorem same_charge_exchange (RD : RecoDecay.t)
    (trackFirst trackSecond trackOppositeCharge : Track.t)
    (pFirst pSecond pOpposite : Momentum)
    (thrTPCPr thrTOFPr thrTPCKa thrTOFKa : float) (computeTPCPostCalib : bool)
    (hMapProtonMean hMapProtonSigma hMapPionMean hMapPionSigma : TH3F.t) :
  exists ds dsExchanged baryon baryonExchanged,
    isDsPreselected RD pFirst pSecond pOpposite trackOppositeCharge thrTPCKa thrTOFKa
      computeTPCPostCalib hMapPionMean hMapPionSigma = Ok ds /\
    isDsPreselected RD pSecond pFirst pOpposite trackOppositeCharge thrTPCKa thrTOFKa
      computeTPCPostCalib hMapPionMean hMapPionSigma = Ok dsExchanged /\
    isCharmBaryonPreselected trackFirst trackSecond trackOppositeCharge
      thrTPCPr thrTOFPr thrTPCKa thrTOFKa computeTPCPostCalib
      hMapProtonMean hMapProtonSigma hMapPionMean hMapPionSigma = Ok baryon /\
    isCharmBaryonPreselected trackSecond trackFirst trackOppositeCharge
      thrTPCPr thrTOFPr thrTPCKa thrTOFKa computeTPCPostCalib
      hMapProtonMean hMapProtonSigma hMapPionMean hMapPionSigma = Ok baryonExchanged /\
    Z.testbit dsExchanged 0 = Z.testbit ds 1 /\
    Z.testbit dsExchanged 1 = Z.testbit ds 0 /\
    Z.testbit baryonExchanged 0 = Z.testbit baryon 1 /\
    Z.testbit baryonExchanged 1 = Z.testbit baryon 0.
Proof.
  pose proof (isSelectedKaon4Charm3Prong_ok trackOppositeCharge thrTPCKa thrTOFKa
                computeTPCPostCalib hMapPionMean hMapPionSigma) as [isKaon HK].
  pose proof (isSelectedProton4CharmBaryons_ok trackFirst thrTPCPr thrTOFPr
                computeTPCPostCalib hMapProtonMean hMapProtonSigma) as [isP1 HP1].
  pose proof (isSelectedProton4CharmBaryons_ok trackSecond thrTPCPr thrTOFPr
                computeTPCPostCalib hMapProtonMean hMapProtonSigma) as [isP2 HP2].
  unfold isDsPreselected, isCharmBaryonPreselected.
  rewrite HK. cbn [bind]. destruct isKaon; cbn [negb].
  - rewrite HP1, HP2. cbn [bind].
    set (kkFirst :=
      (abs (RecoDecay.m RD [pFirst; pOpposite] [massK RD; massK RD] - massPhi RD) <? 0.02)%float).
    set (kkSecond :=
      (abs (RecoDecay.m RD [pSecond; pOpposite] [massK RD; massK RD] - massPhi RD) <? 0.02)%float).
    destruct (mask_of_two kkFirst kkSecond) as (_ & D0 & D1).
    destruct (mask_of_two kkSecond kkFirst) as (_ & D0' & D1').
    destruct (mask_of_two isP1 isP2) as (_ & B0 & B1).
    destruct (mask_of_two isP2 isP1) as (_ & B0' & B1').
    do 4 eexists. do 4 (split; [reflexivity|]).
    split; [congruence|]. split; [congruence|]. split; congruence.
  - do 4 eexists. do 4 (split; [reflexivity|]). repeat split; reflexivity.
Qed.

(** X5: a track that [isSelectedTrackForBeauty] does not reject has a pT
    bin, a pT not below the soft-pion threshold, |eta| not above 0.8, |dcaZ|
    not above 2 and |dcaXY| within the limits of its pT bin; it is a soft
    pion exactly when its pT is below the threshold of the bachelors.
    When that threshold is not above the one of the soft pions, no track
    is ever classified as a soft pion. *)
Theorem isSelectedTrackForBeauty_classes (track : TrackDCA.t)
    (pTMinSoftPion pTMinBeautyBachelor : float) (findBin : float -> Z)
    (cutsSingleTrackBeauty : LabeledArray) :
  let pT := Track.pt (TrackDCA.track track) in
  let class := isSelectedTrackForBeauty track pTMinSoftPion pTMinBeautyBachelor findBin
                 cutsSingleTrackBeauty in
  (class = kRejected \/ class = kSoftPion \/ class = kRegular) /\
  (class <> kRejected ->
   findBin pT <> -1 /\
   (pT <? pTMinSoftPion)%float = false /\
   (abs (Track.eta (TrackDCA.track track)) >? 0.8)%float = false /\
   (abs (TrackDCA.dcaZ track) >? 2)%float = false /\
   (abs (TrackDCA.dcaXY track)
    <? cutsSingleTrackBeauty (findBin pT) "min_dcaxytoprimary"%string)%float = false /\
   (abs (TrackDCA.dcaXY track)
    >? cutsSingleTrackBeauty (findBin pT) "max_dcaxytoprimary"%string)%float = false /\
   (class = kSoftPion <-> (pT <? pTMinBeautyBachelor)%float = true)) /\
  ((pTMinBeautyBachelor <=? pTMinSoftPion)%float = true -> class <> kSoftPion).
Proof.
  cbv zeta. unfold isSelectedTrackForBeauty, kRejected, kSoftPion, kRegular.
  destruct (Z.eqb_spec (findBin (Track.pt (TrackDCA.track track))) (-1)) as [Hbin|Hbin].
  { split; [now left|]. split; [congruence|discriminate]. }
  destruct (Track.pt (TrackDCA.track track) <? pTMinSoftPion)%float eqn:Hsoft.
  { split; [now left|]. split; [congruence|discriminate]. }
  destruct (abs (Track.eta (TrackDCA.track track)) >? 0.8)%float.
  { split; [now left|]. split; [congruence|discriminate]. }
  destruct (abs (TrackDCA.dcaZ track) >? 2)%float.
  { split; [now left|]. split; [congruence|discriminate]. }
  destruct (abs (TrackDCA.dcaXY track) <? _)%float.
  { split; [now left|]. split; [congruence|discriminate]. }
  destruct (abs (TrackDCA.dcaXY track) >? _)%float.
  { split; [now left|]. split; [congruence|discriminate]. }
  destruct (Track.pt (TrackDCA.track track) <? pTMinBeautyBachelor)%float eqn:Hbach.
  - split; [right; now left|]. split.
    + intros _. repeat split; try assumption; reflexivity.
    + intros Hle _. rewrite (FpOrder.ltb_leb_trans _ _ _ Hbach Hle) in Hsoft. discriminate.
  - split; [right; now right|]. split.
    + intros _. repeat split; try assumption; try reflexivity; discriminate.
    + discriminate.
Qed.

(** X6: with the PID on the TOF alone ([femtoProtonOnlyTOF]), the
    verdict of [isSelectedProton4Femto] does not depend on the response
    of the TPC: two tracks with the same pT, eta, global-track flag and
    TOF deviation get the same verdict, whatever their TPC deviations,
    cluster counts and inner momenta, with or without the TPC
    post-calibration and whatever the calibration tables. *)
Theorem proton_TOF_only_ignores_TPC (track track' : Track.t)
    (femtoMinProtonPt femtoMaxNsigmaProton : float)
    (computeTPCPostCalib computeTPCPostCalib' : bool)
    (hMean hSigma hMean' hSigma' : TH3F.t) (activateQA activateQA' : Z)
    (hTPC hTOF hTPC' hTOF' : QA.HistPtr) (reg reg' : QA.Registry) :
  Track.pt track' = Track.pt track ->
  Track.eta track' = Track.eta track ->
  Track.isGlobalTrack track' = Track.isGlobalTrack track ->
  Track.tofNSigmaPr track' = Track.tofNSigmaPr track ->
  value_of fst (isSelectedProton4Femto track' femtoMinProtonPt femtoMaxNsigmaProton true
                  computeTPCPostCalib' hMean' hSigma' activateQA' hTPC' hTOF' reg')
  = value_of fst (isSelectedProton4Femto track femtoMinProtonPt femtoMaxNsigmaProton true
                    computeTPCPostCalib hMean hSigma activateQA hTPC hTOF reg).
Proof.
  intros Hpt Heta Hglobal Htof. unfold isSelectedProton4Femto.
  rewrite Hpt, Heta, Hglobal, Htof.
  destruct (Track.pt track <? femtoMinProtonPt)%float; [reflexivity|].
  destruct (abs (Track.eta track) >? 0.8)%float; [reflexivity|].
  destruct (negb (Track.isGlobalTrack track =? 1)); [reflexivity|].
  destruct computeTPCPostCalib, computeTPCPostCalib'; cbn [bind];
    repeat match goal with
           | |- context [getTPCPostCalib ?h ?h' ?t kPr] =>
               destruct (getTPCPostCalib_Pr h h' t) as [? ->]; cbn [bind]
           end;
    destruct (abs (Track.tofNSigmaPr track) >? femtoMaxNsigmaProton)%float; reflexivity.
Qed.

(** The two sample tracks differ in the response of the TPC only; with a
    TOF deviation of 40 both are rejected by the PID on the TOF alone. *)
Lemma proton_TOF_only_ignores_TPC_witness :
  value_of fst (isSelectedProton4Femto MoreSamples.trackOtherTPC 0.5 3 true
                  false Sample.hMean Sample.hSigma 0 1%positive 2%positive ∅)
  = value_of fst (isSelectedProton4Femto Sample.track 0.5 3 true
                    true Sample.hMean Sample.hSigma 2 1%positive 2%positive ∅) /\
  value_of fst (isSelectedProton4Femto Sample.track 0.5 3 true
                  true Sample.hMean Sample.hSigma 2 1%positive 2%positive ∅)
  = Ok false.
Proof.
  split; [|reflexivity].
  apply proton_TOF_only_ignores_TPC; reflexivity.
Defined.

End Preselection.

(** ** More on the invariant-mass window taggers *)

Module MassWindows.
Import Bits BitsFacts hffilters MoreNotions.

Lemma TESTBIT_two_bits (b0 b1 : bool) :
  TESTBIT (two_bits b0 b1) 0 = b0 /\ TESTBIT (two_bits b0 b1) 1 = b1.
Proof. destruct b0, b1; split; reflexivity. Qed.

Lemma two_bits_subset (a0 a1 b0 b1 : bool) :
  (a0 = true -> b0 = true) -> (a1 = true -> b1 = true) ->
  Z.land (two_bits a0 a1) (two_bits b0 b1) = two_bits a0 a1.
Proof.
  destruct a0, a1, b0, b1; intros H0 H1; try reflexivity;
    first [ specialize (H0 eq_refl); discriminate | specialize (H1 eq_refl); discriminate ].
Qed.

Lemma entries_Fill (h : QA.HistPtr) (entry : list float) (reg : QA.Registry) :
  entries (QA.Fill h entry reg) h = entry :: entries reg h.
Proof.
  unfold entries, QA.Fill, QA.Registry, QA.HistPtr, QA.Hist.
  now rewrite lookup_insert_eq.
Qed.

Lemma entries_Fill_ne (h h' : QA.HistPtr) (entry : list float) (reg : QA.Registry) :
  h <> h' -> entries (QA.Fill h entry reg) h' = entries reg h'.
Proof.
  intros Hne. unfold entries, QA.Fill, QA.Registry, QA.HistPtr, QA.Hist.
  now rewrite lookup_insert_ne.
Qed.

(** The taggers of two mass hypotheses share one shape. *)
Ltac two_hypotheses :=
  intros;
  match goal with
  | |- context [TESTBIT ?sel 0] =>
      destruct (TESTBIT sel 0); destruct (TESTBIT sel 1)
  end;
  cbv zeta; cbv beta iota;
  repeat match goal with
         | |- context [(abs ?x <? ?d)%float] => destruct (abs x <? d)%float
         end;
  repeat match goal with
         | |- context [negb (?qa =? 0)] => destruct (negb (qa =? 0))
         end;
  cbn [fst snd andb];
  repeat match goal with
         | |- context [int8_t ?x] =>
             let v := eval vm_compute in (int8_t x) in change (int8_t x) with v
         end;
  reflexivity.

Section WithRecoDecay.
Variable RD : RecoDecay.t.

Lemma isSelectedD0InMassRange_mask pPos pNeg ptD isSelected delta activateQA h reg :
  isSelectedD0InMassRange RD pPos pNeg ptD isSelected delta activateQA h reg
  = (two_bits
       (TESTBIT isSelected 0
        && (abs (RecoDecay.m RD [pPos; pNeg] [massPi RD; massK RD] - massD0 RD) <? delta)%float)
       (TESTBIT isSelected 1
        && (abs (RecoDecay.m RD [pPos; pNeg] [massK RD; massPi RD] - massD0 RD) <? delta)%float),
     let reg :=
       if TESTBIT isSelected 0 && negb (activateQA =? 0)
       then QA.Fill h [ptD; RecoDecay.m RD [pPos; pNeg] [massPi RD; massK RD]] reg
       else reg in
     if TESTBIT isSelected 1 && negb (activateQA =? 0)
     then QA.Fill h [ptD; RecoDecay.m RD [pPos; pNeg] [massK RD; massPi RD]] reg
     else reg).
Proof. unfold isSelectedD0InMassRange. two_hypotheses. Qed.

Lemma isSelectedDsInMassRange_mask pFirst pSecond pOpposite ptD isSelected delta activateQA h reg :
  isSelectedDsInMassRange RD pFirst pSecond pOpposite ptD isSelected delta activateQA h reg
  = (two_bits
       (TESTBIT isSelected 0
        && (abs (RecoDecay.m RD [pFirst; pOpposite; pSecond] [massK RD; massK RD; massPi RD] - massDs RD) <? delta)%float)
       (TESTBIT isSelected 1
        && (abs (RecoDecay.m RD [pFirst; pOpposite; pSecond] [massPi RD; massK RD; massK RD] - massDs RD) <? delta)%float),
     let reg :=
       if TESTBIT isSelected 0 && negb (activateQA =? 0)
       then QA.Fill h [ptD; RecoDecay.m RD [pFirst; pOpposite; pSecond] [massK RD; massK RD; massPi RD]] reg
       else reg in
     if TESTBIT isSelected 1 && negb (activateQA =? 0)
     then QA.Fill h [ptD; RecoDecay.m RD [pFirst; pOpposite; pSecond] [massPi RD; massK RD; massK RD]] reg
     else reg).
Proof. unfold isSelectedDsInMassRange. two_hypotheses. Qed.

Lemma isSelectedLcInMassRange_mask pFirst pSecond pOpposite ptLc isSelected delta activateQA h reg :
  isSelectedLcInMassRange RD pFirst pSecond pOpposite ptLc isSelected delta activateQA h reg
  = (two_bits
       (TESTBIT isSelected 0
        && (abs (RecoDecay.m RD [pFirst; pOpposite; pSecond] [massProton RD; massK RD; massPi RD] - massLc RD) <? delta)%float)
       (TESTBIT isSelected 1
        && (abs (RecoDecay.m RD [pFirst; pOpposite; pSecond] [massPi RD; massK RD; massProton RD] - massLc RD) <? delta)%float),
     let reg :=
       if TESTBIT isSelected 0 && negb (activateQA =? 0)
       then QA.Fill h [ptLc; RecoDecay.m RD [pFirst; pOpposite; pSecond] [massProton RD; massK RD; massPi RD]] reg
       else reg in
     if TESTBIT isSelected 1 && negb (activateQA =? 0)
     then QA.Fill h [ptLc; RecoDecay.m RD [pFirst; pOpposite; pSecond] [massPi RD; massK RD; massProton RD]] reg
     else reg).
Proof. unfold isSelectedLcInMassRange. two_hypotheses. Qed.

Lemma isSelectedXicInMassRange_mask pFirst pSecond pOpposite ptXic isSelected delta activateQA h reg :
  isSelectedXicInMassRange RD pFirst pSecond pOpposite ptXic isSelected delta activateQA h reg
  = (two_bits
       (TESTBIT isSelected 0
        && (abs (RecoDecay.m RD [pFirst; pOpposite; pSecond] [massProton RD; massK RD; massPi RD] - massXic RD) <? delta)%float)
       (TESTBIT isSelected 1
        && (abs (RecoDecay.m RD [pFirst; pOpposite; pSecond] [massPi RD; massK RD; massProton RD] - massXic RD) <? delta)%float),
     let reg :=
       if TESTBIT isSelected 0 && negb (activateQA =? 0)
       then QA.Fill h [ptXic; RecoDecay.m RD [pFirst; pOpposite; pSecond] [massProton RD; massK RD; massPi RD]] reg
       else reg in
     if TESTBIT isSelected 1 && negb (activateQA =? 0)
     then QA.Fill h [ptXic; RecoDecay.m RD [pFirst; pOpposite; pSecond] [massPi RD; massK RD; massProton RD]] reg
     else reg).
Proof. unfold isSelectedXicInMassRange. two_hypotheses. Qed.

Lemma isSelectedDplusInMassRange_mask pFirst pSecond pOpposite ptD delta activateQA h reg :
  isSelectedDplusInMassRange RD pFirst pSecond pOpposite ptD delta activateQA h reg
  = (Z.b2z (negb (abs (RecoDecay.m RD [pFirst; pSecond; pOpposite]
                         [massPi RD; massPi RD; massK RD] - massDPlus RD) >? delta)%float),
     if negb (activateQA =? 0)
     then QA.Fill h [ptD; RecoDecay.m RD [pFirst; pSecond; pOpposite]
                            [massPi RD; massPi RD; massK RD]] reg
     else reg).
Proof.
  unfold isSelectedDplusInMassRange. cbv zeta.
  destruct (abs _ >? delta)%float; reflexivity.
Qed.

Lemma filled_with_nothing (reg : QA.Registry) (h : QA.HistPtr) : filled_with reg reg h [].
Proof. split; reflexivity. Qed.

Lemma filled_with_Fill (reg reg' : QA.Registry) (h : QA.HistPtr) (new : QA.Hist)
    (entry : list float) :
  filled_with reg reg' h new ->
  filled_with reg (QA.Fill h entry reg') h (entry :: new).
Proof.
  intros [Hh Hother]. split.
  - now rewrite entries_Fill, Hh.
  - intros h' Hne. rewrite entries_Fill_ne by congruence. now apply Hother.
Qed.

(** The registry after a tagger of two mass hypotheses. *)
Lemma two_fills (reg : QA.Registry) (h : QA.HistPtr) (isSelected activateQA : Z)
    (first second : list float) :
  let reg0 :=
    if TESTBIT isSelected 0 && negb (activateQA =? 0) then QA.Fill h first reg else reg in
  let reg1 :=
    if TESTBIT isSelected 1 && negb (activateQA =? 0) then QA.Fill h second reg0 else reg0 in
  (activateQA = 0 -> reg1 = reg) /\
  (activateQA <> 0 -> filled_with reg reg1 h (tested isSelected first second)).
Proof.
  cbv zeta. unfold tested. split.
  - intros ->. cbn. now rewrite !andb_false_r.
  - intros Hqa. apply Z.eqb_neq in Hqa. rewrite Hqa. cbn [negb]. rewrite !andb_true_r.
    destruct (TESTBIT isSelected 0), (TESTBIT isSelected 1); cbn [app];
      repeat apply filled_with_Fill; apply filled_with_nothing.
Qed.

Section Candidate.
Variables pTrackPos pTrackNeg pFirst pSecond pOpposite : Momentum.
Variable pt : float.
Variable activateQA : Z.
Variable hMassVsPt : QA.HistPtr.
Variable reg : QA.Registry.

(** X7: the masks of the D0, Ds, Lc and Xic mass-window taggers have no
    bit beyond bit 0 and bit 1, whatever the bits of [isSelected] (the
    bits 2 and 3 that the comment of the Ds tagger names are never set),
    and tagging a candidate again with the mask that the tagger answered
    gives that mask again. *)
Theorem mass_window_masks_idempotent (isSelected : Z) (delta : float) :
  let d0 sel := fst (isSelectedD0InMassRange RD pTrackPos pTrackNeg pt sel delta
                       activateQA hMassVsPt reg) in
  let ds sel := fst (isSelectedDsInMassRange RD pFirst pSecond pOpposite pt sel delta
                       activateQA hMassVsPt reg) in
  let lc sel := fst (isSelectedLcInMassRange RD pFirst pSecond pOpposite pt sel delta
                       activateQA hMassVsPt reg) in
  let xic sel := fst (isSelectedXicInMassRange RD pFirst pSecond pOpposite pt sel delta
                        activateQA hMassVsPt reg) in
  (0 <= d0 isSelected < 4 /\ d0 (d0 isSelected) = d0 isSelected) /\
  (0 <= ds isSelected < 4 /\ ds (ds isSelected) = ds isSelected) /\
  (0 <= lc isSelected < 4 /\ lc (lc isSelected) = lc isSelected) /\
  (0 <= xic isSelected < 4 /\ xic (xic isSelected) = xic isSelected).
Proof.
  cbv beta zeta.
  rewrite !isSelectedD0InMassRange_mask, !isSelectedDsInMassRange_mask,
    !isSelectedLcInMassRange_mask, !isSelectedXicInMassRange_mask.
  cbn [fst].
  repeat match goal with
         | |- context [TESTBIT (two_bits ?a ?b) 0] =>
             destruct (TESTBIT_two_bits a b) as [-> ->]
         end.
  destruct (TESTBIT isSelected 0), (TESTBIT isSelected 1); cbn [andb];
    repeat match goal with
           | |- context [(abs ?x <? ?d)%float] => destruct (abs x <? d)%float
           end;
    unfold two_bits; cbn; repeat split; lia.
Qed.

(** X8: with QA switched on, each tagger fills [hMassVsPt] with the pair
    (pT, invariant mass) of every mass hypothesis that it tests, inside
    or outside of the mass window, and touches no other histogram: one
    entry for each of the bits 0 and 1 of [isSelected] for the D0, Ds, Lc
    and Xic taggers, one entry always for the D+ tagger.  With QA
    switched off the registry is left as it is. *)
Theorem mass_window_QA_entries (isSelected : Z) (delta : float) :
  let m := RecoDecay.m RD in
  let two := [pTrackPos; pTrackNeg] in
  let three := [pFirst; pOpposite; pSecond] in
  let d0 := snd (isSelectedD0InMassRange RD pTrackPos pTrackNeg pt isSelected delta
                   activateQA hMassVsPt reg) in
  let dplus := snd (isSelectedDplusInMassRange RD pFirst pSecond pOpposite pt delta
                      activateQA hMassVsPt reg) in
  let ds := snd (isSelectedDsInMassRange RD pFirst pSecond pOpposite pt isSelected delta
                   activateQA hMassVsPt reg) in
  let lc := snd (isSelectedLcInMassRange RD pFirst pSecond pOpposite pt isSelected delta
                   activateQA hMassVsPt reg) in
  let xic := snd (isSelectedXicInMassRange RD pFirst pSecond pOpposite pt isSelected delta
                    activateQA hMassVsPt reg) in
  (activateQA = 0 ->
   d0 = reg /\ dplus = reg /\ ds = reg /\ lc = reg /\ xic = reg) /\
  (activateQA <> 0 ->
   filled_with reg d0 hMassVsPt
     (tested isSelected [pt; m two [massPi RD; massK RD]]
                        [pt; m two [massK RD; massPi RD]]) /\
   filled_with reg dplus hMassVsPt
     [[pt; m [pFirst; pSecond; pOpposite] [massPi RD; massPi RD; massK RD]]] /\
   filled_with reg ds hMassVsPt
     (tested isSelected [pt; m three [massK RD; massK RD; massPi RD]]
                        [pt; m three [massPi RD; massK RD; massK RD]]) /\
   filled_with reg lc hMassVsPt
     (tested isSelected [pt; m three [massProton RD; massK RD; massPi RD]]
                        [pt; m three [massPi RD; massK RD; massProton RD]]) /\
   filled_with reg xic hMassVsPt
     (tested isSelected [pt; m three [massProton RD; massK RD; massPi RD]]
                        [pt; m three [massPi RD; massK RD; massProton RD]])).
Proof.
  cbv zeta.
  rewrite isSelectedD0InMassRange_mask, isSelectedDsInMassRange_mask,
    isSelectedLcInMassRange_mask, isSelectedXicInMassRange_mask,
    isSelectedDplusInMassRange_mask.
  cbn [snd]. split.
  - intros Hqa. repeat split; try (now apply two_fills).
    now rewrite Hqa.
  - intros Hqa. repeat split; try (now apply two_fills);
      apply Z.eqb_neq in Hqa; rewrite Hqa; cbn [negb].
    + apply entries_Fill.
    + intros h' Hne. apply entries_Fill_ne. congruence.
Qed.

(** X9: the D+ tagger rejects a candidate only when the deviation of its
    mass from the D+ mass is above [delta], the other taggers accept a
    hypothesis only when the deviation is below [delta].  So a deviation
    equal to [delta], a mass that is not a number and a [delta] that is
    not a number are accepted by the D+ tagger and rejected by the D0
    tagger. *)
Theorem mass_window_edges (isSelected : Z) (delta : float) :
  let mDplus := RecoDecay.m RD [pFirst; pSecond; pOpposite]
                  [massPi RD; massPi RD; massK RD] in
  let mD0 := RecoDecay.m RD [pTrackPos; pTrackNeg] [massPi RD; massK RD] in
  let mD0bar := RecoDecay.m RD [pTrackPos; pTrackNeg] [massK RD; massPi RD] in
  let dplus := fst (isSelectedDplusInMassRange RD pFirst pSecond pOpposite pt delta
                      activateQA hMassVsPt reg) in
  let d0 := fst (isSelectedD0InMassRange RD pTrackPos pTrackNeg pt isSelected delta
                   activateQA hMassVsPt reg) in
  ((abs (mDplus - massDPlus RD) =? delta)%float = true \/
   Prim2SF mDplus = S754_nan \/ Prim2SF delta = S754_nan -> dplus = 1) /\
  ((abs (mD0 - massD0 RD) =? delta)%float = true \/
   Prim2SF mD0 = S754_nan \/ Prim2SF delta = S754_nan -> Z.testbit d0 0 = false) /\
  ((abs (mD0bar - massD0 RD) =? delta)%float = true \/
   Prim2SF mD0bar = S754_nan \/ Prim2SF delta = S754_nan -> Z.testbit d0 1 = false).
Proof.
  cbv zeta.
  rewrite isSelectedD0InMassRange_mask, isSelectedDplusInMassRange_mask. cbn [fst].
  assert (Hedge : forall dev m mass,
            dev = abs (m - mass)%float ->
            (dev =? delta)%float = true \/
            Prim2SF m = S754_nan \/ Prim2SF delta = S754_nan ->
            (dev <? delta)%float = false /\ (dev >? delta)%float = false).
  { intros dev m mass -> [Heq|[Hnan|Hnan]]; unfold Fp.gtb.
    - now apply FpOrder.eqb_not_ltb.
    - pose proof (FpOrder.nan_not_ordered _ delta (FpOrder.abs_sub_nan m mass Hnan)).
      tauto.
    - pose proof (FpOrder.nan_not_ordered delta (abs (m - mass)) Hnan). tauto. }
  split; [|split]; intros H;
    match goal with
    | H : (abs (?m - ?mass) =? _)%float = true \/ _ |- _ =>
        destruct (Hedge _ m mass eq_refl H) as [Hlt Hgt]
    end.
  - now rewrite Hgt.
  - rewrite Hlt, andb_false_r.
    destruct (TESTBIT isSelected 1 && _); reflexivity.
  - rewrite Hlt, andb_false_r.
    destruct (TESTBIT isSelected 0 && _); reflexivity.
Qed.

(** X10: widening the mass window never loses a candidate: for
    [delta <= delta'] the mask that each of the five taggers answers for
    [delta] is a subset of the mask that it answers for [delta']. *)
Theorem mass_window_widening (isSelected : Z) (delta delta' : float) :
  (delta <=? delta')%float = true ->
  let d0 d := fst (isSelectedD0InMassRange RD pTrackPos pTrackNeg pt isSelected d
                     activateQA hMassVsPt reg) in
  let dplus d := fst (isSelectedDplusInMassRange RD pFirst pSecond pOpposite pt d
                        activateQA hMassVsPt reg) in
  let ds d := fst (isSelectedDsInMassRange RD pFirst pSecond pOpposite pt isSelected d
                     activateQA hMassVsPt reg) in
  let lc d := fst (isSelectedLcInMassRange RD pFirst pSecond pOpposite pt isSelected d
                     activateQA hMassVsPt reg) in
  let xic d := fst (isSelectedXicInMassRange RD pFirst pSecond pOpposite pt isSelected d
                      activateQA hMassVsPt reg) in
  Z.land (d0 delta) (d0 delta') = d0 delta /\
  Z.land (dplus delta) (dplus delta') = dplus delta /\
  Z.land (ds delta) (ds delta') = ds delta /\
  Z.land (lc delta) (lc delta') = lc delta /\
  Z.land (xic delta) (xic delta') = xic delta.
Proof.
  intros Hle. cbv beta zeta.
  rewrite !isSelectedD0InMassRange_mask, !isSelectedDsInMassRange_mask,
    !isSelectedLcInMassRange_mask, !isSelectedXicInMassRange_mask,
    !isSelectedDplusInMassRange_mask.
  cbn [fst].
  assert (Hin : forall sel dev, sel && (dev <? delta)%float = true ->
                                sel && (dev <? delta')%float = true).
  { intros sel dev H. apply andb_true_iff in H as [-> H]. cbn.
    now apply (FpOrder.ltb_leb_trans _ _ _ H Hle). }
  repeat split; try (apply two_bits_subset; apply Hin).
  unfold Fp.gtb.
  destruct (delta' <? abs _)%float eqn:Hout.
  - now rewrite (FpOrder.leb_ltb_trans _ _ _ Hle Hout).
  - destruct (delta <? abs _)%float; reflexivity.
Qed.

End Candidate.

End WithRecoDecay.

(** On the sample, whose invariant mass is 1.8648 whatever the momenta:
    the D0 hypothesis lies within a window of 0.001 and within the wider
    one of 0.05. *)
Lemma mass_window_widening_witness :
  let p := MoreSamples.momentum in
  Z.land (fst (isSelectedD0InMassRange Sample.reco p p 2 3 0.001 0 1%positive ∅))
         (fst (isSelectedD0InMassRange Sample.reco p p 2 3 0.05 0 1%positive ∅))
  = fst (isSelectedD0InMassRange Sample.reco p p 2 3 0.001 0 1%positive ∅) /\
  fst (isSelectedD0InMassRange Sample.reco p p 2 3 0.001 0 1%positive ∅) = 3.
Proof.
  split; [|reflexivity].
  exact (proj1 (mass_window_widening Sample.reco MoreSamples.momentum MoreSamples.momentum
                  MoreSamples.momentum MoreSamples.momentum MoreSamples.momentum
                  2 0 1%positive ∅ 3 0.001 0.05 eq_refl)).
Defined.

End MassWindows.

(** ** The photon selection *)

Module PhotonSelection.
Import hffilters MoreNotions gammaNotions.

Lemma entries_after_Fill (h h' : QA.HistPtr) (entry : list float) (reg : QA.Registry) :
  entries (QA.Fill h entry reg) h'
  = if Pos.eqb h h' then entry :: entries reg h else entries reg h'.
Proof.
  destruct (Pos.eqb_spec h h') as [<-|Hne].
  - apply MassWindows.entries_Fill.
  - now apply MassWindows.entries_Fill_ne.
Qed.

(** The outcome codes of the rejections differ from the code of the
    selection. *)
Lemma outcome_code (selected : bool) (outcome : float) :
  (selected = false /\ In outcome [1; 2; 3; 4; 5]%float) \/
  (selected = true /\ outcome = 6%float) ->
  In outcome [1; 2; 3; 4; 5; 6]%float /\ (selected = true <-> outcome = 6%float).
Proof.
  assert (Hne : forall x, In x [1; 2; 3; 4; 5]%float -> x <> 6%float).
  { intros x Hin E. subst x. cbn in Hin.
    repeat (destruct Hin as [Hin|Hin];
            [apply (f_equal (fun v => (v =? 6)%float)) in Hin; vm_compute in Hin;
             discriminate|]).
    exact Hin. }
  intros [[-> Hin]|[-> ->]].
  - split.
    + cbn in *. tauto.
    + split; [discriminate|]. intros E. now apply Hne in Hin.
  - split; [cbn; tauto|tauto].
Qed.

(** Reading a histogram after a sequence of fills, the histograms filled
    being different ones. *)
Ltac read_entries :=
  repeat (rewrite entries_after_Fill;
          first [ rewrite Pos.eqb_refl
                | match goal with
                  | Hneq : forall a b : positive, a <> b -> Pos.eqb a b = false |- _ =>
                      rewrite Hneq by (intros E; intuition congruence)
                  end ]);
  reflexivity.

(** X11: with QA at level 2 or more and five distinct histograms,
    [isSelectedGamma] counts every candidate twice in [hGammaSelected]:
    once under 0 and once under a single outcome code from 1 to 6, the
    code being 6 exactly when the candidate is selected.  The histograms
    "before" get the candidate always, the histograms "after" only when
    it is selected.  Below level 2 the registry is left as it is. *)
Theorem isSelectedGamma_QA_bookkeeping (gamma : Gamma.t) (gammaCosinePA : float)
    (activateQA : Z)
    (hGammaSelected hGammaEtaBefore hGammaEtaAfter : QA.HistPtr)
    (hGammaArmPodBefore hGammaArmPodAfter : QA.HistPtr) (reg : QA.Registry) :
  List.NoDup [hGammaSelected; hGammaEtaBefore; hGammaEtaAfter;
              hGammaArmPodBefore; hGammaArmPodAfter] ->
  let selected := fst (isSelectedGamma gamma gammaCosinePA activateQA hGammaSelected
                         hGammaEtaBefore hGammaEtaAfter hGammaArmPodBefore
                         hGammaArmPodAfter reg) in
  let reg' := snd (isSelectedGamma gamma gammaCosinePA activateQA hGammaSelected
                     hGammaEtaBefore hGammaEtaAfter hGammaArmPodBefore
                     hGammaArmPodAfter reg) in
  (activateQA <= 1 -> reg' = reg) /\
  (1 < activateQA ->
   (exists outcome,
      entries reg' hGammaSelected = [outcome] :: [0%float] :: entries reg hGammaSelected /\
      In outcome [1; 2; 3; 4; 5; 6]%float /\
      (selected = true <-> outcome = 6%float)) /\
   entries reg' hGammaEtaBefore = [Gamma.eta gamma] :: entries reg hGammaEtaBefore /\
   entries reg' hGammaArmPodBefore
   = [Gamma.alpha gamma; Gamma.qtarm gamma] :: entries reg hGammaArmPodBefore /\
   entries reg' hGammaEtaAfter
   = (if selected then [[Gamma.eta gamma]] else []) ++ entries reg hGammaEtaAfter /\
   entries reg' hGammaArmPodAfter
   = (if selected then [[Gamma.alpha gamma; Gamma.qtarm gamma]] else [])
     ++ entries reg hGammaArmPodAfter /\
   forall h, ~ In h [hGammaSelected; hGammaEtaBefore; hGammaEtaAfter;
                     hGammaArmPodBefore; hGammaArmPodAfter] ->
     entries reg' h = entries reg h).
Proof.
  intros Hnodup. cbv zeta. unfold isSelectedGamma. cbv zeta. split.
  - intros Hqa. destruct (Z.gtb_spec activateQA 1) as [Hgt|_]; [lia|].
    repeat match goal with
           | |- context [if ?c then _ else _] => destruct c
           end; reflexivity.
  - intros Hqa. destruct (Z.gtb_spec activateQA 1) as [_|Hle]; [|lia].
    repeat match goal with
           | H : List.NoDup (_ :: _) |- _ =>
               apply NoDup_cons_iff in H; destruct H as [? H]; cbn [In] in *
           end.
    assert (Hneq : forall a b : positive, a <> b -> Pos.eqb a b = false)
      by (intros a b; apply Pos.eqb_neq).
    assert (Hout : forall h,
              ~ In h [hGammaSelected; hGammaEtaBefore; hGammaEtaAfter;
                      hGammaArmPodBefore; hGammaArmPodAfter] ->
              Pos.eqb hGammaSelected h = false /\ Pos.eqb hGammaEtaBefore h = false /\
              Pos.eqb hGammaEtaAfter h = false /\ Pos.eqb hGammaArmPodBefore h = false /\
              Pos.eqb hGammaArmPodAfter h = false).
    { intros h Hh. cbn [In] in Hh. repeat split; apply Hneq; tauto. }
    repeat match goal with
           | |- context [if ?c then (false, _) else _] => destruct c
           end; cbn [fst snd app];
      (split;
       [eexists; split; [read_entries|apply outcome_code; cbn; tauto]
       |split; [read_entries|]; split; [read_entries|];
        split; [read_entries|]; split; [read_entries|];
        intros h Hh; destruct (Hout h Hh) as (E1 & E2 & E3 & E4 & E5);
        rewrite !entries_after_Fill, ?E1, ?E2, ?E3, ?E4, ?E5; reflexivity]).
Qed.

(** The sample photon is selected; with QA at level 2 and an empty
    registry it is counted under 0 and under 6. *)
Lemma isSelectedGamma_QA_bookkeeping_witness :
  let reg' := snd (isSelectedGamma MoreSamples.gamma 0.9 2 1%positive 2%positive 3%positive 4%positive 5%positive ∅) in
  exists outcome,
    entries reg' 1%positive = [outcome] :: [0%float] :: entries ∅ 1%positive /\
    In outcome [1; 2; 3; 4; 5; 6]%float /\
    (fst (isSelectedGamma MoreSamples.gamma 0.9 2 1%positive 2%positive 3%positive 4%positive 5%positive ∅) = true
     <-> outcome = 6%float) /\
    fst (isSelectedGamma MoreSamples.gamma 0.9 2 1%positive 2%positive 3%positive 4%positive 5%positive ∅) = true.
Proof.
  assert (Hnodup : List.NoDup [1; 2; 3; 4; 5]%positive).
  { repeat constructor; cbn; intuition discriminate. }
  destruct (proj1 (proj2 (isSelectedGamma_QA_bookkeeping MoreSamples.gamma 0.9 2
                            1%positive 2%positive 3%positive 4%positive 5%positive ∅
                            Hnodup) ltac:(lia)))
    as (outcome & Hentries & Hin & Hiff).
  exists outcome. repeat split; try assumption; try apply Hiff; reflexivity.
Defined.

Lemma abs_flip (b : bool) (x : float) : abs (flip b x) = abs x.
Proof. destruct b; [apply FpOrder.abs_opp|reflexivity]. Qed.

Lemma pow2_div_flip (b : bool) (x c : float) : Fp.pow2 (flip b x / c) = Fp.pow2 (x / c).
Proof. destruct b; [apply FpOrder.pow2_div_opp|reflexivity]. Qed.

(** X12: the photon selection is symmetric: changing the sign of the
    pseudorapidity, of the Armenteros-Podolanski alpha, of qT or of the
    pair angle of a candidate, in any combination, does not change the
    verdict of [isSelectedGamma]. *)
Theorem isSelectedGamma_mirror_symmetric (bEta bAlpha bQt bPsi : bool) (gamma : Gamma.t)
    (gammaCosinePA : float) (activateQA activateQA' : Z)
    (hSel hEtaB hEtaA hArmB hArmA hSel' hEtaB' hEtaA' hArmB' hArmA' : QA.HistPtr)
    (reg reg' : QA.Registry) :
  fst (isSelectedGamma (mirrored bEta bAlpha bQt bPsi gamma) gammaCosinePA activateQA
         hSel hEtaB hEtaA hArmB hArmA reg)
  = fst (isSelectedGamma gamma gammaCosinePA activateQA'
           hSel' hEtaB' hEtaA' hArmB' hArmA' reg').
Proof.
  unfold isSelectedGamma, mirrored. cbv zeta.
  cbn [Gamma.eta Gamma.alpha Gamma.qtarm Gamma.v0radius Gamma.psipair].
  rewrite !abs_flip, !pow2_div_flip.
  destruct (abs (Gamma.eta gamma) >? 0.8)%float; [reflexivity|].
  destruct ((Gamma.v0radius gamma <? 0) || (Gamma.v0radius gamma >? 180))%float;
    [reflexivity|].
  destruct (Fp.pow2 (Gamma.alpha gamma / 0.95) + Fp.pow2 (Gamma.qtarm gamma / 0.05) >=? 1)%float;
    [reflexivity|].
  destruct (abs (Gamma.psipair gamma) >? 0.1)%float; [reflexivity|].
  destruct (gammaCosinePA <? 0.85)%float; reflexivity.
Qed.

End PhotonSelection.

(** ** The count of candidates does not depend on the order *)

Module CandidateCounting.
Import hffilters Notions countNotions CandidateCounter.

(** With two candidates or more the answer is 0 or 2, and 0 exactly when
    every candidate shares a daughter with every other candidate. *)
Lemma computeNumberOfCandidates_zero_or_two (indices : list (list Z)) :
  (2 <= List.length indices)%nat ->
  computeNumberOfCandidates indices = 0 \/ computeNumberOfCandidates indices = 2.
Proof.
  intros Hlen. rewrite computeNumberOfCandidates_many by assumption.
  destruct (_ =? 0); [now left|now right].
Qed.

Lemma computeNumberOfCandidates_zero_iff (indices : list (list Z)) :
  (2 <= List.length indices)%nat ->
  computeNumberOfCandidates indices = 0 <-> all_share indices.
Proof.
  intros Hlen. rewrite computeNumberOfCandidates_many by assumption.
  destruct (back_of_sort _ (counts_nonempty indices Hlen)) as [Hin Hmax].
  set (greatest := List.last _ 0) in *. split.
  - intros Hzero. destruct (Z.eqb_spec greatest 0) as [E|_]; [|discriminate].
    intros iCand j first second Hne Ei Ej.
    assert (Hi : (iCand < List.length indices)%nat) by (apply nth_error_Some; congruence).
    assert (Hj : (j < List.length indices)%nat) by (apply nth_error_Some; congruence).
    assert (Hcount : countIndependent indices iCand = 0).
    { pose proof (countIndependent_nonneg indices iCand).
      assert (countIndependent indices iCand <= greatest).
      { apply Hmax, in_map_iff. exists iCand. split; [reflexivity|]. apply in_seq. lia. }
      lia. }
    rewrite countIndependent_zero in Hcount. specialize (Hcount j Hj).
    apply (counted_false indices iCand j first second Ei Ej) in Hcount. tauto.
  - intros Hall. apply in_map_iff in Hin as (iCand & Hi & Hseq). apply in_seq in Hseq.
    assert (Hzero : countIndependent indices iCand = 0).
    { apply countIndependent_zero. intros j Hj.
      destruct (nth_error indices iCand) as [first|] eqn:Ei;
        [|apply nth_error_None in Ei; lia].
      destruct (nth_error indices j) as [second|] eqn:Ej;
        [|apply nth_error_None in Ej; lia].
      apply (counted_false indices iCand j first second Ei Ej).
      destruct (Nat.eq_dec iCand j); [now left|right]. now apply (Hall iCand j). }
    rewrite <- Hi, Hzero. reflexivity.
Qed.

(** Sharing a daughter, and the order of daughters and of candidates. *)
Lemma shares_daughter_sym (first second : list Z) :
  shares_daughter first second -> shares_daughter second first.
Proof. intros (idx & H1 & H2). exists idx. tauto. Qed.

Lemma shares_daughter_perm (first first' second second' : list Z) :
  Permutation first first' -> Permutation second second' ->
  shares_daughter first second -> shares_daughter first' second'.
Proof.
  intros P1 P2 (idx & H1 & H2). exists idx.
  split; eapply Permutation_in; eassumption.
Qed.

Lemma all_share_cons (first : list Z) (rest : list (list Z)) :
  all_share (first :: rest) <->
  (forall second, In second rest -> shares_daughter first second) /\ all_share rest.
Proof.
  split.
  - intros Hall. split.
    + intros second Hin. apply In_nth_error in Hin as [n Hn].
      apply (Hall 0%nat (S n)); [lia|reflexivity|exact Hn].
    + intros i j a b Hne Hi Hj. apply (Hall (S i) (S j)); [lia|exact Hi|exact Hj].
  - intros [Hfirst Hrest] i j a b Hne Hi Hj.
    destruct i as [|i], j as [|j]; cbn in Hi, Hj.
    + lia.
    + injection Hi as <-. apply Hfirst. eapply nth_error_In; eassumption.
    + injection Hj as <-. apply shares_daughter_sym, Hfirst.
      eapply nth_error_In; eassumption.
    + apply (Hrest i j); [lia|exact Hi|exact Hj].
Qed.

Lemma all_share_perm (indices indices' : list (list Z)) :
  Permutation indices indices' -> all_share indices -> all_share indices'.
Proof.
  induction 1 as [|x l l' HP IH|x y l|l l' l'' _ IH1 _ IH2]; intros Hall.
  - exact Hall.
  - apply all_share_cons in Hall as [Hx Hl]. apply all_share_cons. split.
    + intros second Hin. apply Hx. eapply Permutation_in; [symmetry|]; eassumption.
    + now apply IH.
  - apply all_share_cons in Hall as [Hy Hall]. apply all_share_cons in Hall as [Hx Hl].
    apply all_share_cons. split.
    + intros second [<-|Hin]; [|now apply Hx].
      apply shares_daughter_sym, Hy. now left.
    + apply all_share_cons. split; [|exact Hl].
      intros second Hin. apply Hy. now right.
  - auto.
Qed.

Lemma all_share_daughters (indices indices' : list (list Z)) :
  Forall2 (@Permutation Z) indices indices' -> all_share indices -> all_share indices'.
Proof.
  induction 1 as [|x x' l l' Hx Hl IH]; intros Hall; [exact Hall|].
  apply all_share_cons in Hall as [Hfirst Hrest]. apply all_share_cons. split.
  - intros second' Hin.
    assert (Hex : exists second, In second l /\ Permutation second second').
    { clear -Hl Hin. induction Hl as [|a a' r r' Ha Hr IHr]; [destruct Hin|].
      destruct Hin as [<-|Hin].
      - exists a. split; [now left|exact Ha].
      - destruct (IHr Hin) as (s & Hs & HP). exists s. split; [now right|exact HP]. }
    destruct Hex as (second & Hs & HP).
    eapply shares_daughter_perm; [exact Hx|exact HP|]. now apply Hfirst.
  - now apply IH.
Qed.

Lemma same_candidates_sym (indices indices' : list (list Z)) :
  same_candidates indices indices' -> same_candidates indices' indices.
Proof.
  intros (mid & HF & HP).
  assert (Hex : forall l l' : list (list Z), Forall2 (@Permutation Z) l l' ->
            forall k, Permutation l' k ->
            exists k', Permutation l k' /\ Forall2 (@Permutation Z) k' k).
  { clear. intros l l' HF k HP. revert l HF.
    induction HP as [|x m m' HP IH|x y m|m m' m'' _ IH1 _ IH2]; intros l HF.
    - inversion HF; subst. exists []. split; constructor.
    - inversion HF as [|a ? r ? Ha Hr]; subst.
      destruct (IH r Hr) as (k' & Hk & HF').
      exists (a :: k'). split; [now constructor|now constructor].
    - inversion HF as [|a ? r ? Ha Hr]; subst.
      inversion Hr as [|b ? r' ? Hb Hr']; subst.
      exists (b :: a :: r'). split; [apply perm_swap|].
      constructor; [exact Hb|]. constructor; [exact Ha|exact Hr'].
    - destruct (IH1 l HF) as (k1 & Hk1 & HF1).
      assert (Hmid : exists l1, Forall2 (@Permutation Z) l1 m' /\ Permutation l l1).
      { exists k1. split; [exact HF1|exact Hk1]. }
      destruct Hmid as (l1 & HF1' & HP1).
      destruct (IH2 l1 HF1') as (k2 & Hk2 & HF2).
      exists k2. split; [etransitivity; eassumption|exact HF2]. }
  destruct (Hex _ _ HF _ HP) as (k' & Hk & HF').
  exists k'. split.
  - clear -HF'. induction HF'; constructor; [now symmetry|assumption].
  - now symmetry.
Qed.

Lemma same_candidates_length (indices indices' : list (list Z)) :
  same_candidates indices indices' -> List.length indices = List.length indices'.
Proof.
  intros (mid & HF & HP). rewrite <- (Permutation_length HP).
  clear -HF. induction HF; cbn; congruence.
Qed.

Lemma same_candidates_all_share (indices indices' : list (list Z)) :
  same_candidates indices indices' -> all_share indices -> all_share indices'.
Proof.
  intros (mid & HF & HP) Hall.
  eapply all_share_perm; [exact HP|]. eapply all_share_daughters; eassumption.
Qed.

(** X13: [computeNumberOfCandidates] looks at the candidates as sets of
    daughters: its answer is the same after the daughters within each
    candidate and the candidates themselves are put in another order. *)
Theorem computeNumberOfCandidates_order_independent (indices indices' : list (list Z)) :
  same_candidates indices indices' ->
  computeNumberOfCandidates indices = computeNumberOfCandidates indices'.
Proof.
  intros Hsame. pose proof (same_candidates_length _ _ Hsame) as Hlen.
  destruct (Nat.ltb_spec (List.length indices) 2) as [Hlt|Hge].
  - unfold computeNumberOfCandidates. rewrite <- Hlen.
    destruct (Nat.ltb_spec (List.length indices) 2); [reflexivity|lia].
  - assert (Hge' : (2 <= List.length indices')%nat) by lia.
    pose proof (computeNumberOfCandidates_zero_iff indices Hge) as Hz.
    pose proof (computeNumberOfCandidates_zero_iff indices' Hge') as Hz'.
    destruct (computeNumberOfCandidates_zero_or_two indices Hge) as [E|E],
             (computeNumberOfCandidates_zero_or_two indices' Hge') as [E'|E'];
      rewrite E, E'; try reflexivity; exfalso.
    + apply Hz in E. apply (same_candidates_all_share _ _ Hsame), Hz' in E. lia.
    + apply Hz' in E'.
      apply (same_candidates_all_share _ _ (same_candidates_sym _ _ Hsame)), Hz in E'. lia.
Qed.

(** Three candidates of which the first and the second share no daughter,
    in two orders. *)
Lemma computeNumberOfCandidates_order_independent_witness :
  computeNumberOfCandidates [[1; 2]; [3; 4]; [2; 5]]
  = computeNumberOfCandidates [[5; 2]; [2; 1]; [4; 3]] /\
  computeNumberOfCandidates [[1; 2]; [3; 4]; [2; 5]] = 2.
Proof.
  split; [|reflexivity].
  apply computeNumberOfCandidates_order_independent.
  exists [[2; 1]; [4; 3]; [5; 2]]. split.
  - repeat constructor.
  - apply perm_trans with [[2; 1]; [5; 2]; [4; 3]].
    + apply perm_skip, perm_swap.
    + apply perm_swap.
Defined.

End CandidateCounting.

(** ** More on the relative momentum *)

Module RelativeMomentum.
Import ROOTMath femto Notions femtoNotions FemtoKinematics.
#[local] Open Scope R_scope.

Lemma P_SetXYZT (x y z t : R) : P (SetXYZT x y z t) = sqrt (x * x + y * y + z * z).
Proof. reflexivity. Qed.

Lemma sqrt_four_times (a : R) : 0 <= a -> sqrt (4 * a) = 2 * sqrt a.
Proof.
  intros Ha. rewrite sqrt_mult by lra. f_equal.
  replace 4 with (2 * 2) by ring. apply sqrt_square. lra.
Qed.

(** The length of the difference of two opposite momenta. *)
Lemma P_sub_opposite (a b : PxPyPzMVector) :
  fX a + fX b = 0 -> fY a + fY b = 0 -> fZ a + fZ b = 0 ->
  0.5 * P (sub a b) = P a /\ 0.5 * P (sub a b) = P b.
Proof.
  intros HX HY HZ. unfold sub. rewrite P_SetXYZT. unfold P, P2.
  assert (Ha : 0 <= fX a * fX a + fY a * fY a + fZ a * fZ a) by nra.
  replace ((fX a - fX b) * (fX a - fX b) + (fY a - fY b) * (fY a - fY b)
           + (fZ a - fZ b) * (fZ a - fZ b))
    with (4 * (fX a * fX a + fY a * fY a + fZ a * fZ a)) by nra.
  replace (fX b * fX b + fY b * fY b + fZ b * fZ b)
    with (fX a * fX a + fY a * fY a + fZ a * fZ a) by nra.
  rewrite sqrt_four_times by assumption. split; lra.
Qed.




(** The momentum of the track in the rest frame of the pair, in terms of
    the squared invariant mass [s] of the pair. *)
Lemma rest_frame_momentum_squared (massProton px py pz c0 c1 c2 CharmMass : R) :
  0 < massProton -> 0 <= CharmMass ->
  let part1 := PxPyPzMVector_new px py pz massProton in
  let part2 := PxPyPzMVector_new c0 c1 c2 CharmMass in
  let s := (E part1 + E part2) * (E part1 + E part2)
           - ((px + c0) * (px + c0) + (py + c1) * (py + c1) + (pz + c2) * (pz + c2)) in
  exists boostv12,
    Boost_new (BoostToCM (add part1 part2)) = Some boostv12 /\
    0 < s /\
    4 * s * P2 (Boost_apply boostv12 part1)
    = (s - (massProton + CharmMass) * (massProton + CharmMass))
      * (s - (massProton - CharmMass) * (massProton - CharmMass)).
Proof.
  intros Hmp HM. cbv zeta.
  destruct (BoostToCM_pair massProton px py pz c0 c1 c2 CharmMass Hmp HM)
    as (He & Hs & ->).
  destruct (velocity_below_one _ _ _ _ He Hs) as [[Hge Hlt] _].
  destruct (E_new px py pz massProton (Rlt_le _ _ Hmp)) as (X1 & Y1 & Z1 & _ & E1sq).
  destruct (E_new c0 c1 c2 CharmMass HM) as (X2 & Y2 & Z2 & _ & E2sq).
  set (part1 := PxPyPzMVector_new px py pz massProton) in *.
  set (part2 := PxPyPzMVector_new c0 c1 c2 CharmMass) in *.
  unfold Boost_new. destruct (Rle_dec 1 _) as [Hle|_]; [lra|].
  eexists. split; [reflexivity|]. split; [lra|].
  unfold Boost_apply, SetXYZT, P2.
  cbv [fX fY fZ kXX kXY kXZ kXT kYY kYZ kYT kZZ kZT kTT].
  fold (fX part1) (fY part1) (fZ part1) (fX part2) (fY part2) (fZ part2).
  rewrite X1, Y1, Z1.
  assert (Hww : sqrt (1 - (- (px + c0) / (E part1 + E part2) * (- (px + c0) / (E part1 + E part2))
                           + - (py + c1) / (E part1 + E part2) * (- (py + c1) / (E part1 + E part2))
                           + - (pz + c2) / (E part1 + E part2) * (- (pz + c2) / (E part1 + E part2))))
                * sqrt (1 - (- (px + c0) / (E part1 + E part2) * (- (px + c0) / (E part1 + E part2))
                             + - (py + c1) / (E part1 + E part2) * (- (py + c1) / (E part1 + E part2))
                             + - (pz + c2) / (E part1 + E part2) * (- (pz + c2) / (E part1 + E part2))))
                = 1 - (- (px + c0) / (E part1 + E part2) * (- (px + c0) / (E part1 + E part2))
                       + - (py + c1) / (E part1 + E part2) * (- (py + c1) / (E part1 + E part2))
                       + - (pz + c2) / (E part1 + E part2) * (- (pz + c2) / (E part1 + E part2))))
    by (apply sqrt_sqrt; lra).
  assert (Hwpos : 0 < sqrt (1 - (- (px + c0) / (E part1 + E part2) * (- (px + c0) / (E part1 + E part2))
                           + - (py + c1) / (E part1 + E part2) * (- (py + c1) / (E part1 + E part2))
                           + - (pz + c2) / (E part1 + E part2) * (- (pz + c2) / (E part1 + E part2)))))
    by (apply sqrt_lt_R0; lra).
  set (w := sqrt _) in *.
  assert (Hiw : w * / w = 1) by (apply Rinv_r; lra).
  assert (Hiwpos : 0 < / w) by (apply Rinv_0_lt_compat; lra).
  assert (Hj : (1 + 1 / w) * / (1 + 1 / w) = 1) by (apply Rinv_r; unfold Rdiv; lra).
  assert (Hi : (E part1 + E part2) * / (E part1 + E part2) = 1) by (apply Rinv_r; lra).
  unfold Rdiv in *.
  set (j := / (1 + 1 * / w)) in *. set (iw := / w) in *.
  set (i := / (E part1 + E part2)) in *.
  clearbody j iw i w.
  set (e1 := E part1) in *. set (e2 := E part2) in *. clearbody e1 e2.
  clear Hge Hlt Hwpos Hiwpos He Hs.
  nsatz.
Qed.

Lemma E_energy (px py pz m : R) :
  0 <= m -> E (PxPyPzMVector_new px py pz m) = energy m (px, py, pz).
Proof.
  intros Hm. destruct (E_new px py pz m Hm) as (_ & _ & _ & Hpos & Hsq).
  cbv zeta in Hpos, Hsq. unfold energy. rewrite <- Hsq. symmetry. now apply sqrt_square.
Qed.




End RelativeMomentum.

(** ** The photon cluster skimmer *)

Module ClusterSkimming.
Import skimmerGamma MoreNotions skimNotions.

Section Task.
Variables minTime maxTime minM02 maxM02 : float.

#[local] Abbreviation processCluster := (processCluster minTime maxTime minM02 maxM02).
#[local] Abbreviation processRec := (processRec minTime maxTime minM02 maxM02).
#[local] Abbreviation inTime := (inTime minTime maxTime).
#[local] Abbreviation inShape := (inShape minM02 maxM02).
#[local] Abbreviation kept := (kept minTime maxTime minM02 maxM02).

(** One turn of the loop, by the outcome of the two cuts. *)
Lemma processCluster_cases (st : State) (calocluster : SkimEMCCluster.t) :
  processCluster st calocluster
  = if negb (inTime calocluster) then
      mkState (SkimEMCCluster.energy calocluster :: hCaloClusterEIn st)
        (hCaloClusterEOut st) (1 :: 0 :: hCaloClusterFilter st) (tableGammaReco st)
    else if negb (inShape calocluster) then
      mkState (SkimEMCCluster.energy calocluster :: hCaloClusterEIn st)
        (hCaloClusterEOut st) (2 :: 0 :: hCaloClusterFilter st) (tableGammaReco st)
    else
      mkState (SkimEMCCluster.energy calocluster :: hCaloClusterEIn st)
        (SkimEMCCluster.energy calocluster :: hCaloClusterEOut st)
        (3 :: 0 :: hCaloClusterFilter st)
        (tableGammaReco st ++ [gammaOf calocluster]).
Proof.
  unfold skimmerGamma.processCluster, skimNotions.inTime, skimNotions.inShape, within.
  rewrite !negb_involutive. cbn [hCaloClusterEIn hCaloClusterEOut hCaloClusterFilter
                                 tableGammaReco].
  destruct (_ || _)%float; [reflexivity|].
  destruct (_ || _)%float; reflexivity.
Qed.

Lemma processRec_table (caloclusters : list SkimEMCCluster.t) (st : State) :
  tableGammaReco (processRec caloclusters st)
  = tableGammaReco st ++ List.map gammaOf (List.filter kept caloclusters).
Proof.
  revert st. induction caloclusters as [|c rest IH]; intros st.
  - cbn. now rewrite app_nil_r.
  - unfold skimmerGamma.processRec in *. cbn [fold_left]. rewrite IH.
    rewrite processCluster_cases. cbn [List.filter]. unfold skimNotions.kept.
    destruct (inTime c); cbn [negb andb]; [|reflexivity].
    destruct (inShape c); cbn [negb tableGammaReco List.map]; [|reflexivity].
    now rewrite <- app_assoc.
Qed.

(** X17: [processRec] writes one row for each cluster that is within
    the time cut and within the M02 cut, in the order of the clusters and
    after the rows already written; the row carries the collision, the
    energy, eta, phi and the index of its cluster, and the identifier 1.
    No cluster outside of a cut is written, and none is written twice. *)
Theorem processRec_writes_kept_clusters (caloclusters : list SkimEMCCluster.t)
    (st : State) :
  tableGammaReco (processRec caloclusters st)
  = tableGammaReco st ++ List.map gammaOf (List.filter kept caloclusters) /\
  (forall row, In row (List.map gammaOf (List.filter kept caloclusters)) ->
     exists calocluster,
       In calocluster caloclusters /\ row = gammaOf calocluster /\
       (SkimEMCCluster.time calocluster >? maxTime)%float = false /\
       (SkimEMCCluster.time calocluster <? minTime)%float = false /\
       (SkimEMCCluster.m02 calocluster >? maxM02)%float = false /\
       (SkimEMCCluster.m02 calocluster <? minM02)%float = false) /\
  (List.length (tableGammaReco (processRec caloclusters st))
   <= List.length (tableGammaReco st) + List.length caloclusters)%nat.
Proof.
  split; [apply processRec_table|]. split.
  - intros row Hin. apply in_map_iff in Hin as (c & <- & Hc).
    apply filter_In in Hc as [Hc Hk]. exists c.
    unfold skimNotions.kept, skimNotions.inTime, skimNotions.inShape, within in Hk.
    apply andb_true_iff in Hk as [Ht Hm].
    apply negb_true_iff, orb_false_iff in Ht as [? ?].
    apply negb_true_iff, orb_false_iff in Hm as [? ?].
    repeat split; assumption.
  - rewrite processRec_table, length_app, length_map.
    pose proof (filter_length_le kept caloclusters). lia.
Qed.

(** The fills of the three histograms. *)
Lemma processRec_hists (caloclusters : list SkimEMCCluster.t) (st : State) :
  exists new,
    hCaloClusterFilter (processRec caloclusters st) = new ++ hCaloClusterFilter st /\
    fills 0 new = List.length caloclusters /\
    fills 1 new = List.length (List.filter (fun c => negb (inTime c)) caloclusters) /\
    fills 2 new
    = List.length (List.filter (fun c => inTime c && negb (inShape c)) caloclusters) /\
    fills 3 new = List.length (List.filter kept caloclusters) /\
    (forall code, In code new -> In code [0; 1; 2; 3]) /\
    hCaloClusterEIn (processRec caloclusters st)
    = List.rev (List.map SkimEMCCluster.energy caloclusters) ++ hCaloClusterEIn st /\
    hCaloClusterEOut (processRec caloclusters st)
    = List.rev (List.map SkimEMCCluster.energy (List.filter kept caloclusters))
      ++ hCaloClusterEOut st.
Proof.
  revert st. induction caloclusters as [|c rest IH]; intros st.
  - exists []. cbn. repeat split; try reflexivity. tauto.
  - unfold skimmerGamma.processRec in *. cbn [fold_left].
    destruct (IH (processCluster st c)) as (new & HF & H0 & H1 & H2 & H3 & Hcodes & HIn & HOut).
    rewrite HF, HIn, HOut. rewrite processCluster_cases.
    cbn [List.filter List.map List.rev List.length]. unfold skimNotions.kept in *.
    unfold fills in *.
    destruct (inTime c); cbn [negb andb].
    + destruct (inShape c); cbn [negb andb hCaloClusterFilter hCaloClusterEIn
                                    hCaloClusterEOut List.map List.rev List.length].
      * exists (new ++ [3; 0]).
        rewrite !List.filter_app, !List.length_app. cbn. rewrite <- !app_assoc. cbn.
        repeat split; try reflexivity; try lia.
        intros code Hc. apply in_app_iff in Hc as [Hc|Hc]; [now apply Hcodes|].
        cbn in *. tauto.
      * exists (new ++ [2; 0]).
        rewrite !List.filter_app, !List.length_app. cbn. rewrite <- !app_assoc. cbn.
        repeat split; try reflexivity; try lia.
        intros code Hc. apply in_app_iff in Hc as [Hc|Hc]; [now apply Hcodes|].
        cbn in *. tauto.
    + cbn [hCaloClusterFilter hCaloClusterEIn hCaloClusterEOut].
      exists (new ++ [1; 0]).
      rewrite !List.filter_app, !List.length_app. cbn. rewrite <- !app_assoc. cbn.
      repeat split; try reflexivity; try lia.
      intros code Hc. apply in_app_iff in Hc as [Hc|Hc]; [now apply Hcodes|].
      cbn in *. tauto.
Qed.

(** The clusters are split by the outcome of the cuts. *)
Lemma outcomes_partition (caloclusters : list SkimEMCCluster.t) :
  (List.length (List.filter (fun c => negb (inTime c)) caloclusters)
   + List.length (List.filter (fun c => inTime c && negb (inShape c)) caloclusters)
   + List.length (List.filter kept caloclusters)
   = List.length caloclusters)%nat.
Proof.
  induction caloclusters as [|c rest IH]; [reflexivity|].
  cbn [List.filter]. unfold skimNotions.kept in *.
  destruct (inTime c), (inShape c); cbn [negb andb List.length]; lia.
Qed.

(** X18: the histogram [hCaloClusterFilter] accounts for every cluster:
    [processRec] fills the bin "in" once for each cluster and exactly one
    of the bins "time cut", "M02 cut" and "out" with it, so the fills of
    these three bins add up to those of "in", and the fills of "out" are
    as many as the rows written.  [hCaloClusterEIn] gets the energy of
    every cluster and [hCaloClusterEOut] the energy of every cluster
    written. *)
Theorem processRec_accounts_for_clusters (caloclusters : list SkimEMCCluster.t)
    (st : State) :
  exists new,
    hCaloClusterFilter (processRec caloclusters st) = new ++ hCaloClusterFilter st /\
    (forall code, In code new -> In code [0; 1; 2; 3]) /\
    fills 0 new = List.length caloclusters /\
    (fills 1 new + fills 2 new + fills 3 new = fills 0 new)%nat /\
    fills 1 new = List.length (List.filter (fun c => negb (inTime c)) caloclusters) /\
    (List.length (tableGammaReco (processRec caloclusters st))
     = List.length (tableGammaReco st) + fills 3 new)%nat /\
    hCaloClusterEIn (processRec caloclusters st)
    = List.rev (List.map SkimEMCCluster.energy caloclusters) ++ hCaloClusterEIn st /\
    hCaloClusterEOut (processRec caloclusters st)
    = List.rev (List.map SkimGamma.energy
                  (List.map gammaOf (List.filter kept caloclusters)))
      ++ hCaloClusterEOut st.
Proof.
  destruct (processRec_hists caloclusters st)
    as (new & HF & H0 & H1 & H2 & H3 & Hcodes & HIn & HOut).
  exists new. split; [exact HF|]. split; [exact Hcodes|]. split; [exact H0|].
  split; [rewrite H0, H1, H2, H3; apply outcomes_partition|].
  split; [exact H1|].
  split; [rewrite processRec_table, length_app, length_map, H3; reflexivity|].
  split; [exact HIn|].
  rewrite HOut, map_map. reflexivity.
Qed.

End Task.
End ClusterSkimming.

(** ** More on the Dalitz task: what the track selection stores *)

Module DalitzTrackSelection.
Import Bits BitsFacts dalitzPairing dalitzNotions DalitzPairingFacts.

Section Task.
Context {Values : Type}.
Variable VM : VarManager.t Values.
Variable fTrackCuts : list (AnalysisCompositeCut.t Values).

(** A bit below 8 that was set or that is the bit of a cut that selects
    the variables is set in the filter map that [selectTrack] answers. *)
Lemma selectTrack_sets (cuts : list (AnalysisCompositeCut.t Values)) (i : Z)
    (values : Values) (filterMap j : Z) :
  0 <= i -> 0 <= j < 8 ->
  Z.testbit filterMap j = true \/
  (i <= j /\ exists cut, cuts !! Z.to_nat (j - i) = Some cut /\
                         AnalysisCompositeCut.IsSelected cut values = true) ->
  Z.testbit (selectTrack cuts i values filterMap) j = true.
Proof.
  revert i filterMap. induction cuts as [|cut rest IH]; intros i filterMap Hi Hj H.
  - destruct H as [H|(_ & c & Hc & _)]; [exact H|discriminate].
  - cbn [selectTrack]. apply IH; [lia|assumption|].
    destruct H as [H|(Hij & c & Hc & Hsel)].
    + left. destruct (AnalysisCompositeCut.IsSelected cut values); [|exact H].
      rewrite testbit_set_cut, H by lia. cbn. apply Z.ltb_lt. lia.
    + destruct (Z.eq_dec j i) as [->|Hne].
      * left. rewrite Z.sub_diag in Hc. cbn in Hc. injection Hc as ->.
        rewrite Hsel, testbit_set_cut, Z.eqb_refl, orb_true_r by lia.
        cbn. apply Z.ltb_lt. lia.
      * right. split; [lia|]. exists c. split; [|exact Hsel].
        replace (Z.to_nat (j - i)) with (S (Z.to_nat (j - (i + 1)))) in Hc by lia.
        exact Hc.
Qed.

Lemma selectTrack_range (cuts : list (AnalysisCompositeCut.t Values)) (i : Z)
    (values : Values) (filterMap : Z) :
  0 <= filterMap < 256 -> 0 <= selectTrack cuts i values filterMap < 256.
Proof.
  revert i filterMap. induction cuts as [|cut rest IH]; intros i filterMap H; [exact H|].
  cbn [selectTrack]. apply IH.
  destruct (AnalysisCompositeCut.IsSelected cut values); [apply uint8_t_range|exact H].
Qed.

(** The bits of a filter map are those of the first eight track cuts that
    select the track. *)
Lemma filterMapOf_bits (track : MyBarrelTrack.t) (values : Values) (i : Z) :
  0 <= i ->
  Z.testbit (filterMapOf VM fTrackCuts track values) i = true <->
  i < 8 /\ exists cut, fTrackCuts !! Z.to_nat i = Some cut /\
                       AnalysisCompositeCut.IsSelected cut
                         (VarManager.FillTrack VM track values) = true.
Proof.
  intros Hi. unfold filterMapOf. split.
  - intros Hbit. apply selectTrack_testbit in Hbit; [|lia|assumption].
    destruct Hbit as [Hbit|(Hrange & cut & Hcut & Hsel)].
    + change (uint8_t 0) with 0 in Hbit. now rewrite Z.bits_0 in Hbit.
    + split; [lia|]. exists cut. rewrite Z.sub_0_r in Hcut. now split.
  - intros (Hlt & cut & Hcut & Hsel). apply selectTrack_sets; [lia|lia|].
    right. split; [assumption|]. exists cut. rewrite Z.sub_0_r. now split.
Qed.

Lemma filterMapOf_range (track : MyBarrelTrack.t) (values : Values) :
  0 <= filterMapOf VM fTrackCuts track values < 256.
Proof. apply selectTrack_range. change (uint8_t 0) with 0. lia. Qed.

(** [runTrackSelection] leaves the entries of other indices as they are. *)
Lemma runTrackSelection_others (tracksBarrel : list MyBarrelTrack.t)
    (st : State (Values := Values)) (idx : Z) :
  ~ In idx (List.map MyBarrelTrack.globalIndex tracksBarrel) ->
  fTrackmap (runTrackSelection VM fTrackCuts tracksBarrel st) !! idx = fTrackmap st !! idx.
Proof.
  revert st. induction tracksBarrel as [|track rest IH]; intros st Hnotin; [reflexivity|].
  unfold runTrackSelection in *. cbn [fold_left]. cbn [List.map In] in Hnotin.
  rewrite IH by tauto. cbn [fTrackmap].
  destruct (negb _); [|reflexivity].
  apply lookup_insert_ne. tauto.
Qed.

(** The entry that [runTrackSelection] stores for a track: its filter
    map, and no entry when the filter map is empty. *)
Lemma runTrackSelection_entry (tracksBarrel : list MyBarrelTrack.t)
    (st : State (Values := Values)) (track : MyBarrelTrack.t) :
  List.NoDup (List.map MyBarrelTrack.globalIndex tracksBarrel) ->
  In track tracksBarrel ->
  fTrackmap st !! MyBarrelTrack.globalIndex track = None ->
  exists values,
    fTrackmap (runTrackSelection VM fTrackCuts tracksBarrel st)
      !! MyBarrelTrack.globalIndex track
    = if filterMapOf VM fTrackCuts track values =? 0 then None
      else Some (filterMapOf VM fTrackCuts track values).
Proof.
  revert st. induction tracksBarrel as [|t rest IH]; intros st Hnd Hin Hnone; [destruct Hin|].
  cbn [List.map] in Hnd. apply NoDup_cons_iff in Hnd as [Hfresh Hnd].
  unfold runTrackSelection in *. cbn [fold_left].
  fold (filterMapOf VM fTrackCuts t (fgValues st)).
  destruct Hin as [->|Hin].
  - exists (fgValues st).
    pose proof (runTrackSelection_others rest) as Hothers.
    unfold runTrackSelection in Hothers. rewrite Hothers by assumption.
    cbn [fTrackmap].
    destruct (filterMapOf VM fTrackCuts track (fgValues st) =? 0); cbn [negb];
      [exact Hnone|apply lookup_insert_eq].
  - apply IH; [assumption|assumption|]. cbn [fTrackmap].
    destruct (negb _); [|exact Hnone].
    rewrite lookup_insert_ne; [exact Hnone|].
    intros E. apply Hfresh. rewrite E. now apply in_map.
Qed.


End Task.


End DalitzTrackSelection.

(** ** More on the Dalitz task: the bits that the pairing sets *)

Module DalitzPairs.
Import Bits BitsFacts dalitzPairing dalitzNotions pairNotions.
Import DalitzPairingFacts DalitzTrackSelection.

Lemma or_assign_sets (d : gmap Z Z) (k icut idx j : Z) :
  0 <= icut -> 0 <= j < 8 ->
  Z.testbit (at_ d idx) j = true \/ (idx = k /\ j = icut) ->
  Z.testbit (at_ (or_assign d k (Z.shiftl (uint8_t 1) icut)) idx) j = true.
Proof.
  intros Hi Hj H. rewrite or_assign_at.
  destruct (decide (k = idx)) as [<-|Hne].
  - rewrite testbit_set_cut by lia.
    replace (j <? 8) with true by (symmetry; apply Z.ltb_lt; lia).
    rewrite andb_true_r. destruct H as [->|[_ ->]]; [reflexivity|].
    now rewrite Z.eqb_refl, orb_true_r.
  - destruct H as [H|[E _]]; [exact H|congruence].
Qed.

(** Pairs of a list with itself: two rows of which the first comes
    before the second. *)
Lemma combinations_complete {A : Type} (before between after : list A) (a b : A) :
  In (a, b) (combinations (before ++ a :: between ++ b :: after)
                          (before ++ a :: between ++ b :: after)).
Proof.
  induction before as [|x rest IH]; cbn [app combinations].
  - apply in_or_app. left. apply in_map, in_or_app. right. now left.
  - apply in_or_app. right. exact IH.
Qed.

Lemma NoDup_map_filter {A B : Type} (f : A -> B) (p : A -> bool) (l : list A) :
  List.NoDup (List.map f l) -> List.NoDup (List.map f (List.filter p l)).
Proof.
  induction l as [|x rest IH]; cbn [List.map List.filter]; intros Hnd; [constructor|].
  apply NoDup_cons_iff in Hnd as [Hfresh Hnd].
  destruct (p x); cbn [List.map]; [|now apply IH].
  apply NoDup_cons_iff. split; [|now apply IH].
  intros Hin. apply Hfresh. apply in_map_iff in Hin as (y & E & Hy).
  apply filter_In in Hy as [Hy _]. rewrite <- E. now apply in_map.
Qed.

(** A number whose bits are among the eight low ones is a byte. *)
Lemma byte_of_bits (z : Z) :
  (forall j, 0 <= j -> Z.testbit z j = true -> j < 8) -> 0 <= z < 256.
Proof.
  intros Hbits. destruct (Z.lt_ge_cases z 0) as [Hneg|Hpos].
  - exfalso. apply Z.bits_iff_neg_ex in Hneg as [k Hk].
    specialize (Hk (Z.max k 8 + 1) ltac:(lia)).
    apply Hbits in Hk; lia.
  - split; [exact Hpos|].
    destruct (Z.eq_dec z 0) as [->|Hnz]; [lia|].
    change 256 with (2 ^ 8). apply Z.log2_lt_pow2; [lia|].
    apply Hbits; [apply Z.log2_nonneg|]. apply Z.bit_log2. lia.
Qed.

Section Task.
Context {Values : Type}.
Variable VM : VarManager.t Values.
Variable fEventCut : AnalysisCompositeCut.t Values.
Variable fTrackCuts : list (AnalysisCompositeCut.t Values).
Variable fPairCuts : list (AnalysisCompositeCut.t Values).
Variable fQA : bool.

#[local] Abbreviation contributes := (contributes VM fPairCuts).

(** The loop over the pair cuts keeps the bits below 8 that are set and
    sets, for both tracks, the bit of each cut whose bit is in
    [twoTracksFilterMap] and that selects the pair. *)
Lemma selectPair_sets (cuts : list (AnalysisCompositeCut.t Values)) (icut : Z)
    (track1 track2 : MyBarrelTrack.t) (twoTracksFilterMap : Z)
    (st : State (Values := Values)) :
  0 <= icut ->
  let st' := selectPair fTrackCuts fQA cuts icut track1 track2 twoTracksFilterMap st in
  forall idx j, 0 <= j < 8 ->
    Z.testbit (at_ (fDalitzmap st) idx) j = true \/
    ((idx = MyBarrelTrack.globalIndex track1 \/ idx = MyBarrelTrack.globalIndex track2) /\
     icut <= j /\ Z.testbit twoTracksFilterMap j = true /\
     exists cut, cuts !! Z.to_nat (j - icut) = Some cut /\
                 AnalysisCompositeCut.IsSelected cut (fgValues st) = true) ->
    Z.testbit (at_ (fDalitzmap st') idx) j = true.
Proof.
  revert icut st. induction cuts as [|pairCut rest IH]; intros icut st Hi; cbv zeta;
    intros idx j Hj H.
  - destruct H as [H|(_ & _ & _ & c & Hc & _)]; [exact H|discriminate].
  - cbn [selectPair].
    match goal with
    | |- context [selectPair _ _ rest (icut + 1) _ _ _ ?st1] => set (st1' := st1)
    end.
    assert (Hv1 : fgValues st1' = fgValues st).
    { subst st1'. destruct (_ =? 0); [reflexivity|].
      destruct (AnalysisCompositeCut.IsSelected pairCut (fgValues st)); reflexivity. }
    assert (Hkeep : forall idx', Z.testbit (at_ (fDalitzmap st) idx') j = true ->
                                 Z.testbit (at_ (fDalitzmap st1') idx') j = true).
    { intros idx' Hbit. subst st1'. destruct (_ =? 0); [exact Hbit|].
      destruct (AnalysisCompositeCut.IsSelected pairCut (fgValues st)); [|exact Hbit].
      cbn [fDalitzmap]. apply or_assign_sets; [assumption|assumption|left].
      apply or_assign_sets; [assumption|assumption|now left]. }
    apply (IH (icut + 1) st1' ltac:(lia)); [assumption|].
    destruct H as [H|(Hidx & Hij & Htwo & c & Hc & Hsel)]; [left; now apply Hkeep|].
    destruct (Z.eq_dec j icut) as [->|Hne].
    + left. rewrite Z.sub_diag in Hc. cbn in Hc. injection Hc as ->.
      subst st1'. rewrite land_cut_nonzero, Htwo by assumption. cbn [negb].
      rewrite Hsel. cbn [fDalitzmap].
      destruct Hidx as [-> | ->].
      * apply or_assign_sets; [assumption|assumption|left].
        apply or_assign_sets; [assumption|assumption|now right].
      * apply or_assign_sets; [assumption|assumption|now right].
    + right. split; [exact Hidx|]. split; [lia|]. split; [exact Htwo|].
      exists c. rewrite Hv1. split; [|exact Hsel].
      replace (Z.to_nat (j - icut)) with (S (Z.to_nat (j - (icut + 1)))) in Hc by lia.
      exact Hc.
Qed.

(** One pair: the bits below 8 that are set stay, and those that the
    pair contributes are set. *)
Lemma pairTracks_sets (st : State (Values := Values))
    (pair : MyBarrelTrack.t * MyBarrelTrack.t) :
  let st' := pairTracks VM fTrackCuts fPairCuts fQA st pair in
  forall idx j, 0 <= j < 8 ->
    Z.testbit (at_ (fDalitzmap st) idx) j = true \/
    contributes (fTrackmap st) (fgValues st) pair idx j ->
    Z.testbit (at_ (fDalitzmap st') idx) j = true.
Proof.
  destruct pair as [track1 track2]. cbv zeta. intros idx j Hj H. unfold pairTracks.
  destruct (Z.gtb_spec (MyBarrelTrack.sign track1 * MyBarrelTrack.sign track2) 0)
    as [Hsame|Hsign].
  { destruct H as [H|(_ & Hs & _)]; [exact H|]. cbn [fst snd] in Hs. lia. }
  pose proof (subscript_fst (fTrackmap st) (MyBarrelTrack.globalIndex track1)) as Hf1.
  pose proof (subscript_at (fTrackmap st) (MyBarrelTrack.globalIndex track1)) as Ha1.
  destruct (subscript (fTrackmap st) (MyBarrelTrack.globalIndex track1)) as [map1 m1].
  cbn [fst snd] in Hf1, Ha1.
  pose proof (subscript_fst m1 (MyBarrelTrack.globalIndex track2)) as Hf2.
  destruct (subscript m1 (MyBarrelTrack.globalIndex track2)) as [map2 m2].
  cbn [fst snd] in Hf2. rewrite Ha1 in Hf2.
  assert (Htwo : contributes (fTrackmap st) (fgValues st) (track1, track2) idx j ->
                 Z.testbit (uint8_t (Z.land map1 map2)) j = true).
  { intros (_ & _ & _ & H1 & H2 & _). cbn [fst snd] in H1, H2.
    rewrite testbit_uint8_t, Z.land_spec, Hf1, Hf2, H1, H2 by lia.
    cbn. apply Z.ltb_lt. lia. }
  destruct (Z.eqb_spec (uint8_t (Z.land map1 map2)) 0) as [Hzero|Hnz].
  { cbn [fDalitzmap]. destruct H as [H|H]; [exact H|].
    apply Htwo in H. rewrite Hzero, Z.bits_0 in H. discriminate. }
  cbn [fTrackmap fDalitzmap fgValues fHistMan fStatsList].
  match goal with
  | |- context [selectPair _ _ _ 0 _ _ _ ?st0] =>
      pose proof (selectPair_sets fPairCuts 0 track1 track2 (uint8_t (Z.land map1 map2))
                    st0 ltac:(lia)) as Hsets
  end.
  cbv zeta in Hsets. apply Hsets; [assumption|]. cbn [fDalitzmap fgValues].
  destruct H as [H|H]; [now left|right].
  pose proof (Htwo H) as Hbit.
  destruct H as (Hidx & _ & _ & _ & _ & cut & Hcut & Hsel). cbn [fst snd] in *.
  split; [exact Hidx|]. split; [lia|]. split; [exact Hbit|].
  exists cut. rewrite Z.sub_0_r. now split.
Qed.

(** The loop over the pairs keeps the bits below 8 that are set. *)
Lemma pairs_keep (pairs : list (MyBarrelTrack.t * MyBarrelTrack.t))
    (st : State (Values := Values)) (idx j : Z) :
  0 <= j < 8 ->
  Z.testbit (at_ (fDalitzmap st) idx) j = true ->
  Z.testbit (at_ (fDalitzmap (fold_left (pairTracks VM fTrackCuts fPairCuts fQA) pairs st))
               idx) j = true.
Proof.
  intros Hj. revert st. induction pairs as [|pair rest IH]; intros st Hbit; [exact Hbit|].
  cbn [fold_left]. apply IH. apply pairTracks_sets; [assumption|now left].
Qed.

(** A pair of the loop that contributes a bit whatever the variables
    hold has this bit set at the end of the loop. *)
Lemma pairs_set (pairs : list (MyBarrelTrack.t * MyBarrelTrack.t))
    (st : State (Values := Values)) (pair : MyBarrelTrack.t * MyBarrelTrack.t)
    (idx j : Z) :
  0 <= j < 8 -> In pair pairs ->
  (forall values, contributes (fTrackmap st) values pair idx j) ->
  Z.testbit (at_ (fDalitzmap (fold_left (pairTracks VM fTrackCuts fPairCuts fQA) pairs st))
               idx) j = true.
Proof.
  intros Hj. revert st. induction pairs as [|p rest IH]; intros st Hin Hc; [destruct Hin|].
  cbn [fold_left]. destruct Hin as [->|Hin].
  - apply pairs_keep; [assumption|]. apply pairTracks_sets; [assumption|right]. apply Hc.
  - apply IH; [assumption|]. intros values.
    destruct (pairTracks_spec VM fTrackCuts fPairCuts fQA st p) as [Hm _]. cbv zeta in Hm.
    apply (contributes_ext VM fPairCuts (fTrackmap st)); [exact Hm|apply Hc].
Qed.

(** The pairing of one collision keeps the bits below 8 that are set, and
    sets those that a pair contributes whatever the variables hold. *)
Lemma runDalitzPairing_sets (tracks1 tracks2 : list MyBarrelTrack.t)
    (st : State (Values := Values)) (idx j : Z) :
  0 <= j < 8 ->
  Z.testbit (at_ (fDalitzmap st) idx) j = true \/
  (exists pair, In pair (combinations tracks1 tracks2) /\
                forall values, contributes (fTrackmap st) values pair idx j) ->
  Z.testbit (at_ (fDalitzmap (runDalitzPairing VM fTrackCuts fPairCuts fQA
                                tracks1 tracks2 st)) idx) j = true.
Proof.
  intros Hj H. unfold runDalitzPairing. cbv zeta.
  assert (Hpairs : Z.testbit (at_ (fDalitzmap
                      (fold_left (pairTracks VM fTrackCuts fPairCuts fQA)
                         (combinations tracks1 tracks2) st)) idx) j = true).
  { destruct H as [H|(pair & Hin & Hc)].
    - now apply pairs_keep.
    - now apply (pairs_set _ _ pair). }
  destruct fQA; [|exact Hpairs].
  rewrite (fill_hists_spec VM fTrackCuts fPairCuts). exact Hpairs.
Qed.

(** The state at the start of the pairing of a collision. *)
Lemma runTrackSelection_dalitzmap (tracksBarrel : list MyBarrelTrack.t)
    (st : State (Values := Values)) :
  fDalitzmap (runTrackSelection VM fTrackCuts tracksBarrel st) = fDalitzmap st.
Proof.
  revert st. induction tracksBarrel as [|track rest IH]; intros st; [reflexivity|].
  unfold runTrackSelection in *. cbn [fold_left]. now rewrite IH.
Qed.

Lemma processCollision_keep (filteredTracks : list MyBarrelTrack.t)
    (st : State (Values := Values)) (collision : MyEvent.t) (idx j : Z) :
  0 <= j < 8 ->
  Z.testbit (at_ (fDalitzmap st) idx) j = true ->
  Z.testbit (at_ (fDalitzmap (processCollision VM fEventCut fTrackCuts fPairCuts fQA
                                filteredTracks st collision)) idx) j = true.
Proof.
  intros Hj Hbit. unfold processCollision. cbv zeta.
  cbn [fgValues fDalitzmap fHistMan fStatsList].
  destruct (AnalysisCompositeCut.IsSelected fEventCut _); [|exact Hbit].
  apply runDalitzPairing_sets; [assumption|left].
  now rewrite runTrackSelection_dalitzmap.
Qed.

Lemma collisions_keep (filteredTracks : list MyBarrelTrack.t)
    (collisions : list MyEvent.t) (st : State (Values := Values)) (idx j : Z) :
  0 <= j < 8 ->
  Z.testbit (at_ (fDalitzmap st) idx) j = true ->
  Z.testbit (at_ (fDalitzmap
                    (fold_left (processCollision VM fEventCut fTrackCuts fPairCuts fQA
                                  filteredTracks) collisions st)) idx) j = true.
Proof.
  intros Hj. revert st. induction collisions as [|collision rest IH]; intros st Hbit;
    [exact Hbit|].
  cbn [fold_left]. apply IH. now apply processCollision_keep.
Qed.

(** What makes the bit [i] of two tracks of a collision certain: the
    event cut selects the collision, the two tracks are filtered tracks
    of the collision, the first before the second, not of the same sign,
    both selected by the track cut [i] and, as a pair, by the pair cut
    [i], whatever the variables held before. *)
Lemma processCollision_sets (filteredTracks : list MyBarrelTrack.t)
    (st : State (Values := Values)) (collision : MyEvent.t)
    (before between after : list MyBarrelTrack.t) (track1 track2 : MyBarrelTrack.t)
    (i : Z) (trackCut pairCut : AnalysisCompositeCut.t Values) :
  List.NoDup (List.map MyBarrelTrack.globalIndex filteredTracks) ->
  (forall values,
     AnalysisCompositeCut.IsSelected fEventCut
       (VarManager.FillEvent VM collision (VarManager.ResetValues VM values)) = true) ->
  sliceBy filteredTracks (MyEvent.globalIndex collision)
  = before ++ track1 :: between ++ track2 :: after ->
  ~ (MyBarrelTrack.sign track1 * MyBarrelTrack.sign track2 > 0) ->
  0 <= i < 8 ->
  fTrackCuts !! Z.to_nat i = Some trackCut ->
  fPairCuts !! Z.to_nat i = Some pairCut ->
  (forall values, AnalysisCompositeCut.IsSelected trackCut
                    (VarManager.FillTrack VM track1 values) = true) ->
  (forall values, AnalysisCompositeCut.IsSelected trackCut
                    (VarManager.FillTrack VM track2 values) = true) ->
  (forall values, AnalysisCompositeCut.IsSelected pairCut
                    (VarManager.FillPair VM track1 track2 values) = true) ->
  let st' := processCollision VM fEventCut fTrackCuts fPairCuts fQA
               filteredTracks st collision in
  Z.testbit (at_ (fDalitzmap st') (MyBarrelTrack.globalIndex track1)) i = true /\
  Z.testbit (at_ (fDalitzmap st') (MyBarrelTrack.globalIndex track2)) i = true.
Proof.
  intros Hnd Hevent Hgroup Hsign Hi HtrackCut HpairCut Hsel1 Hsel2 Hpair. cbv zeta.
  unfold processCollision. cbv zeta. cbn [fgValues fDalitzmap fHistMan fStatsList].
  rewrite Hevent.
  set (group := sliceBy filteredTracks (MyEvent.globalIndex collision)) in *.
  set (st0 := mkState ∅ (fDalitzmap st) _ (fHistMan st) (fStatsList st)).
  assert (Hndg : List.NoDup (List.map MyBarrelTrack.globalIndex group))
    by (apply NoDup_map_filter; exact Hnd).
  assert (Hin1 : In track1 group)
    by (rewrite Hgroup; apply in_or_app; right; now left).
  assert (Hin2 : In track2 group).
  { rewrite Hgroup. apply in_or_app. right. right. apply in_or_app. right. now left. }
  assert (Hmap : forall track, In track group ->
            (forall values, AnalysisCompositeCut.IsSelected trackCut
                              (VarManager.FillTrack VM track values) = true) ->
            Z.testbit (at_ (fTrackmap (runTrackSelection VM fTrackCuts group st0))
                         (MyBarrelTrack.globalIndex track)) i = true).
  { intros track Hin Hsel.
    destruct (runTrackSelection_entry VM fTrackCuts group st0 track Hndg Hin eq_refl)
      as [values Hentry].
    assert (Hbit : Z.testbit (filterMapOf VM fTrackCuts track values) i = true).
    { apply filterMapOf_bits; [lia|]. split; [lia|]. exists trackCut. now split. }
    unfold at_. rewrite Hentry.
    destruct (Z.eqb_spec (filterMapOf VM fTrackCuts track values) 0) as [E|_];
      [|exact Hbit].
    rewrite E, Z.bits_0 in Hbit. discriminate. }
  assert (Hc : forall idx,
            idx = MyBarrelTrack.globalIndex track1 \/ idx = MyBarrelTrack.globalIndex track2 ->
            forall values,
              contributes (fTrackmap (runTrackSelection VM fTrackCuts group st0)) values
                (track1, track2) idx i).
  { intros idx Hidx values. unfold dalitzNotions.contributes. cbn [fst snd].
    split; [exact Hidx|]. split; [exact Hsign|]. split; [exact Hi|].
    split; [now apply Hmap|]. split; [now apply Hmap|].
    exists pairCut. now split. }
  assert (Hcomb : In (track1, track2) (combinations group group))
    by (rewrite Hgroup; apply combinations_complete).
  split; (apply runDalitzPairing_sets; [assumption|right]);
    exists (track1, track2); (split; [exact Hcomb|]); apply Hc; auto.
Qed.

Lemma collisions_set (filteredTracks : list MyBarrelTrack.t)
    (collisions : list MyEvent.t) (st : State (Values := Values)) (collision : MyEvent.t)
    (before between after : list MyBarrelTrack.t) (track1 track2 : MyBarrelTrack.t)
    (i : Z) (trackCut pairCut : AnalysisCompositeCut.t Values) :
  List.NoDup (List.map MyBarrelTrack.globalIndex filteredTracks) ->
  In collision collisions ->
  (forall values,
     AnalysisCompositeCut.IsSelected fEventCut
       (VarManager.FillEvent VM collision (VarManager.ResetValues VM values)) = true) ->
  sliceBy filteredTracks (MyEvent.globalIndex collision)
  = before ++ track1 :: between ++ track2 :: after ->
  ~ (MyBarrelTrack.sign track1 * MyBarrelTrack.sign track2 > 0) ->
  0 <= i < 8 ->
  fTrackCuts !! Z.to_nat i = Some trackCut ->
  fPairCuts !! Z.to_nat i = Some pairCut ->
  (forall values, AnalysisCompositeCut.IsSelected trackCut
                    (VarManager.FillTrack VM track1 values) = true) ->
  (forall values, AnalysisCompositeCut.IsSelected trackCut
                    (VarManager.FillTrack VM track2 values) = true) ->
  (forall values, AnalysisCompositeCut.IsSelected pairCut
                    (VarManager.FillPair VM track1 track2 values) = true) ->
  let st' := fold_left (processCollision VM fEventCut fTrackCuts fPairCuts fQA
                          filteredTracks) collisions st in
  Z.testbit (at_ (fDalitzmap st') (MyBarrelTrack.globalIndex track1)) i = true /\
  Z.testbit (at_ (fDalitzmap st') (MyBarrelTrack.globalIndex track2)) i = true.
Proof.
  intros Hnd Hin Hevent Hgroup Hsign Hi HtrackCut HpairCut Hsel1 Hsel2 Hpair. cbv zeta.
  revert st. induction collisions as [|c rest IH]; intros st; [destruct Hin|].
  cbn [fold_left]. destruct Hin as [->|Hin]; [|now apply IH].
  destruct (processCollision_sets filteredTracks st collision before between after
              track1 track2 i trackCut pairCut Hnd Hevent Hgroup Hsign Hi HtrackCut
              HpairCut Hsel1 Hsel2 Hpair) as [H1 H2].
  split; apply collisions_keep; assumption.
Qed.

(** X20: the Dalitz bit [i] is certain for two filtered tracks of a
    collision that the event cut selects, when the two are not of the
    same sign, the track cut [i] (one of the first eight) selects both
    and the pair cut [i] selects the pair, the first track coming before
    the second in the table: [processFullTracks] then writes rows with
    the bit [i] set for both tracks, whatever else is paired before or
    after, and with or without QA. *)
Theorem dalitz_bits_of_a_selected_pair (collisions : list MyEvent.t)
    (filteredTracks tracks : list MyBarrelTrack.t) (st : State (Values := Values))
    (collision : MyEvent.t) (before between after : list MyBarrelTrack.t)
    (track1 track2 : MyBarrelTrack.t) (i : Z)
    (trackCut pairCut : AnalysisCompositeCut.t Values) :
  List.NoDup (List.map MyBarrelTrack.globalIndex filteredTracks) ->
  In collision collisions ->
  (forall values,
     AnalysisCompositeCut.IsSelected fEventCut
       (VarManager.FillEvent VM collision (VarManager.ResetValues VM values)) = true) ->
  sliceBy filteredTracks (MyEvent.globalIndex collision)
  = before ++ track1 :: between ++ track2 :: after ->
  MyBarrelTrack.sign track1 * MyBarrelTrack.sign track2 <= 0 ->
  0 <= i < 8 ->
  fTrackCuts !! Z.to_nat i = Some trackCut ->
  fPairCuts !! Z.to_nat i = Some pairCut ->
  (forall values, AnalysisCompositeCut.IsSelected trackCut
                    (VarManager.FillTrack VM track1 values) = true) ->
  (forall values, AnalysisCompositeCut.IsSelected trackCut
                    (VarManager.FillTrack VM track2 values) = true) ->
  (forall values, AnalysisCompositeCut.IsSelected pairCut
                    (VarManager.FillPair VM track1 track2 values) = true) ->
  let rows :=
    fst (processFullTracks VM fEventCut fTrackCuts fPairCuts fQA
           collisions filteredTracks tracks st) in
  forall k track, nth_error tracks k = Some track ->
    MyBarrelTrack.globalIndex track = MyBarrelTrack.globalIndex track1 \/
    MyBarrelTrack.globalIndex track = MyBarrelTrack.globalIndex track2 ->
    exists bits, nth_error rows k = Some bits /\ Z.testbit bits i = true.
Proof.
  intros Hnd Hin Hevent Hgroup Hsign Hi HtrackCut HpairCut Hsel1 Hsel2 Hpair. cbv zeta.
  intros k track Hk Hidx. unfold processFullTracks. cbv zeta.
  rewrite rows_spec. cbn [app].
  set (st0 := mkState (fTrackmap st) ∅ (fgValues st) (fHistMan st) (fStatsList st)).
  destruct (collisions_set filteredTracks collisions st0 collision before between after
              track1 track2 i trackCut pairCut Hnd Hin Hevent Hgroup ltac:(lia) Hi
              HtrackCut HpairCut Hsel1 Hsel2 Hpair) as [H1 H2].
  eexists. split; [rewrite nth_error_map, Hk; reflexivity|].
  destruct Hidx as [-> | ->]; assumption.
Qed.


(** *** Bits come in pairs *)

Lemma partners_sym (collisions : list MyEvent.t) (filteredTracks : list MyBarrelTrack.t)
    (idx idx' : Z) :
  partners collisions filteredTracks idx idx' -> partners collisions filteredTracks idx' idx.
Proof.
  intros (c & t & p & Hc & Ht & Hp & Hi & Hi' & Hs).
  exists c, p, t. repeat split; try assumption. now rewrite Z.mul_comm.
Qed.

Lemma coupled_ext (collisions : list MyEvent.t) (filteredTracks : list MyBarrelTrack.t)
    (d d' : gmap Z Z) :
  (forall idx, at_ d' idx = at_ d idx) ->
  coupled collisions filteredTracks d -> coupled collisions filteredTracks d'.
Proof.
  intros Hext Hd idx j Hj Hbit. rewrite Hext in Hbit.
  destruct (Hd idx j Hj Hbit) as (Hlt & idx' & Hp & Hbit').
  split; [exact Hlt|]. exists idx'. split; [exact Hp|]. now rewrite Hext.
Qed.

Lemma pairTracks_coupled (collisions : list MyEvent.t)
    (filteredTracks : list MyBarrelTrack.t) (st : State (Values := Values))
    (pair : MyBarrelTrack.t * MyBarrelTrack.t) :
  (~ (MyBarrelTrack.sign (fst pair) * MyBarrelTrack.sign (snd pair) > 0) ->
   partners collisions filteredTracks (MyBarrelTrack.globalIndex (fst pair))
     (MyBarrelTrack.globalIndex (snd pair))) ->
  coupled collisions filteredTracks (fDalitzmap st) ->
  coupled collisions filteredTracks
    (fDalitzmap (pairTracks VM fTrackCuts fPairCuts fQA st pair)).
Proof.
  intros Hpartners Hd idx j Hj Hbit.
  destruct (pairTracks_spec VM fTrackCuts fPairCuts fQA st pair) as [_ Hspec].
  cbv zeta in Hspec. apply Hspec in Hbit; [|assumption].
  pose proof (pairTracks_sets st pair) as Hsets. cbv zeta in Hsets.
  destruct Hbit as [Hbit|Hc].
  - destruct (Hd idx j Hj Hbit) as (Hlt & idx' & Hp & Hbit').
    split; [exact Hlt|]. exists idx'. split; [exact Hp|].
    apply Hsets; [lia|now left].
  - pose proof Hc as (Hidx & Hsign & Hrange & H1 & H2 & Hcut).
    split; [lia|].
    assert (Hboth : forall idx', idx' = MyBarrelTrack.globalIndex (fst pair)
                                 \/ idx' = MyBarrelTrack.globalIndex (snd pair) ->
              Z.testbit (at_ (fDalitzmap (pairTracks VM fTrackCuts fPairCuts fQA st pair))
                           idx') j = true).
    { intros idx' Hidx'. apply Hsets; [lia|right].
      unfold dalitzNotions.contributes. tauto. }
    destruct Hidx as [-> | ->].
    + exists (MyBarrelTrack.globalIndex (snd pair)).
      split; [now apply Hpartners|]. apply Hboth. now right.
    + exists (MyBarrelTrack.globalIndex (fst pair)).
      split; [apply partners_sym; now apply Hpartners|]. apply Hboth. now left.
Qed.

Lemma pairs_coupled (collisions : list MyEvent.t)
    (filteredTracks : list MyBarrelTrack.t)
    (pairs : list (MyBarrelTrack.t * MyBarrelTrack.t)) (st : State (Values := Values)) :
  (forall pair, In pair pairs ->
     ~ (MyBarrelTrack.sign (fst pair) * MyBarrelTrack.sign (snd pair) > 0) ->
     partners collisions filteredTracks (MyBarrelTrack.globalIndex (fst pair))
       (MyBarrelTrack.globalIndex (snd pair))) ->
  coupled collisions filteredTracks (fDalitzmap st) ->
  coupled collisions filteredTracks
    (fDalitzmap (fold_left (pairTracks VM fTrackCuts fPairCuts fQA) pairs st)).
Proof.
  revert st. induction pairs as [|pair rest IH]; intros st Hpairs Hd; [exact Hd|].
  cbn [fold_left]. apply IH.
  - intros p Hp. apply Hpairs. now right.
  - apply pairTracks_coupled; [|exact Hd]. apply Hpairs. now left.
Qed.

Lemma processCollision_coupled (collisions : list MyEvent.t)
    (filteredTracks : list MyBarrelTrack.t) (st : State (Values := Values))
    (collision : MyEvent.t) :
  In collision collisions ->
  coupled collisions filteredTracks (fDalitzmap st) ->
  coupled collisions filteredTracks
    (fDalitzmap (processCollision VM fEventCut fTrackCuts fPairCuts fQA
                   filteredTracks st collision)).
Proof.
  intros Hin Hd. unfold processCollision. cbv zeta.
  cbn [fgValues fDalitzmap fHistMan fStatsList].
  destruct (AnalysisCompositeCut.IsSelected fEventCut _); [|exact Hd].
  set (group := sliceBy filteredTracks (MyEvent.globalIndex collision)).
  set (st0 := mkState ∅ (fDalitzmap st) _ (fHistMan st) (fStatsList st)).
  set (st1 := runTrackSelection VM fTrackCuts group st0).
  assert (Hd1 : coupled collisions filteredTracks (fDalitzmap st1))
    by (subst st1; rewrite runTrackSelection_dalitzmap; exact Hd).
  assert (Hpairs : coupled collisions filteredTracks
            (fDalitzmap (fold_left (pairTracks VM fTrackCuts fPairCuts fQA)
                           (combinations group group) st1))).
  { apply pairs_coupled; [|exact Hd1].
    intros [a b] Hab Hsign. cbn [fst snd] in *.
    apply combinations_In in Hab as [Ha Hb].
    exists collision, a, b. repeat split; assumption. }
  unfold runDalitzPairing. cbv zeta. destruct fQA; [|exact Hpairs].
  eapply coupled_ext; [|exact Hpairs].
  intros idx. apply (fill_hists_spec VM fTrackCuts fPairCuts).
Qed.

Lemma collisions_coupled (collisions : list MyEvent.t)
    (filteredTracks : list MyBarrelTrack.t) (remaining : list MyEvent.t)
    (st : State (Values := Values)) :
  incl remaining collisions ->
  coupled collisions filteredTracks (fDalitzmap st) ->
  coupled collisions filteredTracks
    (fDalitzmap (fold_left (processCollision VM fEventCut fTrackCuts fPairCuts fQA
                              filteredTracks) remaining st)).
Proof.
  revert st. induction remaining as [|collision rest IH]; intros st Hincl Hd; [exact Hd|].
  cbn [fold_left]. apply IH.
  - intros c Hc. apply Hincl. now right.
  - apply processCollision_coupled; [|exact Hd]. apply Hincl. now left.
Qed.

(** X21: Dalitz bits come in pairs: when [processFullTracks] writes a
    row with the bit [i] set for a track, it writes a row with the bit
    [i] set for another track too, a filtered track of the same
    collision and of the opposite sign; and the rows are bytes, one for
    each track. *)
Theorem dalitz_bits_come_in_pairs (collisions : list MyEvent.t)
    (filteredTracks tracks : list MyBarrelTrack.t) (st : State (Values := Values)) :
  List.NoDup (List.map MyBarrelTrack.globalIndex tracks) ->
  incl filteredTracks tracks ->
  (forall track, In track filteredTracks ->
     MyBarrelTrack.sign track = 1 \/ MyBarrelTrack.sign track = -1) ->
  let rows :=
    fst (processFullTracks VM fEventCut fTrackCuts fPairCuts fQA
           collisions filteredTracks tracks st) in
  List.length rows = List.length tracks /\
  forall k track, nth_error tracks k = Some track ->
    exists bits,
      nth_error rows k = Some bits /\ 0 <= bits < 256 /\
      forall i, 0 <= i -> Z.testbit bits i = true ->
        exists k' partner bits',
          nth_error tracks k' = Some partner /\
          nth_error rows k' = Some bits' /\
          Z.testbit bits' i = true /\
          k' <> k /\
          In track filteredTracks /\ In partner filteredTracks /\
          MyBarrelTrack.collisionId partner = MyBarrelTrack.collisionId track /\
          MyBarrelTrack.sign partner = - MyBarrelTrack.sign track.
Proof.
  intros Htracks Hincl Hsigns. cbv zeta. unfold processFullTracks. cbv zeta.
  rewrite rows_spec. cbn [app].
  set (st0 := mkState (fTrackmap st) ∅ (fgValues st) (fHistMan st) (fStatsList st)).
  assert (Hinv : coupled collisions filteredTracks
            (fDalitzmap (fold_left (processCollision VM fEventCut fTrackCuts fPairCuts fQA
                                      filteredTracks) collisions st0))).
  { apply collisions_coupled; [apply incl_refl|].
    intros idx j Hj Hbit. cbn [fDalitzmap st0] in Hbit.
    rewrite at_empty, Z.bits_0 in Hbit. discriminate. }
  set (st1 := fold_left _ collisions st0) in *.
  split; [apply length_map|].
  intros k track Hk.
  exists (at_ (fDalitzmap st1) (MyBarrelTrack.globalIndex track)).
  split; [rewrite nth_error_map, Hk; reflexivity|]. split.
  - apply byte_of_bits. intros j Hj Hbit. now destruct (Hinv _ j Hj Hbit).
  - intros i Hi Hbit.
    destruct (Hinv _ i Hi Hbit)
      as (Hlt & idx' & (c & t & p & Hc & Ht & Hp & Hti & Hpi & Hsign) & Hbit').
    apply sliceBy_In in Ht as [Ht Htc]. apply sliceBy_In in Hp as [Hp Hpc].
    assert (t = track).
    { apply (globalIndex_inj tracks Htracks);
        [now apply Hincl|now apply nth_error_In in Hk|assumption]. }
    subst t.
    assert (Hopp : MyBarrelTrack.sign p = - MyBarrelTrack.sign track).
    { destruct (Hsigns track Ht) as [E1|E1], (Hsigns p Hp) as [E2|E2];
        rewrite E1, E2 in *; lia. }
    destruct (In_nth_error _ _ (Hincl p Hp)) as [k' Hk'].
    exists k', p, (at_ (fDalitzmap st1) (MyBarrelTrack.globalIndex p)).
    split; [exact Hk'|]. split; [rewrite nth_error_map, Hk'; reflexivity|].
    split; [rewrite Hpi; exact Hbit'|].
    split.
    { intros ->. rewrite Hk in Hk'. injection Hk' as ->.
      destruct (Hsigns p Hp) as [E|E]; rewrite E in Hopp; lia. }
    repeat split; try assumption. congruence.
Qed.


End Task.

(** The sample tracks of index 10 and 11 are the first two filtered tracks
    of the sample collision, of opposite signs; the track cut selects
    both and the pair cut selects every pair: both rows have bit 0. *)
Lemma dalitz_bits_of_a_selected_pair_witness :
  (exists bits,
     nth_error
       (fst (processFullTracks Sample.dalitzVM Sample.eventCut [Sample.trackCut]
               [Sample.pairCut] true Sample.collisions Sample.barrelTracks
               Sample.barrelTracks Sample.initial)) 0 = Some bits /\
     Z.testbit bits 0 = true) /\
  (exists bits,
     nth_error
       (fst (processFullTracks Sample.dalitzVM Sample.eventCut [Sample.trackCut]
               [Sample.pairCut] true Sample.collisions Sample.barrelTracks
               Sample.barrelTracks Sample.initial)) 1 = Some bits /\
     Z.testbit bits 0 = true).
Proof.
  assert (Hnd : List.NoDup (List.map MyBarrelTrack.globalIndex Sample.barrelTracks)).
  { repeat constructor; cbn; intuition discriminate. }
  pose proof (dalitz_bits_of_a_selected_pair Sample.dalitzVM Sample.eventCut
                [Sample.trackCut] [Sample.pairCut] true Sample.collisions
                Sample.barrelTracks Sample.barrelTracks Sample.initial
                (MyEvent.mk 0 []) [] [] [MyBarrelTrack.mk 12 0 (-1) []; MyBarrelTrack.mk 13 0 1 []]
                (MyBarrelTrack.mk 10 0 1 []) (MyBarrelTrack.mk 11 0 (-1) []) 0
                Sample.trackCut Sample.pairCut Hnd
                ltac:(left; reflexivity) (fun _ => eq_refl) eq_refl
                ltac:(cbn; lia) ltac:(lia) eq_refl eq_refl
                (fun _ => eq_refl) (fun _ => eq_refl) (fun _ => eq_refl)) as H.
  cbv zeta in H. split.
  - apply (H 0%nat (MyBarrelTrack.mk 10 0 1 []) eq_refl). now left.
  - apply (H 1%nat (MyBarrelTrack.mk 11 0 (-1) []) eq_refl). now right.
Defined.

(** The row of the first sample track has bit 0, and so has the row of a
    track of the opposite sign. *)
Lemma dalitz_bits_come_in_pairs_witness :
  exists bits,
    nth_error
      (fst (processFullTracks Sample.dalitzVM Sample.eventCut [Sample.trackCut]
              [Sample.pairCut] true Sample.collisions Sample.barrelTracks
              Sample.barrelTracks Sample.initial)) 0 = Some bits /\
    0 <= bits < 256 /\
    (Z.testbit bits 0 = true ->
     exists k' partner bits',
       nth_error Sample.barrelTracks k' = Some partner /\
       nth_error
         (fst (processFullTracks Sample.dalitzVM Sample.eventCut [Sample.trackCut]
                 [Sample.pairCut] true Sample.collisions Sample.barrelTracks
                 Sample.barrelTracks Sample.initial)) k' = Some bits' /\
       Z.testbit bits' 0 = true /\
       MyBarrelTrack.sign partner = -1).
Proof.
  assert (Hnd : List.NoDup (List.map MyBarrelTrack.globalIndex Sample.barrelTracks)).
  { repeat constructor; cbn; intuition discriminate. }
  assert (Hsigns : forall track, In track Sample.barrelTracks ->
            MyBarrelTrack.sign track = 1 \/ MyBarrelTrack.sign track = -1).
  { intros track [<-|[<-|[<-|[<-|[]]]]]; cbn; auto. }
  destruct (proj2 (dalitz_bits_come_in_pairs Sample.dalitzVM Sample.eventCut
                     [Sample.trackCut] [Sample.pairCut] true Sample.collisions
                     Sample.barrelTracks Sample.barrelTracks Sample.initial
                     Hnd (incl_refl _) Hsigns)
              0%nat (MyBarrelTrack.mk 10 0 1 []) eq_refl)
    as (bits & Hrow & Hrange & Hpairs).
  exists bits. split; [exact Hrow|]. split; [exact Hrange|].
  intros Hbit.
  destruct (Hpairs 0 ltac:(lia) Hbit)
    as (k' & partner & bits' & Hk' & Hrow' & Hbit' & _ & _ & _ & _ & Hsign).
  exists k', partner, bits'. repeat split; assumption.
Defined.

End DalitzPairs.

(** ** More on the Dalitz task: what the rows do not depend on *)

Module DalitzIndependence.
Import Bits BitsFacts dalitzPairing dalitzNotions fillNotions.
Import DalitzPairingFacts DalitzPairs.

Section Task.
Context {Values : Type}.
Variable VM : VarManager.t Values.
Variable fEventCut : AnalysisCompositeCut.t Values.
Variable fTrackCuts : list (AnalysisCompositeCut.t Values).
Variable fPairCuts : list (AnalysisCompositeCut.t Values).
Hypothesis Hdecided : decided_by_fill VM fEventCut fTrackCuts fPairCuts.

(** Two maps that read the same at every index. *)
#[local] Abbreviation same m m' := (forall idx : Z, at_ m idx = at_ m' idx).

Lemma selectTrack_same (cuts : list (AnalysisCompositeCut.t Values)) (i : Z)
    (values values' : Values) (filterMap : Z) :
  (forall cut, In cut cuts ->
     AnalysisCompositeCut.IsSelected cut values
     = AnalysisCompositeCut.IsSelected cut values') ->
  selectTrack cuts i values filterMap = selectTrack cuts i values' filterMap.
Proof.
  revert i filterMap. induction cuts as [|cut rest IH]; intros i filterMap Hcuts;
    [reflexivity|].
  cbn [selectTrack]. rewrite (Hcuts cut) by now left.
  apply IH. intros c Hc. apply Hcuts. now right.
Qed.

Lemma runTrackSelection_same (tracksBarrel : list MyBarrelTrack.t)
    (st st' : State (Values := Values)) :
  same (fTrackmap st) (fTrackmap st') ->
  same (fTrackmap (runTrackSelection VM fTrackCuts tracksBarrel st))
       (fTrackmap (runTrackSelection VM fTrackCuts tracksBarrel st')).
Proof.
  revert st st'. induction tracksBarrel as [|track rest IH]; intros st st' Hsame;
    [exact Hsame|].
  unfold runTrackSelection in *. cbn [fold_left]. apply IH. cbn [fTrackmap].
  rewrite (selectTrack_same fTrackCuts 0 _ (VarManager.FillTrack VM track (fgValues st'))).
  - intros idx. destruct (negb _); [|apply Hsame].
    rewrite !at_insert. destruct (decide _); [reflexivity|apply Hsame].
  - intros cut Hcut. now apply Hdecided.
Qed.

Lemma or_assign_same (d d' : gmap Z Z) (k bits : Z) :
  same d d' -> same (or_assign d k bits) (or_assign d' k bits).
Proof.
  intros Hsame idx. rewrite !or_assign_at, Hsame.
  destruct (decide (k = idx)); [reflexivity|apply Hsame].
Qed.

Lemma selectPair_same (fQA fQA' : bool) (cuts : list (AnalysisCompositeCut.t Values))
    (icut : Z) (track1 track2 : MyBarrelTrack.t) (twoTracksFilterMap : Z)
    (st st' : State (Values := Values)) :
  (forall cut, In cut cuts ->
     AnalysisCompositeCut.IsSelected cut (fgValues st)
     = AnalysisCompositeCut.IsSelected cut (fgValues st')) ->
  same (fDalitzmap st) (fDalitzmap st') ->
  same (fDalitzmap (selectPair fTrackCuts fQA cuts icut track1 track2
                      twoTracksFilterMap st))
       (fDalitzmap (selectPair fTrackCuts fQA' cuts icut track1 track2
                      twoTracksFilterMap st')).
Proof.
  revert icut st st'. induction cuts as [|pairCut rest IH]; intros icut st st' Hcuts Hsame;
    [exact Hsame|].
  cbn [selectPair]. rewrite <- (Hcuts pairCut) by now left.
  destruct (_ =? 0).
  - apply IH; [|exact Hsame]. intros c Hc. apply Hcuts. now right.
  - destruct (AnalysisCompositeCut.IsSelected pairCut (fgValues st)).
    + apply IH; cbn [fgValues fDalitzmap].
      * intros c Hc. apply Hcuts. now right.
      * now do 2 apply or_assign_same.
    + apply IH; [|exact Hsame]. intros c Hc. apply Hcuts. now right.
Qed.

Lemma pairTracks_same (fQA fQA' : bool) (st st' : State (Values := Values))
    (pair : MyBarrelTrack.t * MyBarrelTrack.t) :
  same (fTrackmap st) (fTrackmap st') ->
  same (fDalitzmap st) (fDalitzmap st') ->
  same (fTrackmap (pairTracks VM fTrackCuts fPairCuts fQA st pair))
       (fTrackmap (pairTracks VM fTrackCuts fPairCuts fQA' st' pair)) /\
  same (fDalitzmap (pairTracks VM fTrackCuts fPairCuts fQA st pair))
       (fDalitzmap (pairTracks VM fTrackCuts fPairCuts fQA' st' pair)).
Proof.
  intros Hm Hd.
  destruct (pairTracks_spec VM fTrackCuts fPairCuts fQA st pair) as [Hkeep _].
  destruct (pairTracks_spec VM fTrackCuts fPairCuts fQA' st' pair) as [Hkeep' _].
  cbv zeta in Hkeep, Hkeep'.
  split; [intros idx; now rewrite Hkeep, Hkeep', Hm|].
  destruct pair as [track1 track2]. unfold pairTracks.
  destruct (_ >? 0); [exact Hd|].
  pose proof (subscript_fst (fTrackmap st) (MyBarrelTrack.globalIndex track1)) as Hf1.
  pose proof (subscript_at (fTrackmap st) (MyBarrelTrack.globalIndex track1)) as Ha1.
  destruct (subscript (fTrackmap st) (MyBarrelTrack.globalIndex track1)) as [map1 m1].
  pose proof (subscript_fst m1 (MyBarrelTrack.globalIndex track2)) as Hf2.
  destruct (subscript m1 (MyBarrelTrack.globalIndex track2)) as [map2 m2].
  pose proof (subscript_fst (fTrackmap st') (MyBarrelTrack.globalIndex track1)) as Hf1'.
  pose proof (subscript_at (fTrackmap st') (MyBarrelTrack.globalIndex track1)) as Ha1'.
  destruct (subscript (fTrackmap st') (MyBarrelTrack.globalIndex track1)) as [map1' m1'].
  pose proof (subscript_fst m1' (MyBarrelTrack.globalIndex track2)) as Hf2'.
  destruct (subscript m1' (MyBarrelTrack.globalIndex track2)) as [map2' m2'].
  cbn [fst snd] in *. rewrite Ha1 in Hf2. rewrite Ha1' in Hf2'.
  assert (E1 : map1' = map1) by (rewrite Hf1, Hf1'; symmetry; apply Hm).
  assert (E2 : map2' = map2) by (rewrite Hf2, Hf2'; symmetry; apply Hm).
  clear Hf1 Hf2 Hf1' Hf2'. subst map1' map2'.
  destruct (_ =? 0); [exact Hd|].
  apply selectPair_same; [|exact Hd]. cbn [fgValues].
  intros cut Hcut. now apply Hdecided.
Qed.

Lemma pairs_same (fQA fQA' : bool) (pairs : list (MyBarrelTrack.t * MyBarrelTrack.t))
    (st st' : State (Values := Values)) :
  same (fTrackmap st) (fTrackmap st') ->
  same (fDalitzmap st) (fDalitzmap st') ->
  same (fDalitzmap (fold_left (pairTracks VM fTrackCuts fPairCuts fQA) pairs st))
       (fDalitzmap (fold_left (pairTracks VM fTrackCuts fPairCuts fQA') pairs st')).
Proof.
  revert st st'. induction pairs as [|pair rest IH]; intros st st' Hm Hd; [exact Hd|].
  cbn [fold_left]. destruct (pairTracks_same fQA fQA' st st' pair Hm Hd) as [Hm1 Hd1].
  now apply IH.
Qed.

Lemma runDalitzPairing_dalitzmap (fQA : bool) (tracks1 tracks2 : list MyBarrelTrack.t)
    (st : State (Values := Values)) :
  same (fDalitzmap (runDalitzPairing VM fTrackCuts fPairCuts fQA tracks1 tracks2 st))
       (fDalitzmap (fold_left (pairTracks VM fTrackCuts fPairCuts fQA)
                      (combinations tracks1 tracks2) st)).
Proof.
  intros idx. unfold runDalitzPairing. cbv zeta. destruct fQA; [|reflexivity].
  apply (fill_hists_spec VM fTrackCuts fPairCuts).
Qed.

Lemma processCollision_same (fQA fQA' : bool) (filteredTracks : list MyBarrelTrack.t)
    (st st' : State (Values := Values)) (collision : MyEvent.t) :
  same (fDalitzmap st) (fDalitzmap st') ->
  same (fDalitzmap (processCollision VM fEventCut fTrackCuts fPairCuts fQA
                      filteredTracks st collision))
       (fDalitzmap (processCollision VM fEventCut fTrackCuts fPairCuts fQA'
                      filteredTracks st' collision)).
Proof.
  intros Hd. unfold processCollision. cbv zeta.
  cbn [fgValues fDalitzmap fHistMan fStatsList].
  rewrite (proj1 Hdecided collision (fgValues st) (fgValues st')).
  destruct (AnalysisCompositeCut.IsSelected fEventCut _); [|exact Hd].
  intros idx. rewrite !runDalitzPairing_dalitzmap. revert idx.
  apply pairs_same.
  - apply runTrackSelection_same. reflexivity.
  - intros idx. rewrite !runTrackSelection_dalitzmap. apply Hd.
Qed.

Lemma collisions_same (fQA fQA' : bool) (filteredTracks : list MyBarrelTrack.t)
    (collisions : list MyEvent.t) (st st' : State (Values := Values)) :
  same (fDalitzmap st) (fDalitzmap st') ->
  same (fDalitzmap (fold_left (processCollision VM fEventCut fTrackCuts fPairCuts fQA
                                 filteredTracks) collisions st))
       (fDalitzmap (fold_left (processCollision VM fEventCut fTrackCuts fPairCuts fQA'
                                 filteredTracks) collisions st')).
Proof.
  revert st st'. induction collisions as [|collision rest IH]; intros st st' Hd;
    [exact Hd|].
  cbn [fold_left]. apply IH. now apply processCollision_same.
Qed.

End Task.

(** X22: when the cuts decide on what is filled in for the object at
    hand, the rows that [processFullTracks] writes depend on the tables
    and on the cuts only: not on the QA switch, and not on what an
    earlier call left in the track map, in the Dalitz map, in the
    variables or in the histograms. *)
Theorem dalitz_rows_independent_of_QA_and_history {Values : Type}
    (VM : VarManager.t Values) (fEventCut : AnalysisCompositeCut.t Values)
    (fTrackCuts fPairCuts : list (AnalysisCompositeCut.t Values))
    (fQA fQA' : bool) (collisions : list MyEvent.t)
    (filteredTracks tracks : list MyBarrelTrack.t)
    (st st' : State (Values := Values)) :
  decided_by_fill VM fEventCut fTrackCuts fPairCuts ->
  fst (processFullTracks VM fEventCut fTrackCuts fPairCuts fQA
         collisions filteredTracks tracks st)
  = fst (processFullTracks VM fEventCut fTrackCuts fPairCuts fQA'
           collisions filteredTracks tracks st').
Proof.
  intros Hdecided. unfold processFullTracks. cbv zeta.
  rewrite !rows_spec. cbn [app]. apply map_ext. intros track.
  apply (collisions_same VM fEventCut fTrackCuts fPairCuts Hdecided).
  reflexivity.
Qed.

(** The sample cuts decide on what is filled in; the rows of the sample
    are the same with and without QA, and from a state with leftovers. *)
Lemma dalitz_rows_independent_of_QA_and_history_witness :
  fst (processFullTracks Sample.dalitzVM Sample.eventCut [Sample.trackCut]
         [Sample.pairCut] true Sample.collisions Sample.barrelTracks
         Sample.barrelTracks Sample.initial)
  = fst (processFullTracks Sample.dalitzVM Sample.eventCut [Sample.trackCut]
           [Sample.pairCut] false Sample.collisions Sample.barrelTracks
           Sample.barrelTracks
           (mkState {[ 12 := 1 ]} {[ 12 := 255 ]} [7] [] [])).
Proof.
  apply dalitz_rows_independent_of_QA_and_history.
  split; [|split]; intros; reflexivity.
Defined.

End DalitzIndependence.

(** ** More on the Dalitz task: the statistics of the pairing *)

Module DalitzStatistics.
Import Bits BitsFacts dalitzPairing dalitzNotions MoreNotions.
Import DalitzPairingFacts.

Section Task.
Context {Values : Type}.
Variable VM : VarManager.t Values.
Variable fTrackCuts : list (AnalysisCompositeCut.t Values).
Variable fPairCuts : list (AnalysisCompositeCut.t Values).

Lemma fills_cons (code x : Z) (hist : list Z) :
  fills code (x :: hist) = ((if (code =? x)%Z then 1 else 0) + fills code hist)%nat.
Proof. unfold fills. cbn [List.filter]. destruct (code =? x); reflexivity. Qed.

(** The loop over the pair cuts for one track fills the bin of each cut
    whose bit is in the filter map, once. *)
Lemma fillTrackHists_stats (cuts : list (AnalysisCompositeCut.t Values)) (icut filterMap : Z)
    (st : State (Values := Values)) (i : Z) :
  0 <= icut ->
  fills i (fStatsList (fillTrackHists fTrackCuts cuts icut filterMap st))
  = (fills i (fStatsList st)
     + if ((icut <=? i) && (i <? icut + Z.of_nat (List.length cuts)))%Z
          && Z.testbit filterMap i
       then 1 else 0)%nat.
Proof.
  revert icut st. induction cuts as [|pairCut rest IH]; intros icut st Hi.
  - cbn [fillTrackHists List.length].
    replace ((icut <=? i) && (i <? icut + Z.of_nat 0)) with false; [cbn; lia|].
    symmetry. apply andb_false_iff.
    destruct (Z.leb_spec icut i); [right; apply Z.ltb_ge; lia|now left].
  - cbn [fillTrackHists]. rewrite IH by lia.
    rewrite land_cut_nonzero by assumption. rewrite negb_involutive.
    cbn [List.length]. rewrite Nat2Z.inj_succ.
    destruct (Z.eq_dec i icut) as [->|Hne].
    + replace (icut + 1 <=? icut) with false by (symmetry; apply Z.leb_gt; lia).
      replace (icut <=? icut) with true by (symmetry; apply Z.leb_le; lia).
      replace (icut <? icut + Z.succ (Z.of_nat (List.length rest))) with true
        by (symmetry; apply Z.ltb_lt; lia).
      cbn [andb]. destruct (Z.testbit filterMap icut); cbn [fStatsList].
      * rewrite fills_cons, Z.eqb_refl. lia.
      * lia.
    + replace (i <? icut + 1 + Z.of_nat (List.length rest))
        with (i <? icut + Z.succ (Z.of_nat (List.length rest)))
        by (f_equal; lia).
      replace (icut + 1 <=? i) with (icut <=? i).
      2:{ destruct (Z.leb_spec icut i), (Z.leb_spec (icut + 1) i); try reflexivity; lia. }
      destruct (Z.testbit filterMap icut); cbn [fStatsList]; [|reflexivity].
      rewrite fills_cons. replace (i =? icut) with false by (symmetry; now apply Z.eqb_neq).
      reflexivity.
Qed.

(** The loop over the tracks that fills the histograms. *)
Lemma fill_hists_stats (tracks1 : list MyBarrelTrack.t) (st : State (Values := Values))
    (i : Z) :
  0 <= i ->
  fills i (fStatsList
             (fold_left
                (fun st track =>
                   let '(filterMap, dalitzmap) :=
                     subscript (fDalitzmap st) (MyBarrelTrack.globalIndex track) in
                   let st := mkState (fTrackmap st) dalitzmap (fgValues st)
                               (fHistMan st) (fStatsList st) in
                   if filterMap =? 0 then st
                   else
                     let st :=
                       mkState (fTrackmap st) (fDalitzmap st)
                         (VarManager.FillTrack VM track (fgValues st))
                         (fHistMan st) (fStatsList st) in
                     fillTrackHists fTrackCuts fPairCuts 0 filterMap st)
                tracks1 st))
  = (fills i (fStatsList st)
     + List.length
         (List.filter
            (fun track =>
               Z.testbit (at_ (fDalitzmap st) (MyBarrelTrack.globalIndex track)) i
               && (i <? Z.of_nat (List.length fPairCuts))%Z)
            tracks1))%nat.
Proof.
  intros Hi. revert st. induction tracks1 as [|track rest IH]; intros st;
    cbn [fold_left List.filter]; [cbn; lia|].
  rewrite IH.
  pose proof (subscript_fst (fDalitzmap st) (MyBarrelTrack.globalIndex track)) as Hf.
  pose proof (subscript_at (fDalitzmap st) (MyBarrelTrack.globalIndex track)) as Ha.
  destruct (subscript (fDalitzmap st) (MyBarrelTrack.globalIndex track)) as [filterMap d].
  cbn [fst snd] in Hf, Ha. cbv zeta. rewrite <- Hf.
  assert (Hrest : forall d', (forall idx, at_ d' idx = at_ (fDalitzmap st) idx) ->
            List.filter
              (fun t => Z.testbit (at_ d' (MyBarrelTrack.globalIndex t)) i
                        && (i <? Z.of_nat (List.length fPairCuts))) rest
            = List.filter
                (fun t => Z.testbit (at_ (fDalitzmap st) (MyBarrelTrack.globalIndex t)) i
                          && (i <? Z.of_nat (List.length fPairCuts))) rest).
  { intros d' Hd'. apply filter_ext. intros t. now rewrite Hd'. }
  destruct (Z.eqb_spec filterMap 0) as [->|Hnz].
  - cbn [fStatsList fDalitzmap]. rewrite (Hrest d Ha), Z.bits_0. cbn [andb]. reflexivity.
  - rewrite fillTrackHists_maps, fillTrackHists_stats by lia.
    cbn [fStatsList fDalitzmap]. rewrite (Hrest d Ha).
    replace (0 <=? i) with true by (symmetry; apply Z.leb_le; lia).
    cbn [andb]. rewrite Z.add_0_l, andb_comm.
    destruct (Z.testbit filterMap i && (i <? Z.of_nat (List.length fPairCuts)));
      cbn [List.length]; lia.
Qed.

(** The pairing proper fills no bin of the statistics. *)
Lemma selectPair_stats (fQA : bool) (cuts : list (AnalysisCompositeCut.t Values))
    (icut : Z) (track1 track2 : MyBarrelTrack.t) (twoTracksFilterMap : Z)
    (st : State (Values := Values)) :
  fStatsList (selectPair fTrackCuts fQA cuts icut track1 track2 twoTracksFilterMap st)
  = fStatsList st.
Proof.
  revert icut st. induction cuts as [|pairCut rest IH]; intros icut st; [reflexivity|].
  cbn [selectPair]. rewrite IH.
  destruct (_ =? 0); [reflexivity|].
  destruct (AnalysisCompositeCut.IsSelected pairCut (fgValues st)); reflexivity.
Qed.

Lemma pairs_stats (fQA : bool) (pairs : list (MyBarrelTrack.t * MyBarrelTrack.t))
    (st : State (Values := Values)) :
  fStatsList (fold_left (pairTracks VM fTrackCuts fPairCuts fQA) pairs st) = fStatsList st.
Proof.
  revert st. induction pairs as [|[track1 track2] rest IH]; intros st; [reflexivity|].
  cbn [fold_left]. rewrite IH. unfold pairTracks.
  destruct (_ >? 0); [reflexivity|].
  destruct (subscript (fTrackmap st) _) as [map1 m1].
  destruct (subscript m1 _) as [map2 m2].
  destruct (_ =? 0); [reflexivity|].
  now rewrite selectPair_stats.
Qed.


End Task.


End DalitzStatistics.

(** ** Loosening the thresholds of the ML scores *)

Module BDTThresholds.
Import Bits BitsFacts hffilters.

(** X24: loosening the BDT thresholds never loses a candidate: with a
    background threshold that is not lower and prompt and non-prompt
    thresholds that are not higher, a candidate that [isBDTSelected]
    tags as prompt (non-prompt) is still tagged as prompt (non-prompt),
    and a mask that is not empty stays so. *)
Theorem BDT_threshold_loosening (RD : RecoDecay.t) (scores : list float)
    (thresholdBDTScores looser : LabeledArray) :
  0 <= RecoDecay.Prompt RD < 8 ->
  0 <= RecoDecay.NonPrompt RD < 8 ->
  RecoDecay.Prompt RD <> RecoDecay.NonPrompt RD ->
  (thresholdBDTScores 0%Z "BDTbkg"%string <=? looser 0%Z "BDTbkg"%string)%float = true ->
  (looser 0%Z "BDTprompt"%string
   <=? thresholdBDTScores 0%Z "BDTprompt"%string)%float = true ->
  (looser 0%Z "BDTnonprompt"%string
   <=? thresholdBDTScores 0%Z "BDTnonprompt"%string)%float = true ->
  (Z.testbit (isBDTSelected RD scores thresholdBDTScores) (RecoDecay.Prompt RD) = true ->
   Z.testbit (isBDTSelected RD scores looser) (RecoDecay.Prompt RD) = true) /\
  (Z.testbit (isBDTSelected RD scores thresholdBDTScores) (RecoDecay.NonPrompt RD) = true ->
   Z.testbit (isBDTSelected RD scores looser) (RecoDecay.NonPrompt RD) = true) /\
  (isBDTSelected RD scores thresholdBDTScores <> 0 -> isBDTSelected RD scores looser <> 0).
Proof.
  intros HP HNP Hne Hbkg Hprompt Hnonprompt.
  destruct (Nat.ltb_spec (List.length scores) 3) as [Hshort|Hlen].
  { assert (E : forall thr, isBDTSelected RD scores thr = 0).
    { intros thr. unfold isBDTSelected.
      destruct (Z.ltb_spec (Z.of_nat (List.length scores)) 3); [reflexivity|lia]. }
    rewrite !E, !Z.bits_0. split; [tauto|split; tauto]. }
  destruct (nth 0 scores nan >? thresholdBDTScores 0%Z "BDTbkg"%string)%float eqn:Hrej.
  { assert (E : isBDTSelected RD scores thresholdBDTScores = 0).
    { unfold isBDTSelected. rewrite Hrej. now destruct (_ <? 3). }
    rewrite E, !Z.bits_0. split; [discriminate|split; [discriminate|congruence]]. }
  assert (Hrej' : (nth 0 scores nan >? looser 0%Z "BDTbkg"%string)%float = false).
  { unfold Fp.gtb in *.
    destruct (looser 0%Z "BDTbkg"%string <? nth 0 scores nan)%float eqn:E;
      [|reflexivity].
    rewrite (FpOrder.leb_ltb_trans _ _ _ Hbkg E) in Hrej. discriminate. }
  destruct (MLScoreClassifier.isBDTSelected_bits RD HP HNP Hne scores thresholdBDTScores
              Hlen Hrej) as [BP BN].
  destruct (MLScoreClassifier.isBDTSelected_bits RD HP HNP Hne scores looser Hlen Hrej')
    as [BP' BN'].
  assert (HPbit : Z.testbit (isBDTSelected RD scores thresholdBDTScores)
                    (RecoDecay.Prompt RD) = true ->
                  Z.testbit (isBDTSelected RD scores looser) (RecoDecay.Prompt RD) = true).
  { rewrite BP, BP'. unfold Fp.gtb. intros H. exact (FpOrder.leb_ltb_trans _ _ _ Hprompt H). }
  assert (HNbit : Z.testbit (isBDTSelected RD scores thresholdBDTScores)
                    (RecoDecay.NonPrompt RD) = true ->
                  Z.testbit (isBDTSelected RD scores looser) (RecoDecay.NonPrompt RD) = true).
  { rewrite BN, BN'. unfold Fp.gtb. intros H.
    exact (FpOrder.leb_ltb_trans _ _ _ Hnonprompt H). }
  split; [exact HPbit|]. split; [exact HNbit|].
  intros Hmask Hzero. apply Hmask.
  destruct (Z.testbit (isBDTSelected RD scores thresholdBDTScores) (RecoDecay.Prompt RD))
    eqn:EP.
  { specialize (HPbit eq_refl). rewrite Hzero, Z.bits_0 in HPbit. discriminate. }
  destruct (Z.testbit (isBDTSelected RD scores thresholdBDTScores) (RecoDecay.NonPrompt RD))
    eqn:EN.
  { specialize (HNbit eq_refl). rewrite Hzero, Z.bits_0 in HNbit. discriminate. }
  assert (EP' : (nth 1 scores nan >? thresholdBDTScores 0%Z "BDTprompt"%string)%float
                = false) by congruence.
  assert (EN' : (nth 2 scores nan >? thresholdBDTScores 0%Z "BDTnonprompt"%string)%float
                = false) by congruence.
  unfold isBDTSelected.
  destruct (Z.ltb_spec (Z.of_nat (List.length scores)) 3); [reflexivity|].
  now rewrite Hrej, EP', EN'.
Qed.

(** The scores {0.1, 0.8, 0.1} are tagged as prompt with thresholds of
    0.5, and still with the looser thresholds. *)
Lemma BDT_threshold_loosening_witness :
  Z.testbit (isBDTSelected Sample.reco [0.1; 0.8; 0.1]%float Sample.thresholds) 1 = true /\
  Z.testbit (isBDTSelected Sample.reco [0.1; 0.8; 0.1]%float SampleThresholds.loose) 1 = true.
Proof.
  split; [reflexivity|].
  apply (proj1 (BDT_threshold_loosening Sample.reco [0.1; 0.8; 0.1]%float
                  Sample.thresholds SampleThresholds.loose
                  ltac:(cbn; lia) ltac:(cbn; lia) ltac:(cbn; lia)
                  eq_refl eq_refl eq_refl)).
  reflexivity.
Defined.

End BDTThresholds.
